(** * code-cadence: the Time Allocation Planner, the Day Allocation
    Distributor and the History Rewrite Executor, embedded in Rocq.

    The Go sources are modelled function by function:
    - package [main]: [generateCommitTimesForDay], [allocateAcrossDays],
      [parseWeekdays], [enumerateDaysSkipping], [groupCommitsByDay], and the
      plans that [commitCadence] and [commitCadenceSpan] pass to the
      executor;
    - package [git]: [runGitCommand], [parseCommitsWithMergeInfo],
      [getCommitsFirstParentWithMerges], [GetUnpushedCommits],
      [GetParentCommit], [GetCurrentBranch], [GetCommitMessage],
      [extractBranchNameFromMergeMessage], [UpdateCommitTimes].

    How the program is modelled:
    - Go's [int] and [time.Duration] are 64-bit signed integers; they are
      [Z], and every operation that can leave the 64-bit range is written
      with its wrap-around ([GoInt.wrap]).
    - A run-time panic (index out of range, [rand.Intn] on a non-positive
      bound, a slice bound out of range) is a result of its own: [None] in
      package [main], [Panicked] in package [git].
    - The configuration variables of package [main] and the random source of
      [math/rand] are explicit arguments.
    - A [time.Time] is its instant; a location is the table of its zones,
      so that the clock changes of the local time zone are covered.
    - The git processes are commands answered by an oracle, and a run of the
      executor yields, with its result, the trace of what it ran.
    - Parsing and formatting dates ([time.Parse], [Time.Format]) and the
      clock are parameters of the functions that use them.

    The file has three parts: the embedding, the vocabulary of the
    properties, and the properties with their proofs. *)

From Stdlib Require Import String Ascii.
From Stdlib Require Import ZArith List Bool Lia.
From Stdlib Require Import Sorting.Sorted Sorting.Permutation.
Import ListNotations.
Open Scope Z_scope.

(** ** Go integers *)

Module GoInt.

Definition min_int : Z := - 2 ^ 63.
Definition max_int : Z := 2 ^ 63 - 1.

(** Two's complement wrap-around of a mathematical integer to [int64]. *)
Definition wrap (x : Z) : Z := (x + 2 ^ 63) mod 2 ^ 64 - 2 ^ 63.

Definition add (x y : Z) : Z := wrap (x + y).
Definition sub (x y : Z) : Z := wrap (x - y).
Definition mul (x y : Z) : Z := wrap (x * y).
Definition neg (x : Z) : Z := wrap (- x).

(** Go's [/] and [%] truncate toward zero. *)
Definition quo (x y : Z) : Z := wrap (Z.quot x y).
Definition rem (x y : Z) : Z := Z.rem x y.

(** Saturation to the 64-bit range, as [time.Time.Sub] does. *)
Definition saturate (x : Z) : Z :=
  if x <? min_int then min_int else if max_int <? x then max_int else x.

End GoInt.

(** ** The pseudo-random source of [math/rand]

    The global generator is made an explicit argument: a source is the
    sequence of raw values it is going to deliver.  [Intn n] reduces the next
    raw value into [[0, n)] and panics when [n <= 0], as [rand.Intn] does.
    Every sequence of results that [rand.Intn] can produce is produced by some
    source. *)

Module Rand.

Definition Source : Type := nat -> Z.

Definition advance (src : Source) : Source := fun k => src (S k).

Definition Intn (n : Z) (src : Source) : option (Z * Source) :=
  if n <=? 0 then None else Some (src O mod n, advance src).

(** The source that always delivers the raw value [v]. *)
Definition const (v : Z) : Source := fun _ => v.

End Rand.

(** ** Instants, durations and locations of package [time]

    A [Time] is an instant, in nanoseconds since the Unix epoch; [Before],
    [After] and [Equal] compare instants.  A [Duration] is an [int64] count of
    nanoseconds.  Instants are added to exactly: a [time.Time] counts its
    seconds in 64 bits, which hold every instant within 292 billion years of
    the epoch.

    A [Location] is what its method [lookup] tells of it: for every instant,
    in seconds since the epoch, the zone in force, with its offset east of
    UTC in seconds and the instants between which it is in force.  The
    location of a commit date is the one [time.Parse] gives it: the local
    one, with its clock changes, when the offset of the date is an offset of
    the local time zone, and otherwise a location fixed at that offset. *)

Module GoTime.

Definition Time : Type := Z.
Definition Duration : Type := Z.

Record Zone : Type := mkZone { offset : Z; since : Z; till : Z }.

Definition Location : Type := Z -> Zone.

(** [time.FixedZone] and [time.UTC]: one zone, in force at all times. *)
Definition FixedZone (off : Z) : Location :=
  fun _ => mkZone off GoInt.min_int GoInt.max_int.

Definition UTC : Location := FixedZone 0.

Definition Nanosecond : Duration := 1.
Definition Second : Duration := 1000000000.
Definition Minute : Duration := 60 * Second.
Definition Hour : Duration := 60 * Minute.

Definition Add (t : Time) (d : Duration) : Time := t + d.
Definition Sub (t u : Time) : Duration := GoInt.saturate (t - u).
Definition Before (t u : Time) : bool := t <? u.
Definition After (t u : Time) : bool := u <? t.
Definition Equal (t u : Time) : bool := t =? u.

(** [t.Unix()], and the seconds that the clock of the location shows at
    [t]: those of the instant, moved by the offset in force. *)
Definition Unix (t : Time) : Z := t / Second.

Definition clock (loc : Location) (t : Time) : Z :=
  Unix t + offset (loc (Unix t)).

Definition secondsPerDay : Z := 86400.
Definition secondsPerHour : Z := 3600.

(** [time.Date(t.Year(), t.Month(), t.Day(), hour, 0, 0, 0, loc)] for a [t]
    in [loc].  The year, month and day of [t] are those of the day its clock
    shows, and [time.Date] normalises an hour outside [[0, 23]] into the
    neighbouring days, so the clock reading asked for is that day's first
    second plus [hour] hours.  [time.Date] then looks for an instant that
    reads so: it takes the zone in force at the reading itself, and when the
    instant that this zone gives lies outside the zone, the zone in force at
    that instant.  On a day with a clock change an hour so is skipped or
    repeated.  The seconds are added exactly: the 64-bit seconds of
    [time.Date] agree with them as long as they do not wrap around, which
    takes an hour beyond [10^15].  What is proved of a work window is
    stated on its two instants, whatever the hours that give them. *)
Definition Date (loc : Location) (t : Time) (hour : Z) : Time :=
  let unix := clock loc t / secondsPerDay * secondsPerDay
              + hour * secondsPerHour in
  let zone := loc unix in
  let off :=
    if offset zone =? 0 then 0
    else
      let utc := unix - offset zone in
      if (utc <? since zone) || (till zone <=? utc)
      then offset (loc utc)
      else offset zone in
  (unix - off) * Second.

(** [time.Weekday], and [t.Weekday()] for a [t] in [loc]: the days that the
    clock of the location shows since the epoch, which was a Thursday. *)
Inductive Weekday : Type :=
| Sunday | Monday | Tuesday | Wednesday | Thursday | Friday | Saturday.

Definition weekdayOfNumber (k : Z) : Weekday :=
  if k =? 0 then Sunday
  else if k =? 1 then Monday
  else if k =? 2 then Tuesday
  else if k =? 3 then Wednesday
  else if k =? 4 then Thursday
  else if k =? 5 then Friday
  else Saturday.

Definition dayOfWeek (loc : Location) (t : Time) : Weekday :=
  weekdayOfNumber ((clock loc t / secondsPerDay + 4) mod 7).

End GoTime.

(** ** Slices of [int] *)

Module Slice.

Definition inRange {A} (s : list A) (k : Z) : bool :=
  (0 <=? k) && (k <? Z.of_nat (length s)).

Fixpoint update {A} (s : list A) (k : nat) (v : A) : list A :=
  match s, k with
  | [], _ => []
  | _ :: s', O => v :: s'
  | x :: s', S k' => x :: update s' k' v
  end.

(** [s[k]]; an index out of range panics. *)
Definition load (s : list Z) (k : Z) : option Z :=
  if inRange s k then nth_error s (Z.to_nat k) else None.

(** [s[k] = v]; an index out of range panics. *)
Definition store (s : list Z) (k : Z) (v : Z) : option (list Z) :=
  if inRange s k then Some (update s (Z.to_nat k) v) else None.

(** [s[k]++].  An entry never exceeds the number of increments made, so the
    addition stays in range. *)
Definition incr (s : list Z) (k : Z) : option (list Z) :=
  match load s k with
  | Some v => store s k (v + 1)
  | None => None
  end.

(** [make([]int, m)] *)
Definition make (m : Z) : list Z := repeat 0 (Z.to_nat m).

(** The sum of the entries, and the entry at [k] read as 0 out of range;
    both are used to state properties only. *)
Definition sum (s : list Z) : Z := fold_right Z.add 0 s.

Definition at0 (s : list Z) (k : Z) : Z :=
  match load s k with Some v => v | None => 0 end.

End Slice.

(** ** Package [main]: configuration, planner and distributor *)

Module Cadence.

Import GoTime.

(** The configuration variables of package [main] that the planner and the
    distributor read, passed explicitly. *)
Record Config : Type := mkConfig {
  WorkDayStartHour : Z;
  WorkDayEndHour : Z;
  JitterMinutes : Z;
  JitterDays : bool
}.

(** Computations that draw from the random source and may panic. *)
Definition M (A : Type) : Type := Rand.Source -> option (A * Rand.Source).

Definition ret {A} (a : A) : M A := fun src => Some (a, src).

Definition bind {A B} (c : M A) (k : A -> M B) : M B :=
  fun src => match c src with
             | Some (a, src') => k a src'
             | None => None
             end.

Definition lift {A} (o : option A) : M A :=
  fun src => match o with Some a => Some (a, src) | None => None end.

Declare Scope cadence_scope.
Delimit Scope cadence_scope with cadence.
Notation "x <- c ;; k" := (bind c (fun x => k))
  (at level 61, c at next level, right associativity) : cadence_scope.
Local Open Scope cadence_scope.

(** *** [allocateAcrossDays] *)

(** The day offset of middle commit [i]. *)
Definition dayOffsetOf (cfg : Config) (availableDays i : Z) : M Z :=
  if JitterDays cfg then Rand.Intn availableDays
  else ret (GoInt.rem (GoInt.add (GoInt.mul i 7) (GoInt.mul i i)) availableDays).

(** [for i := 0; i < middleCommits; i++ { ...; out[dayIndex]++ }], with
    [fuel] the number of iterations left. *)
Fixpoint spreadMiddle (cfg : Config) (availableDays : Z) (fuel : nat) (i : Z)
    (out : list Z) : M (list Z) :=
  match fuel with
  | O => ret out
  | S fuel' =>
      dayOffset <- dayOffsetOf cfg availableDays i ;;
      let dayIndex := 1 + dayOffset in
      out' <- lift (Slice.incr out dayIndex) ;;
      spreadMiddle cfg availableDays fuel' (i + 1) out'
  end.

(** [for i := 0; i < middleCommits; i++ { if i%2 == 0 { out[0]++ } else
    { out[m-1]++ } }] *)
Fixpoint alternateEnds (m : Z) (fuel : nat) (i : Z) (out : list Z)
    : M (list Z) :=
  match fuel with
  | O => ret out
  | S fuel' =>
      out' <- lift (if GoInt.rem i 2 =? 0 then Slice.incr out 0
                    else Slice.incr out (m - 1)) ;;
      alternateEnds m fuel' (i + 1) out'
  end.

Definition allocateAcrossDays (cfg : Config) (n m : Z) : M (list Z) :=
  if m <=? 0 then ret []
  else
    let out := Slice.make m in
    if n <=? 0 then ret out
    else if n =? 1 then lift (Slice.store out (m - 1) 1)
    else if m =? 1 then lift (Slice.store out 0 n)
    else
      out <- lift (Slice.store out 0 1) ;;
      out <- lift (Slice.store out (m - 1) 1) ;;
      if 2 <? n then
        let middleCommits := n - 2 in
        let availableDays := m - 2 in
        if 0 <? availableDays
        then spreadMiddle cfg availableDays (Z.to_nat middleCommits) 0 out
        else alternateEnds m (Z.to_nat middleCommits) 0 out
      else ret out.

(** *** [generateCommitTimesForDay] *)

Definition workDayStart (cfg : Config) (loc : Location) (day : Time) : Time :=
  Date loc day (WorkDayStartHour cfg).

Definition workDayEnd (cfg : Config) (loc : Location) (day : Time) : Time :=
  Date loc day (WorkDayEndHour cfg).

(** [if JitterMinutes > 0 { jitter = time.Duration(rand.Intn(JitterMinutes*2)
    - JitterMinutes) * time.Minute }]; the zero duration otherwise. *)
Definition drawJitter (cfg : Config) : M Duration :=
  if 0 <? JitterMinutes cfg then
    r <- Rand.Intn (GoInt.mul (JitterMinutes cfg) 2) ;;
    ret (GoInt.mul (GoInt.sub r (JitterMinutes cfg)) Minute)
  else ret 0.

(** [for i := 0; i < commitCount; i++ { times[i] = ... }], the slice being
    filled from index [i] on. *)
Fixpoint spreadTimes (cfg : Config) (start : Time) (interval : Duration)
    (fuel : nat) (i : Z) : M (list Time) :=
  match fuel with
  | O => ret []
  | S fuel' =>
      let baseTime := Add start (GoInt.mul i interval) in
      jitter <- drawJitter cfg ;;
      rest <- spreadTimes cfg start interval fuel' (i + 1) ;;
      ret (Add baseTime jitter :: rest)
  end.

(** The body of the loop that brings a time back into the work hours. *)
Definition clampToWorkDay (start finish : Time) (timeVal : Time) : Time :=
  if Before timeVal start then start
  else if After timeVal finish || Equal timeVal finish
       then Add finish (- Minute)
       else timeVal.

(** [sort.Slice(times, func(i, j int) bool { return times[i].Before(times[j]) })].
    Times that compare equal are the same value, so the sorted slice is
    determined by its elements; it is computed by insertion. *)
Fixpoint insertTime (t : Time) (l : list Time) : list Time :=
  match l with
  | [] => [t]
  | u :: l' => if Before u t then u :: insertTime t l' else t :: l
  end.

Definition sortTimes (l : list Time) : list Time :=
  fold_right insertTime [] l.

(** The [if commitCount == 1 { ... } else { ... }] block that fills
    [times]: a single commit within the hour before the end of the work
    day, several commits at equal intervals from its start. *)
Definition placeTimes (cfg : Config) (start finish : Time)
    (commitCount : Z) : M (list Time) :=
  let workDayDuration := Sub finish start in
  if commitCount =? 1 then
    r <- Rand.Intn 60 ;;
    let eveningTime := Add finish (GoInt.mul (GoInt.neg r) Minute) in
    jitter <- drawJitter cfg ;;
    ret [Add eveningTime jitter]
  else
    let interval := GoInt.quo workDayDuration (commitCount - 1) in
    spreadTimes cfg start interval (Z.to_nat commitCount) 0.

Definition generateCommitTimesForDay (cfg : Config) (loc : Location)
    (day : Time) (commitCount : Z) : M (list Time) :=
  if commitCount <=? 0 then ret []
  else
    let start := workDayStart cfg loc day in
    let finish := workDayEnd cfg loc day in
    times <- placeTimes cfg start finish commitCount ;;
    ret (sortTimes (map (clampToWorkDay start finish) times)).

End Cadence.

(** ** Package [strings], on byte strings

    White space is the ASCII white space of [unicode.IsSpace] and letters
    are the ASCII letters: the strings of the repository (the log, branch
    names, messages, lists of weekdays) are taken to be ASCII, and a byte
    above 127 is neither white space nor a letter. *)

Module GoStrings.

Definition isSpace (c : ascii) : bool :=
  let n := nat_of_ascii c in
  (Nat.eqb n 9 || Nat.eqb n 10 || Nat.eqb n 11 || Nat.eqb n 12
   || Nat.eqb n 13 || Nat.eqb n 32)%bool.

Definition isEmpty (s : string) : bool :=
  match s with EmptyString => true | String _ _ => false end.

Fixpoint trimLeft (s : string) : string :=
  match s with
  | EmptyString => EmptyString
  | String c s' => if isSpace c then trimLeft s' else s
  end.

Fixpoint trimRight (s : string) : string :=
  match s with
  | EmptyString => EmptyString
  | String c s' =>
      match trimRight s' with
      | EmptyString => if isSpace c then EmptyString else String c EmptyString
      | r => String c r
      end
  end.

Definition TrimSpace (s : string) : string := trimRight (trimLeft s).

(** The pieces of [s] between the bytes that satisfy [sep]; never empty. *)
Fixpoint splitAt (sep : ascii -> bool) (s : string) : list string :=
  match s with
  | EmptyString => [EmptyString]
  | String c s' =>
      if sep c then EmptyString :: splitAt sep s'
      else match splitAt sep s' with
           | [] => [String c EmptyString]
           | w :: ws => String c w :: ws
           end
  end.

(** [strings.Split(s, "\n")] *)
Definition SplitLines (s : string) : list string :=
  splitAt (Ascii.eqb (ascii_of_nat 10)) s.

(** [strings.Fields(s)] *)
Definition Fields (s : string) : list string :=
  filter (fun w => negb (isEmpty w)) (splitAt isSpace s).

(** [strings.Index(s, substr)], [-1] when [substr] does not occur. *)
Definition Index (s substr : string) : Z :=
  match String.index 0 substr s with
  | Some k => Z.of_nat k
  | None => -1
  end.

(** [strings.Contains(s, substr)] *)
Definition Contains (s substr : string) : bool := 0 <=? Index s substr.

(** [s[from:]] and [s[from:to]] for indices in range. *)
Definition sliceFrom (s : string) (from : Z) : string :=
  String.substring (Z.to_nat from) (String.length s - Z.to_nat from) s.

Definition slice (s : string) (from to : Z) : string :=
  String.substring (Z.to_nat from) (Z.to_nat (to - from)) s.

Definition len (s : string) : Z := Z.of_nat (String.length s).

(** [strings.ToLower(s)]: the letters [A] to [Z] are lowered, every other
    byte is kept. *)
Definition toLower (c : ascii) : ascii :=
  let n := nat_of_ascii c in
  if (Nat.leb 65 n && Nat.leb n 90)%bool then ascii_of_nat (n + 32) else c.

Fixpoint ToLower (s : string) : string :=
  match s with
  | EmptyString => EmptyString
  | String c s' => String (toLower c) (ToLower s')
  end.

End GoStrings.

(** ** Package [git]: the History Rewrite Executor *)

Module Git.

Import GoStrings.

Local Notation "s +++ t" := (String.append s t)
  (at level 60, right associativity).

(** [emptyTreeHash] *)
Definition emptyTreeHash : string :=
  "4b825dc642cb6eb9a060e54bf8d69288fbee4904"%string.

Record Commit : Type := mkCommit {
  Hash : string;
  Subject : string;
  Author : string;
  Email : string;
  DateTime : string;
  IsMerge : bool;
  MergeFrom : string
}.

(** *** The git processes the executor starts

    A command is the directory it runs in, the arguments after [git], and
    the entries appended to the inherited environment.  The repository and
    the git installation are an oracle that answers a command, given the
    commands run before and their answers; a run of the executor records
    what it asked and what it was answered. *)

Record Command : Type := mkCommand {
  dir : string;
  args : list string;
  env : list string
}.

Inductive Response : Type :=
| Success (stdout : string)
| Failure.

Record Event : Type := mkEvent { command : Command; response : Response }.

Definition Trace : Type := list Event.

Definition Repository : Type := Trace -> Command -> Response.

(** The errors [UpdateCommitTimes] returns, one per [fmt.Errorf] (or
    [GitError]) site, with the value the message names. *)
Inductive Error : Type :=
| CheckoutParentFailed (parentCommitHash : string)
| CreateRewriteBranchFailed (rewriteBranchName : string)
| MergeHasNoSource (hash : string)
| GetMergeMessageFailed (hash : string)
| MergeFailed (mergeFrom : string)
| CherryPickFailed (hash : string)
| AmendFailed
| CheckoutBranchFailed (branchName : string)
| DeleteRewriteBranchFailed (rewriteBranchName : string).

(** What a call returns: [(n, nil)], [(n, err)], or a run-time panic. *)
Inductive Outcome : Type :=
| Done (successfulUpdates : Z)
| Failed (successfulUpdates : Z) (err : Error)
| Panicked.

(** What applying one commit (merge or cherry-pick) comes to. *)
Inductive Applied : Type :=
| ApplyOk
| ApplyFailed (err : Error)
| ApplyPanicked.

(** [extractBranchNameFromMergeMessage]: the loop over the fields. *)
Fixpoint branchAfterKeyword (parts : list string) : string :=
  match parts with
  | [] => EmptyString
  | part :: rest =>
      if String.eqb part "branch" then
        match rest with
        | nextPart :: _ =>
            if String.eqb nextPart "into" then branchAfterKeyword rest
            else nextPart
        | [] => branchAfterKeyword rest
        end
      else branchAfterKeyword rest
  end.

Definition extractBranchNameFromMergeMessage (message : string) : string :=
  match SplitLines (TrimSpace message) with
  | [] => EmptyString
  | firstLine :: _ =>
      let quoted :=
        if Contains firstLine "Merge branch '" then
          let start := Index firstLine "Merge branch '" + len "Merge branch '" in
          let finish := Index (sliceFrom firstLine start) "'" in
          if finish =? -1 then None
          else Some (slice firstLine start (start + finish))
        else None in
      match quoted with
      | Some name => name
      | None =>
          if Contains firstLine "Merge branch "
          then branchAfterKeyword (Fields firstLine)
          else EmptyString
      end
  end.

(** *** [parseCommitsWithMergeInfo] *)

(** The body of the loop over the lines: a line of fewer than six fields
    yields no commit. *)
Definition parseCommitLine (line : string) : option Commit :=
  let parts := splitAt (Ascii.eqb "|") line in
  if 6 <=? Z.of_nat (length parts) then
    let parents := nth 5 parts EmptyString in
    let parentHashes := Fields parents in
    let isMerge := 1 <? Z.of_nat (length parentHashes) in
    Some (mkCommit (nth 0 parts EmptyString) (nth 1 parts EmptyString)
            (nth 2 parts EmptyString) (nth 3 parts EmptyString)
            (nth 4 parts EmptyString) isMerge
            (if isMerge && (2 <=? Z.of_nat (length parentHashes))
             then nth 1 parentHashes EmptyString
             else EmptyString))
  else None.

Fixpoint parseCommitLines (lines : list string) : list Commit :=
  match lines with
  | [] => []
  | line :: rest =>
      match parseCommitLine line with
      | Some commit => commit :: parseCommitLines rest
      | None => parseCommitLines rest
      end
  end.

Definition parseCommitsWithMergeInfo (output : string) : list Commit :=
  if len output =? 0 then []
  else
    let lines := SplitLines (TrimSpace output) in
    if (Z.of_nat (length lines) =? 1) && isEmpty (hd EmptyString lines) then []
    else parseCommitLines lines.

(** The errors of the functions that read the repository, one per
    [fmt.Errorf] site, and what such a function returns: [(value, nil)] or
    [(_, err)]. *)
Inductive QueryError : Type :=
| GetCurrentBranchFailed
| DetachedHeadOrNoCommits
| GetUnpushedCommitsFailed
| GetParentCommitFailed.

Inductive Result (A : Type) : Type :=
| Ok (value : A)
| Err (err : QueryError).

Arguments Ok {A} value.
Arguments Err {A} err.

Section Executor.

(** The repository the executor works on. *)
Variable git : Repository.

(** [time.Time] and [newTime.Format("2006-01-02T15:04:05")]. *)
Variable Time : Type.
Variable Format : Time -> string.

(** Computations that run git commands and record them. *)
Definition X (A : Type) : Type := Trace -> A * Trace.

Definition ret {A} (a : A) : X A := fun tr => (a, tr).

Definition bind {A B} (c : X A) (k : A -> X B) : X B :=
  fun tr => let (a, tr') := c tr in k a tr'.

Notation "x <- c ;; k" := (bind c (fun x => k))
  (at level 61, c at next level, right associativity).

Definition exec (c : Command) : X Response :=
  fun tr => let r := git tr c in (r, tr ++ [mkEvent c r]).

(** [runGitCommand]: the standard output, or [None] for an error. *)
Definition runGitCommand (dir : string) (args : list string)
    : X (option string) :=
  match args with
  | [] => ret None
  | _ =>
      r <- exec (mkCommand dir args []) ;;
      ret (match r with Success out => Some out | Failure => None end)
  end.

(** [GetCommitMessage] *)
Definition GetCommitMessage (repoPath commitHash : string)
    : X (option string) :=
  runGitCommand repoPath ["log"; "--format=%B"; "-n"; "1"; commitHash]%string.

(** [getCommitsFirstParentWithMerges]; [None] for the error of the log. *)
Definition getCommitsFirstParentWithMerges (repoPath commitRange : string)
    : X (option (list Commit)) :=
  let args :=
    if isEmpty commitRange
    then ["log"; "--first-parent"; "--pretty=format:%h|%s|%an|%ae|%ad|%P";
          "--date=iso"]%string
    else ["log"%string; "--first-parent"%string;
          "--pretty=format:%h|%s|%an|%ae|%ad|%P"%string; "--date=iso"%string;
          commitRange] in
  output <- runGitCommand repoPath args ;;
  ret (match output with
       | Some output => Some (parseCommitsWithMergeInfo output)
       | None => None
       end).

(** [GetCurrentBranch] *)
Definition GetCurrentBranch (repoPath : string) : X (Result string) :=
  branchOutput <- runGitCommand repoPath ["branch"; "--show-current"]%string ;;
  match branchOutput with
  | None => ret (Err GetCurrentBranchFailed)
  | Some branchOutput =>
      let currentBranch := TrimSpace branchOutput in
      if isEmpty currentBranch then ret (Err DetachedHeadOrNoCommits)
      else ret (Ok currentBranch)
  end.

(** [GetParentCommit] *)
Definition GetParentCommit (repoPath firstUnpushedCommitHash : string)
    : X (Result string) :=
  parentOutput <- runGitCommand repoPath
                    ["rev-parse"%string; firstUnpushedCommitHash +++ "^"] ;;
  match parentOutput with
  | None => ret (Err GetParentCommitFailed)
  | Some parentOutput => ret (Ok (TrimSpace parentOutput))
  end.

(** [GetUnpushedCommits], strategy 2: the loop over the remotes.  [None]
    when no remote has a branch of the current name. *)
Fixpoint compareWithRemotes (repoPath currentBranch : string)
    (remotesList : list string) : X (option (Result (list Commit))) :=
  match remotesList with
  | [] => ret None
  | remote :: remotesList' =>
      verified <- runGitCommand repoPath
                    ["rev-parse"%string; "--verify"%string;
                     remote +++ "/" +++ currentBranch] ;;
      match verified with
      | Some _ =>
          commits <- getCommitsFirstParentWithMerges repoPath
                       (remote +++ "/" +++ currentBranch +++ ".."
                        +++ currentBranch) ;;
          match commits with
          | None => ret (Some (Err GetUnpushedCommitsFailed))
          | Some commits => ret (Some (Ok commits))
          end
      | None => compareWithRemotes repoPath currentBranch remotesList'
      end
  end.

(** [GetUnpushedCommits]: every commit of the first-parent history, where
    an error of the log yields no commits. *)
Definition wholeHistory (repoPath : string) : X (Result (list Commit)) :=
  commits <- getCommitsFirstParentWithMerges repoPath EmptyString ;;
  match commits with
  | None => ret (Ok [])
  | Some commits => ret (Ok commits)
  end.

(** [GetUnpushedCommits]: the comparison with a branch that is known to
    exist, where an error of the log is an error of the call. *)
Definition notIn (repoPath base currentBranch : string)
    : X (Result (list Commit)) :=
  commits <- getCommitsFirstParentWithMerges repoPath
               (base +++ ".." +++ currentBranch) ;;
  match commits with
  | None => ret (Err GetUnpushedCommitsFailed)
  | Some commits => ret (Ok commits)
  end.

(** [GetUnpushedCommits]: without an upstream branch. *)
Definition withoutUpstream (repoPath parentGitBranchName currentBranch
    : string) : X (Result (list Commit)) :=
  remotesOutput <- runGitCommand repoPath ["remote"%string] ;;
  let remotesOutput :=
    match remotesOutput with Some out => out | None => EmptyString end in
  if isEmpty (TrimSpace remotesOutput) then wholeHistory repoPath
  else
    origin <- runGitCommand repoPath
                ["rev-parse"%string; "--verify"%string;
                 "origin/" +++ currentBranch] ;;
    match origin with
    | Some _ => notIn repoPath ("origin/" +++ currentBranch) currentBranch
    | None =>
        let remotesList := Fields (TrimSpace remotesOutput) in
        found <- compareWithRemotes repoPath currentBranch remotesList ;;
        match found with
        | Some result => ret result
        | None =>
            commits <- getCommitsFirstParentWithMerges repoPath
                         (parentGitBranchName +++ ".." +++ currentBranch) ;;
            match commits with
            | Some commits => ret (Ok commits)
            | None => wholeHistory repoPath
            end
        end
    end.

Definition GetUnpushedCommits (repoPath parentGitBranchName : string)
    : X (Result (list Commit)) :=
  branchOutput <- runGitCommand repoPath ["branch"; "--show-current"]%string ;;
  match branchOutput with
  | None => ret (Err GetCurrentBranchFailed)
  | Some branchOutput =>
      let currentBranch := TrimSpace branchOutput in
      if isEmpty currentBranch then ret (Ok [])
      else
        head <- runGitCommand repoPath ["rev-parse"; "HEAD"]%string ;;
        match head with
        | None => ret (Ok [])
        | Some _ =>
            upstreamOutput <- runGitCommand repoPath
                                ["rev-parse"%string; "--abbrev-ref"%string;
                                 currentBranch +++ "@{upstream}"] ;;
            match upstreamOutput with
            | None => withoutUpstream repoPath parentGitBranchName currentBranch
            | Some upstreamOutput =>
                notIn repoPath (TrimSpace upstreamOutput) currentBranch
            end
        end
  end.

(** The merge branch of the loop body. *)
Definition applyMerge (repoPath branchName : string) (commit : Commit)
    : X Applied :=
  if isEmpty (MergeFrom commit)
  then ret (ApplyFailed (MergeHasNoSource (Hash commit)))
  else
    originalMessage <- GetCommitMessage repoPath (Hash commit) ;;
    match originalMessage with
    | None => ret (ApplyFailed (GetMergeMessageFailed (Hash commit)))
    | Some originalMessage =>
        let extracted := extractBranchNameFromMergeMessage originalMessage in
        let originalBranchName :=
          if isEmpty extracted then
            if len (MergeFrom commit) <? 8 then None
            else Some (slice (MergeFrom commit) 0 8)
          else Some extracted in
        match originalBranchName with
        | None => ret ApplyPanicked
        | Some originalBranchName =>
            let customMergeMessage :=
              "Merge branch '" +++ originalBranchName +++ "' into "
              +++ branchName in
            merged <- runGitCommand repoPath
                        ["merge"%string; "-m"%string; customMergeMessage;
                         MergeFrom commit] ;;
            match merged with
            | None => ret (ApplyFailed (MergeFailed (MergeFrom commit)))
            | Some _ => ret ApplyOk
            end
        end
    end.

(** The cherry-pick branch of the loop body, with its recovery. *)
Definition applyCherryPick (repoPath : string) (commit : Commit)
    : X Applied :=
  picked <- runGitCommand repoPath ["cherry-pick"%string; Hash commit] ;;
  match picked with
  | Some _ => ret ApplyOk
  | None =>
      status <- runGitCommand repoPath ["status"%string] ;;
      if match status with
         | Some status => Contains status "cherry-picking"
         | None => false
         end
      then
        continued <- runGitCommand repoPath ["cherry-pick"; "--continue"]%string ;;
        match continued with
        | Some _ => ret ApplyOk
        | None =>
            skipped <- runGitCommand repoPath ["cherry-pick"; "--skip"]%string ;;
            match skipped with
            | Some _ => ret ApplyOk
            | None =>
                _ <- runGitCommand repoPath ["cherry-pick"; "--abort"]%string ;;
                allowEmpty <- runGitCommand repoPath
                                ["cherry-pick"%string; "--allow-empty"%string;
                                 Hash commit] ;;
                match allowEmpty with
                | Some _ => ret ApplyOk
                | None => ret (ApplyFailed (CherryPickFailed (Hash commit)))
                end
            end
        end
      else
        allowEmpty <- runGitCommand repoPath
                        ["cherry-pick"%string; "--allow-empty"%string;
                         Hash commit] ;;
        match allowEmpty with
        | Some _ => ret ApplyOk
        | None => ret (ApplyFailed (CherryPickFailed (Hash commit)))
        end
  end.

(** [git commit --amend --no-edit --reset-author] with the environment
    the executor builds for it. *)
Definition amendCommand (repoPath newCommitAuthorName newCommitAuthorEmail
    : string) (newTime : Time) : Command :=
  let newTimeStr := Format newTime in
  let env := ["GIT_AUTHOR_DATE=" +++ newTimeStr;
              "GIT_COMMITTER_DATE=" +++ newTimeStr] in
  let env :=
    if isEmpty newCommitAuthorName then env
    else env ++ ["GIT_AUTHOR_NAME=" +++ newCommitAuthorName;
                 "GIT_COMMITTER_NAME=" +++ newCommitAuthorName] in
  let env :=
    if isEmpty newCommitAuthorEmail then env
    else env ++ ["GIT_AUTHOR_EMAIL=" +++ newCommitAuthorEmail;
                 "GIT_COMMITTER_EMAIL=" +++ newCommitAuthorEmail] in
  mkCommand repoPath
    ["commit"; "--amend"; "--no-edit"; "--reset-author"]%string env.

(** [for i, commit := range commits { newTime := newTimes[i]; ... }], from
    the commit at hand on.  The two slices are walked together: [newTimes[i]]
    past the end of [newTimes] is the index-out-of-range panic, and
    [successfulUpdates] is the count so far. *)
Fixpoint replay (repoPath branchName newCommitAuthorName
    newCommitAuthorEmail : string) (commits : list Commit)
    (newTimes : list Time) (successfulUpdates : Z) : X Outcome :=
  match commits with
  | [] => ret (Done successfulUpdates)
  | commit :: commits' =>
      match newTimes with
      | [] => ret Panicked
      | newTime :: newTimes' =>
          applied <- (if IsMerge commit
                      then applyMerge repoPath branchName commit
                      else applyCherryPick repoPath commit) ;;
          match applied with
          | ApplyPanicked => ret Panicked
          | ApplyFailed err => ret (Failed successfulUpdates err)
          | ApplyOk =>
              amended <- exec (amendCommand repoPath newCommitAuthorName
                                 newCommitAuthorEmail newTime) ;;
              match amended with
              | Failure => ret (Failed successfulUpdates AmendFailed)
              | Success _ =>
                  replay repoPath branchName newCommitAuthorName
                    newCommitAuthorEmail commits' newTimes'
                    (successfulUpdates + 1)
              end
          end
      end
  end.

(** The branch swap after the loop. *)
Definition swapBranches (repoPath branchName rewriteBranchName : string)
    (successfulUpdates : Z) : X Outcome :=
  switched <- runGitCommand repoPath ["checkout"; "-B"; branchName]%string ;;
  match switched with
  | None => ret (Failed successfulUpdates (CheckoutBranchFailed branchName))
  | Some _ =>
      deleted <- runGitCommand repoPath
                   ["branch"; "-D"; rewriteBranchName]%string ;;
      match deleted with
      | None => ret (Failed successfulUpdates
                       (DeleteRewriteBranchFailed rewriteBranchName))
      | Some _ => ret (Done successfulUpdates)
      end
  end.

(** The run once the parent commit is checked out: the rewrite branch is
    created, the commits are replayed on it, and the branches are swapped. *)
Definition onRewriteBranch (repoPath : string) (commits : list Commit)
    (newTimes : list Time) (branchName rewriteBranchName
    newCommitAuthorName newCommitAuthorEmail : string) : X Outcome :=
  created <- runGitCommand repoPath
               ["checkout"; "-b"; rewriteBranchName]%string ;;
  match created with
  | None => ret (Failed 0 (CreateRewriteBranchFailed rewriteBranchName))
  | Some _ =>
      replayed <- replay repoPath branchName newCommitAuthorName
                    newCommitAuthorEmail commits newTimes 0 ;;
      match replayed with
      | Done successfulUpdates =>
          swapBranches repoPath branchName rewriteBranchName
            successfulUpdates
      | stopped => ret stopped
      end
  end.

Definition UpdateCommitTimes (repoPath : string) (commits : list Commit)
    (newTimes : list Time) (parentCommitHash branchName rewriteBranchName
    newCommitAuthorName newCommitAuthorEmail : string) : X Outcome :=
  rooted <- (if String.eqb parentCommitHash emptyTreeHash then ret (Some EmptyString)
             else runGitCommand repoPath ["checkout"%string; parentCommitHash]) ;;
  match rooted with
  | None => ret (Failed 0 (CheckoutParentFailed parentCommitHash))
  | Some _ =>
      onRewriteBranch repoPath commits newTimes branchName rewriteBranchName
        newCommitAuthorName newCommitAuthorEmail
  end.

End Executor.

End Git.

(** ** Package [main]: the days of a span and the plan of its rewrite *)

Module Span.

Import GoTime.
Import GoStrings.
Import Git.
Import Cadence.

Local Open Scope cadence_scope.

(** [map[time.Weekday]bool], of which only the entries set to [true] are
    ever stored: the weekdays that are in it.  A [nil] map and an empty map
    are read alike. *)
Definition WeekdaySet : Type := Weekday -> bool.

Definition noWeekday : WeekdaySet := fun _ => false.

Definition sameWeekday (a b : Weekday) : bool :=
  match a, b with
  | Sunday, Sunday | Monday, Monday | Tuesday, Tuesday
  | Wednesday, Wednesday | Thursday, Thursday | Friday, Friday
  | Saturday, Saturday => true
  | _, _ => false
  end.

(** [m[d] = true] *)
Definition setWeekday (d : Weekday) (m : WeekdaySet) : WeekdaySet :=
  fun d' => if sameWeekday d d' then true else m d'.

(** *** [parseWeekdays] *)

Definition oneOf (l : string) (names : list string) : bool :=
  existsb (String.eqb l) names.

(** The [switch] over the lowered item. *)
Definition weekdayNamed (l : string) : option Weekday :=
  if oneOf l ["sun"; "sunday"; "0"]%string then Some Sunday
  else if oneOf l ["mon"; "monday"; "1"]%string then Some Monday
  else if oneOf l ["tue"; "tues"; "tuesday"; "2"]%string then Some Tuesday
  else if oneOf l ["wed"; "weds"; "wednesday"; "3"]%string then Some Wednesday
  else if oneOf l ["thu"; "thur"; "thurs"; "thursday"; "4"]%string then Some Thursday
  else if oneOf l ["fri"; "friday"; "5"]%string then Some Friday
  else if oneOf l ["sat"; "saturday"; "6"]%string then Some Saturday
  else None.

(** [for _, raw := range items { ... }] *)
Fixpoint parseItems (items : list string) (m : WeekdaySet) : WeekdaySet :=
  match items with
  | [] => m
  | raw :: items' =>
      let t := TrimSpace raw in
      if isEmpty t then parseItems items' m
      else
        match weekdayNamed (ToLower t) with
        | Some d => parseItems items' (setWeekday d m)
        | None => parseItems items' m
        end
  end.

Definition parseWeekdays (s : string) : WeekdaySet :=
  if isEmpty (TrimSpace s) then noWeekday
  else parseItems (splitAt (Ascii.eqb ",") s) noWeekday.

(** *** [enumerateDaysSkipping]

    [for d := start; !d.After(end); d = d.Add(24 * time.Hour)], with [fuel]
    the number of iterations left; the loop is given the number of days from
    [start] to [end], which is the number of iterations it makes. *)
Fixpoint enumerateFrom (loc : Location) (finish : Time) (skip : WeekdaySet)
    (fuel : nat) (d : Time) : list Time :=
  match fuel with
  | O => []
  | S fuel' =>
      if After d finish then []
      else
        let days := enumerateFrom loc finish skip fuel' (Add d (24 * Hour)) in
        if skip (dayOfWeek loc d) then days else d :: days
  end.

Definition enumerateDaysSkipping (loc : Location) (start finish : Time)
    (skip : WeekdaySet) : list Time :=
  enumerateFrom loc finish skip
    (Z.to_nat ((finish - start) / (24 * Hour) + 1)) start.

(** *** [commitCadenceSpan]: the plan for one repository

    What the body of the loop over the repositories computes between the
    oldest unpushed commit and the call of [git.UpdateCommitTimes]: the
    eligible days, the allocation of the commits to them and the timestamps
    of each day. *)

(** [s[low:high]]; bounds out of range panic. *)
Definition subSlice {A : Type} (s : list A) (low high : Z) : option (list A) :=
  if (0 <=? low) && (low <=? high) && (high <=? Z.of_nat (length s))
  then Some (firstn (Z.to_nat (high - low)) (skipn (Z.to_nat low) s))
  else None.

(** [for i, day := range days { k := alloc[i]; ... }], from day [i] on.
    [newTimes[j]] is read for every [j] below [len(sub)] when the day is
    printed. *)
Fixpoint planDays (cfg : Config) (loc : Location) (ordered : list Commit)
    (alloc : list Z) (days : list Time) (i cursor : Z)
    (allCommits : list Commit) (allNewTimes : list Time)
    : M (list Commit * list Time) :=
  match days with
  | [] => ret (allCommits, allNewTimes)
  | day :: days' =>
      k <- lift (Slice.load alloc i) ;;
      if k =? 0
      then planDays cfg loc ordered alloc days' (i + 1) cursor
             allCommits allNewTimes
      else
        sub <- lift (subSlice ordered cursor (GoInt.add cursor k)) ;;
        let cursor := GoInt.add cursor k in
        newTimes <- generateCommitTimesForDay cfg loc day
                      (Z.of_nat (length sub)) ;;
        _ <- lift (if Z.of_nat (length sub) <=? Z.of_nat (length newTimes)
                   then Some tt else None) ;;
        planDays cfg loc ordered alloc days' (i + 1) cursor
          (allCommits ++ sub) (allNewTimes ++ newTimes)
  end.

(** How the body ends for a repository with unpushed commits whose oldest
    date was parsed: without an eligible day, with the internal error of a
    mismatched allocation, or with the commits and the timestamps that are
    passed to [git.UpdateCommitTimes]. *)
Inductive SpanPlan : Type :=
| NoEligibleDays
| MismatchedAllocation
| Planned (allCommits : list Commit) (allNewTimes : list Time).

Definition planSpan (cfg : Config) (skipWeekdaysSet : WeekdaySet)
    (loc : Location) (oldestTime now : Time) (unpushedCommits : list Commit)
    : M SpanPlan :=
  let startDay := Date loc oldestTime 0 in
  let today := Date loc now 0 in
  let days := enumerateDaysSkipping loc startDay today skipWeekdaysSet in
  if Z.of_nat (length days) =? 0 then ret NoEligibleDays
  else
    let ordered := rev unpushedCommits in
    alloc <- allocateAcrossDays cfg (Z.of_nat (length ordered))
               (Z.of_nat (length days)) ;;
    plan <- planDays cfg loc ordered alloc days 0 0 [] [] ;;
    let (allCommits, allNewTimes) := plan in
    if negb (Z.of_nat (length allCommits) =? Z.of_nat (length allNewTimes))
       || (Z.of_nat (length allCommits) =? 0)
    then ret MismatchedAllocation
    else ret (Planned allCommits allNewTimes).

End Span.

(** ** Package [main]: the plan of a rewrite day by day *)

Module SameDay.

Import GoTime.
Import GoStrings.
Import Git.
Import Cadence.

Local Open Scope cadence_scope.

Section Calendar.

(** Of package [time]: [time.Parse("2006-01-02 15:04:05 -0700", s)], whose
    result is an instant with its location, or an error; the date
    [t.Format("2006-01-02")] of such a result; and the successive readings
    of [time.Now()]. *)
Variable Parse : string -> option (Time * Location).
Variable FormatDay : Time * Location -> string.
Variable Now : nat -> Time * Location.

(** [map[string][]git.Commit], the keys in the order they were first
    stored.  A key that is missing reads as the [nil] slice. *)
Definition DayMap : Type := list (string * list Commit).

Fixpoint lookupDay (m : DayMap) (dayStr : string) : list Commit :=
  match m with
  | [] => []
  | (key, dayCommits) :: m' =>
      if String.eqb dayStr key then dayCommits else lookupDay m' dayStr
  end.

Fixpoint storeDay (m : DayMap) (dayStr : string) (dayCommits : list Commit)
    : DayMap :=
  match m with
  | [] => [(dayStr, dayCommits)]
  | (key, old) :: m' =>
      if String.eqb dayStr key then (key, dayCommits) :: m'
      else (key, old) :: storeDay m' dayStr dayCommits
  end.

(** *** [groupCommitsByDay]

    [for _, commit := range commits { ... }], with the number of readings
    of the clock made so far. *)
Fixpoint groupFrom (commits : list Commit) (reads : nat)
    (commitsByDay : DayMap) : DayMap :=
  match commits with
  | [] => commitsByDay
  | commit :: commits' =>
      let (commitTime, reads) :=
        match Parse (DateTime commit) with
        | Some commitTime => (commitTime, reads)
        | None => (Now reads, S reads)
        end in
      let dayStr := FormatDay commitTime in
      groupFrom commits' reads
        (storeDay commitsByDay dayStr
           (lookupDay commitsByDay dayStr ++ [commit]))
  end.

Definition groupCommitsByDay (commits : list Commit) : DayMap :=
  groupFrom commits O [].

(** [sort.Strings], on keys that are all different. *)
Fixpoint insertString (s : string) (l : list string) : list string :=
  match l with
  | [] => [s]
  | u :: l' => if String.leb s u then s :: l else u :: insertString s l'
  end.

Definition sortStrings (l : list string) : list string :=
  fold_right insertString [] l.

(** *** [commitCadence]: the plan for one repository

    [for _, dayStr := range sortedDays { ... }].  [dayCommits[0]] of an
    empty slice panics; a first commit whose date is not parsed leaves the
    day out; [newTimes[i]] is read for every [i] below
    [len(reversedCommits)] when the day is printed. *)
Fixpoint planSortedDays (cfg : Config) (commitsByDay : DayMap)
    (sortedDays : list string) (allCommits : list Commit)
    (allNewTimes : list Time) : M (list Commit * list Time) :=
  match sortedDays with
  | [] => ret (allCommits, allNewTimes)
  | dayStr :: sortedDays' =>
      let dayCommits := lookupDay commitsByDay dayStr in
      firstCommit <- lift (hd_error dayCommits) ;;
      match Parse (DateTime firstCommit) with
      | None =>
          planSortedDays cfg commitsByDay sortedDays' allCommits allNewTimes
      | Some (firstCommitTime, loc) =>
          let day := Date loc firstCommitTime 0 in
          let reversedCommits := rev dayCommits in
          newTimes <- generateCommitTimesForDay cfg loc day
                        (Z.of_nat (length reversedCommits)) ;;
          _ <- lift (if Z.of_nat (length reversedCommits)
                        <=? Z.of_nat (length newTimes)
                     then Some tt else None) ;;
          planSortedDays cfg commitsByDay sortedDays'
            (allCommits ++ reversedCommits) (allNewTimes ++ newTimes)
      end
  end.

(** From the unpushed commits to the commits and the timestamps that are
    passed to [git.UpdateCommitTimes]. *)
Definition planCadence (cfg : Config) (unpushedCommits : list Commit)
    : M (list Commit * list Time) :=
  let commitsByDay := groupCommitsByDay unpushedCommits in
  let sortedDays := sortStrings (map fst commitsByDay) in
  planSortedDays cfg commitsByDay sortedDays [] [].

End Calendar.

End SameDay.

(** * Specifications

    The vocabulary of the properties: what the distributor and the planner
    are to deliver, how a trace of the executor is read, what git does with
    an amend, and the configurations and repositories of the examples. *)

Import Cadence.
Import GoTime.
Import Git.

(** ** The Day Allocation Distributor *)

(** The interior day that the deterministic formula gives middle commit [i]:
    offset [(i*7 + i*i) mod availableInteriorDays], shifted by one past the
    first day. *)
Definition interiorDay (availableInteriorDays i : Z) : Z :=
  1 + (i * 7 + i * i) mod availableInteriorDays.

(** How many of the middle commits [first, first + count) the formula places
    on day [k]. *)
Definition placedOn (availableInteriorDays : Z) (first count : nat) (k : Z) : Z :=
  Z.of_nat (length (filter (fun i => interiorDay availableInteriorDays (Z.of_nat i) =? k)
                           (seq first count))).

(** The distributor's postcondition: the counts cover every day, sum to [n],
    and the first and the last day are used as soon as there are two commits
    and two days. *)
Definition distributes (n m : Z) (out : list Z) : Prop :=
  Z.of_nat (length out) = m
  /\ Slice.sum out = n
  /\ (1 < n -> 1 < m -> Slice.at0 out 0 <> 0 /\ Slice.at0 out (m - 1) <> 0).

(** The test configuration of the repository: work hours 9 to 17, no jitter
    on minutes, no jitter on days. *)
Definition testConfig : Config := mkConfig 9 17 0 false.

(** The default configuration of [loadConfig]. *)
Definition defaultConfig : Config := mkConfig 10 19 30 true.

(** ** Locations *)

(** A location without clock changes: its offset is [off] at all times, as
    in UTC and in a location that [time.Parse] fixes at the offset of a
    date. *)
Definition fixedAt (off : Z) (loc : Location) : Prop :=
  forall sec, offset (loc sec) = off.

(** The clock changes of New York in 2024: standard time, five hours west
    of UTC, until 2024-03-10 07:00 UTC and from 2024-11-03 06:00 UTC on, and
    daylight saving time, four hours west, between them. *)
Definition newYork2024 : Location :=
  fun sec =>
    if sec <? 1710054000 then mkZone (-18000) GoInt.min_int 1710054000
    else if sec <? 1730613600 then mkZone (-14400) 1710054000 1730613600
    else mkZone (-18000) 1730613600 GoInt.max_int.

(** Midnight of 2024-03-10 in New York, the day on which the clocks go
    forward there from 2:00 to 3:00, and of 2024-11-02, the eve of the day on
    which they go back from 2:00 to 1:00. *)
Definition springForward2024 : Time := 1710046800 * Second.
Definition eveOfFallBack2024 : Time := 1730520000 * Second.

(** ** The Time Allocation Planner *)

(** What the timestamps planned for [n] commits are to satisfy: there are
    exactly [n], in ascending order, none at or after the end of the work
    window, and with jitter 0 all of them within [[start, end)]. *)
Definition withinWindow (cfg : Config) (loc : Location) (day : Time)
    (n : Z) (ts : list Time) : Prop :=
  Z.of_nat (length ts) = n
  /\ Sorted Z.le ts
  /\ Forall (fun t => t < workDayEnd cfg loc day) ts
  /\ (JitterMinutes cfg = 0 ->
      Forall (fun t => workDayStart cfg loc day <= t < workDayEnd cfg loc day) ts).

(** The planner returns such timestamps. *)
Definition plansWithinWindow (cfg : Config) (loc : Location) (day : Time)
    (n : Z) (src : Rand.Source) : Prop :=
  exists ts src',
    generateCommitTimesForDay cfg loc day n src = Some (ts, src')
    /\ withinWindow cfg loc day n ts.

(** The times of [spreadTimes] when no jitter is drawn. *)
Fixpoint baseTimes (start : Time) (interval : Duration) (fuel : nat) (i : Z)
    : list Time :=
  match fuel with
  | O => []
  | S fuel' =>
      Add (Add start (GoInt.mul i interval)) 0
      :: baseTimes start interval fuel' (i + 1)
  end.

(** The degenerate window 12 to 12 and a jitter of [2^62] minutes. *)
Definition degenerateConfig : Config := mkConfig 12 12 0 false.
Definition hugeJitterConfig : Config := mkConfig 9 17 (2 ^ 62) false.

(** ** The History Rewrite Executor *)

(** *** Reading a trace *)

(** The git verb of an event: the first argument of its command. *)
Definition verb (e : Event) : string := hd EmptyString (args (command e)).

Definition succeeded (e : Event) : bool :=
  match response e with Success _ => true | Failure => false end.

Definition isAmend (e : Event) : bool := String.eqb (verb e) "commit".

(** The amend commands of a run, in the order they were issued. *)
Definition amendCommands (tr : Trace) : list Command :=
  map command (filter isAmend tr).

(** The number of commits whose amend succeeded. *)
Definition successfulAmends (tr : Trace) : Z :=
  Z.of_nat (length (filter (fun e => isAmend e && succeeded e) tr)).

(** The successful deletions of the rewrite branch in a run. *)
Definition deletions (rewriteBranchName : string) (tr : Trace) : list Event :=
  filter (fun e => String.eqb (verb e) "branch" && succeeded e
                   && String.eqb (nth 2 (args (command e)) EmptyString)
                                 rewriteBranchName) tr.

(** An event of applying a commit: neither an amend nor a branch command. *)
Definition applying (e : Event) : Prop :=
  isAmend e = false /\ String.eqb (verb e) "branch" = false.

(** A git command without additions to the environment, and its failure. *)
Definition gitIn (repoPath : string) (arguments : list string) : Command :=
  mkCommand repoPath arguments [].

Definition failed (c : Command) : Event := mkEvent c Failure.

(** Whether the answer to [git status] shows a cherry-pick in progress. *)
Definition pickInProgress (status : Response) : bool :=
  match status with
  | Success out => GoStrings.Contains out "cherry-picking"
  | Failure => false
  end.

(** The recovery the executor goes through before a cherry-pick is fatal.
    With a cherry-pick in progress: continue, skip, abort, and the same
    commit again allowing an empty result.  Without one: only the same
    commit again allowing an empty result. *)
Definition recoveryAsBuilt (repoPath hash : string) (evs : list Event) : Prop :=
  exists status,
    (pickInProgress status = true
     /\ exists aborted,
         evs = [failed (gitIn repoPath ["cherry-pick"%string; hash]);
                mkEvent (gitIn repoPath ["status"%string]) status;
                failed (gitIn repoPath ["cherry-pick"; "--continue"]%string);
                failed (gitIn repoPath ["cherry-pick"; "--skip"]%string);
                mkEvent (gitIn repoPath ["cherry-pick"; "--abort"]%string) aborted;
                failed (gitIn repoPath ["cherry-pick"%string; "--allow-empty"%string; hash])])
    \/ (pickInProgress status = false
        /\ evs = [failed (gitIn repoPath ["cherry-pick"%string; hash]);
                  mkEvent (gitIn repoPath ["status"%string]) status;
                  failed (gitIn repoPath ["cherry-pick"%string; "--allow-empty"%string; hash])]).

(** The recovery in the order the claim gives it: the continuation only when
    a cherry-pick is in progress, then in every case the skip, the abort and
    the same commit again allowing an empty result. *)
Definition recoveryAsStated (repoPath hash : string) (evs : list Event) : Prop :=
  exists status aborted,
    (pickInProgress status = true
     /\ evs = [failed (gitIn repoPath ["cherry-pick"%string; hash]);
               mkEvent (gitIn repoPath ["status"%string]) status;
               failed (gitIn repoPath ["cherry-pick"; "--continue"]%string);
               failed (gitIn repoPath ["cherry-pick"; "--skip"]%string);
               mkEvent (gitIn repoPath ["cherry-pick"; "--abort"]%string) aborted;
               failed (gitIn repoPath ["cherry-pick"%string; "--allow-empty"%string; hash])])
    \/ (pickInProgress status = false
        /\ evs = [failed (gitIn repoPath ["cherry-pick"%string; hash]);
                  mkEvent (gitIn repoPath ["status"%string]) status;
                  failed (gitIn repoPath ["cherry-pick"; "--skip"]%string);
                  mkEvent (gitIn repoPath ["cherry-pick"; "--abort"]%string) aborted;
                  failed (gitIn repoPath ["cherry-pick"%string; "--allow-empty"%string; hash])]).

(** *** What a run is to satisfy *)

(** The claim about fatal cherry-picks, for a notion of recovery: whenever a
    run ends with the fatal error of a cherry-pick, its trace ends with the
    recovery for that commit, and the count returned is the number of commits
    amended before. *)
Definition fatalOnlyAfter (recovery : string -> string -> list Event -> Prop)
    (git : Repository) (Time : Type) (Format : Time -> string)
    (repoPath : string) (commits : list Commit) (newTimes : list Time)
    (parentCommitHash branchName rewriteBranchName newCommitAuthorName
     newCommitAuthorEmail : string) : Prop :=
  let run := UpdateCommitTimes git Time Format repoPath commits newTimes
               parentCommitHash branchName rewriteBranchName
               newCommitAuthorName newCommitAuthorEmail [] in
  forall n hash,
    fst run = Failed n (CherryPickFailed hash) ->
    exists pre tail,
      snd run = pre ++ tail
      /\ recovery repoPath hash tail
      /\ n = successfulAmends pre.

(** What holds of the outcome and the trace of every run. *)
Definition runPost (Time : Type) (Format : Time -> string)
    (repoPath branchName rewriteBranchName newCommitAuthorName
     newCommitAuthorEmail : string) (commits : list Commit)
    (newTimes : list Time) (o : Outcome) (trace : Trace) : Prop :=
  (exists k, (k <= length commits)%nat /\ (k <= length newTimes)%nat
             /\ amendCommands trace
                = map (amendCommand Time Format repoPath newCommitAuthorName
                         newCommitAuthorEmail) (firstn k newTimes))
  /\ match o with
     | Done n =>
         n = Z.of_nat (length commits)
         /\ successfulAmends trace = n
         /\ exists pre switched deleted,
             trace = pre ++ [mkEvent (gitIn repoPath ["checkout"; "-B"; branchName]%string)
                               (Success switched);
                             mkEvent (gitIn repoPath ["branch"; "-D"; rewriteBranchName]%string)
                               (Success deleted)]
             /\ deletions rewriteBranchName pre = []
     | Failed n err =>
         n = successfulAmends trace
         /\ deletions rewriteBranchName trace = []
         /\ forall hash, err = CherryPickFailed hash ->
              exists pre tail,
                trace = pre ++ tail
                /\ recoveryAsBuilt repoPath hash tail
                /\ n = successfulAmends pre
     | Panicked => deletions rewriteBranchName trace = []
     end.

(** *** Whose name and which dates an amended commit bears

    What [git commit --amend] records, after git-commit(1): the dates are
    those of [GIT_AUTHOR_DATE] and [GIT_COMMITTER_DATE]; with
    [--reset-author] the authorship passes to the committer, that is to
    [GIT_AUTHOR_NAME] and [GIT_AUTHOR_EMAIL] where the environment sets them
    and otherwise to the identity git finds for the user who runs the tool
    (the inherited environment, [user.name] and [user.email]); without
    [--reset-author] the author of the amended commit is kept. *)

Record Identity : Type := mkIdentity { userName : string; userEmail : string }.

Fixpoint stripPrefix (p s : string) : option string :=
  match p with
  | EmptyString => Some s
  | String a p' =>
      match s with
      | String b s' => if Ascii.eqb a b then stripPrefix p' s' else None
      | EmptyString => None
      end
  end.

(** The value of [key] among [KEY=value] entries; the last entry wins. *)
Definition getenv (key : string) (environment : list string) : option string :=
  fold_left (fun found entry =>
               match stripPrefix (String.append key "=") entry with
               | Some value => Some value
               | None => found
               end) environment None.

Definition resetsAuthor (c : Command) : bool :=
  existsb (String.eqb "--reset-author") (args c).

Definition amendedAuthor (ambient original : Identity) (c : Command) : Identity :=
  if resetsAuthor c then
    mkIdentity
      (match getenv "GIT_AUTHOR_NAME" (env c) with
       | Some v => v
       | None => userName ambient
       end)
      (match getenv "GIT_AUTHOR_EMAIL" (env c) with
       | Some v => v
       | None => userEmail ambient
       end)
  else original.

Definition amendedAuthorDate (c : Command) : option string :=
  getenv "GIT_AUTHOR_DATE" (env c).

Definition amendedCommitterDate (c : Command) : option string :=
  getenv "GIT_COMMITTER_DATE" (env c).

(** The author the original commit records. *)
Definition authorOf (commit : Commit) : Identity :=
  mkIdentity (Author commit) (Email commit).

(** The amends of a run are those of its first commits, in order, and each
    satisfies [P] for its commit and planned timestamp. *)
Definition everyAmend (Time : Type) (P : Commit -> Time -> Command -> Prop)
    (commits : list Commit) (newTimes : list Time) (trace : Trace) : Prop :=
  exists k,
    (k <= length commits)%nat /\ (k <= length newTimes)%nat
    /\ Forall2 (fun ct c => P (fst ct) (snd ct) c)
               (firstn k (combine commits newTimes)) (amendCommands trace).

(** *** Runs on scripted repositories

    The planned timestamps are given already formatted. *)

Definition regularCommit (hash author email : string) : Commit :=
  mkCommit hash "work" author email "2024-01-01 21:30:00 +0000" false EmptyString.

(** A repository on which every command succeeds. *)
Definition agreeableGit : Repository := fun _ _ => Success EmptyString.

(** A repository on which the commit [good1] applies, every other cherry-pick
    command fails, and [git status] reports the cherry-pick in progress. *)
Definition conflictingGit : Repository :=
  fun _ c =>
    if String.eqb (hd EmptyString (args c)) "cherry-pick" then
      if String.eqb (nth 1 (args c) EmptyString) "good1"
      then Success EmptyString else Failure
    else if String.eqb (hd EmptyString (args c)) "status"
         then Success "You are currently cherry-picking commit bad2."
         else Success EmptyString.

(** A repository on which every cherry-pick command fails and leaves nothing
    in progress. *)
Definition cleanTreeGit : Repository :=
  fun _ c =>
    if String.eqb (hd EmptyString (args c)) "cherry-pick" then Failure
    else if String.eqb (hd EmptyString (args c)) "status"
         then Success "nothing to commit, working tree clean"
         else Success EmptyString.

Definition conflictRun : Outcome * Trace :=
  UpdateCommitTimes conflictingGit string (fun t => t) "repo"
    [regularCommit "good1" "Ann" "ann@example.com";
     regularCommit "bad2" "Ann" "ann@example.com"]
    ["2024-01-01T09:00:00"; "2024-01-01T16:59:00"]%string
    "p0" "main" "rewrite-history" EmptyString EmptyString [].

Definition cleanTreeRun : Outcome * Trace :=
  UpdateCommitTimes cleanTreeGit string (fun t => t) "repo"
    [regularCommit "c1" "Ann" "ann@example.com"]
    ["2024-01-01T18:30:00"%string]
    emptyTreeHash "main" "rewrite-history" EmptyString EmptyString [].

(** The commit of Alice, rewritten by Bob without an author override. *)
Definition bob : Identity := mkIdentity "Bob" "bob@example.com".

Definition aliceRun : Outcome * Trace :=
  UpdateCommitTimes agreeableGit string (fun t => t) "repo"
    [regularCommit "a1" "Alice" "alice@example.com"]
    ["2024-01-01T18:30:00"%string]
    "p0" "main" "rewrite-history" EmptyString EmptyString [].

(** *** What a computation on the repository comes to

    [yields c Q]: from every trace, [c] returns a value and adds events to
    the trace, and [Q] holds of the value and of the events added. *)

Definition yields {A : Type} (c : X A) (Q : A -> list Event -> Prop) : Prop :=
  forall tr, exists a evs, c tr = (a, tr ++ evs) /\ Q a evs.

(** *** The commands of the executor

    A step of a rewrite: a command in the repository that is a checkout, a
    log, a merge, a cherry-pick or a status without additions to the
    environment, the amend, or the deletion of the rewrite branch. *)
Definition rewriteStep (repoPath rewriteBranchName : string) (e : Event) : Prop :=
  dir (command e) = repoPath
  /\ ((env (command e) = []
       /\ In (verb e) ["checkout"; "log"; "merge"; "cherry-pick"; "status"]%string)
      \/ args (command e) = ["commit"; "--amend"; "--no-edit"; "--reset-author"]%string
      \/ (env (command e) = []
          /\ args (command e) = ["branch"%string; "-D"%string; rewriteBranchName])).

(** A merge commit whose source is long enough to be abbreviated to eight
    bytes. *)
Definition abbreviable (commit : Commit) : Prop :=
  IsMerge commit = true -> 8 <= GoStrings.len (MergeFrom commit).

(** *** The commands of the readers

    The log of a range, and a command that only reads: [branch
    --show-current], [remote] without arguments, which lists the remotes, a
    [rev-parse] or a [log], in the repository and without additions to the
    environment. *)
Definition logOver (repoPath commitRange : string) : Command :=
  gitIn repoPath ["log"%string; "--first-parent"%string;
                  "--pretty=format:%h|%s|%an|%ae|%ad|%P"%string;
                  "--date=iso"%string; commitRange].

Definition readOnly (repoPath : string) (e : Event) : Prop :=
  dir (command e) = repoPath
  /\ env (command e) = []
  /\ (args (command e) = ["branch"; "--show-current"]%string
      \/ args (command e) = ["remote"]%string
      \/ In (verb e) ["rev-parse"; "log"]%string).

(** What the trace of [GetUnpushedCommits] looks like when it returns
    [err]: the command that failed is the last one. *)
Definition raisedBy (repoPath : string) (err : QueryError) (trace : Trace) : Prop :=
  match err with
  | GetCurrentBranchFailed =>
      trace = [failed (gitIn repoPath ["branch"; "--show-current"]%string)]
  | GetUnpushedCommitsFailed =>
      exists pre base currentBranch,
        trace = pre ++ [failed (logOver repoPath
                                  (String.append base
                                     (String.append ".." currentBranch)))]
  | _ => False
  end.

(** A repository on which every log fails and every other command prints
    [main]. *)
Definition logFailingGit : Repository :=
  fun _ c =>
    if String.eqb (hd EmptyString (args c)) "log" then Failure
    else Success "main
".

(** The author of an amended commit, by the override: the configured name
    and email where they are not empty, the user who runs the tool for the
    rest. *)
Definition overriddenAuthor (ambient : Identity)
    (newCommitAuthorName newCommitAuthorEmail : string) : Identity :=
  mkIdentity
    (if GoStrings.isEmpty newCommitAuthorName then userName ambient
     else newCommitAuthorName)
    (if GoStrings.isEmpty newCommitAuthorEmail then userEmail ambient
     else newCommitAuthorEmail).

(** *** The log and its commits *)

(** No byte of [s] satisfies [p]. *)
Fixpoint free (p : ascii -> bool) (s : string) : bool :=
  match s with
  | EmptyString => true
  | String c s' => negb (p c) && free p s'
  end.

(** A commit is marked as a merge exactly when it has a merge source, and
    the source is a word. *)
Definition sourcedMerge (commit : Commit) : Prop :=
  if IsMerge commit
  then MergeFrom commit <> EmptyString
       /\ free GoStrings.isSpace (MergeFrom commit) = true
  else MergeFrom commit = EmptyString.

(** The two lines of the parser's test: a regular commit and a merge. *)
Definition twoLineLog : string :=
  "abc123|Initial commit|John Doe|john@example.com|2024-01-01 10:00:00 +0000|
def456|Merge feature|Jane Doe|jane@example.com|2024-01-02 11:00:00 +0000|abc123 ghi789".

(** What [git log --pretty=format:%h|%s|%an|%ae|%ad|%P] prints: for every
    commit a line of its hash, subject, author name, author email, author
    date and parent hashes, the fields separated by bars, the parents by
    spaces, and a new line between two commits. *)
Record LogEntry : Type := mkLogEntry {
  entryHash : string;
  entrySubject : string;
  entryAuthor : string;
  entryEmail : string;
  entryDate : string;
  entryParents : list string
}.

Fixpoint joinWith (sep : ascii) (l : list string) : string :=
  match l with
  | [] => EmptyString
  | [x] => x
  | x :: rest => String.append x (String sep (joinWith sep rest))
  end.

Definition newline : ascii := ascii_of_nat 10.

Definition renderEntry (e : LogEntry) : string :=
  String.append (entryHash e) (String "|"
    (String.append (entrySubject e) (String "|"
      (String.append (entryAuthor e) (String "|"
        (String.append (entryEmail e) (String "|"
          (String.append (entryDate e) (String "|"
            (joinWith " " (entryParents e))))))))))).

Definition renderLog (entries : list LogEntry) : string :=
  joinWith newline (map renderEntry entries).

(** The commit of a log entry: a merge when it has two parents or more, the
    second being its source. *)
Definition commitOf (e : LogEntry) : Commit :=
  match entryParents e with
  | _ :: second :: _ =>
      mkCommit (entryHash e) (entrySubject e) (entryAuthor e) (entryEmail e)
        (entryDate e) true second
  | _ =>
      mkCommit (entryHash e) (entrySubject e) (entryAuthor e) (entryEmail e)
        (entryDate e) false EmptyString
  end.

(** A field holds neither a bar nor a new line; a hash is moreover free of
    white space, and a parent is a hash that is not empty. *)
Definition isBarOrNewline (c : ascii) : bool :=
  Ascii.eqb "|" c || Ascii.eqb newline c.

Definition isBarOrSpace (c : ascii) : bool :=
  Ascii.eqb "|" c || GoStrings.isSpace c.

Definition wellFormed (e : LogEntry) : Prop :=
  free isBarOrSpace (entryHash e) = true
  /\ free isBarOrNewline (entrySubject e) = true
  /\ free isBarOrNewline (entryAuthor e) = true
  /\ free isBarOrNewline (entryEmail e) = true
  /\ free isBarOrNewline (entryDate e) = true
  /\ Forall (fun parent => parent <> EmptyString
                           /\ free isBarOrSpace parent = true)
       (entryParents e).

(** Two entries: a merge of two parents on top of a root commit. *)
Definition mergeOnRoot : list LogEntry :=
  [mkLogEntry "def456" "Merge branch 'feature'" "Jane Doe" "jane@example.com"
     "2024-01-02 11:00:00 +0000" ["abc123"; "ghi789"]%string;
   mkLogEntry "abc123" "Initial commit" "John Doe" "john@example.com"
     "2024-01-01 10:00:00 +0000" []].

(** A repository whose branch [main] tracks [origin/main] and whose log
    prints [twoLineLog]. *)
Definition trackingGit : Repository :=
  fun _ c =>
    let v := hd EmptyString (args c) in
    if String.eqb v "log" then Success twoLineLog
    else if String.eqb v "branch" then Success "main
"
    else if String.eqb v "rev-parse" then Success "origin/main
"
    else Success EmptyString.

(** ** The days of a span *)

Import Span.

(** The weekdays of a set, from Sunday on. *)
Definition weekdaysIn (m : WeekdaySet) : list Weekday :=
  filter m [Sunday; Monday; Tuesday; Wednesday; Thursday; Friday; Saturday].

(** Midnight UTC of Monday 2024-01-01, and the day [k] days later. *)
Definition monday2024 : Time := 1704067200 * Second.

Definition daysLater (k : Z) (t : Time) : Time := t + k * (24 * Hour).

(** [x] is a whole number of days after [start]. *)
Definition wholeDaysAfter (start x : Time) : Prop :=
  exists k, 0 <= k /\ x = daysLater k start.

(** ** The plan of a span *)

(** The time of day of an instant in a location, and an instant at which
    work is planned: on a weekday that is not skipped, within the work
    hours. *)
Definition timeOfDay (loc : Location) (t : Time) : Duration :=
  (t + offset (loc (Unix t)) * Second) mod (24 * Hour).

Definition workingTime (cfg : Config) (skip : WeekdaySet) (loc : Location)
    (t : Time) : Prop :=
  skip (dayOfWeek loc t) = false
  /\ WorkDayStartHour cfg * Hour <= timeOfDay loc t < WorkDayEndHour cfg * Hour.

(** A local midnight. *)
Definition midnight (loc : Location) (d : Time) : Prop :=
  timeOfDay loc d = 0.

(** An instant in the work window of a day. *)
Definition inWorkHours (cfg : Config) (loc : Location) (day t : Time) : Prop :=
  workDayStart cfg loc day <= t < workDayEnd cfg loc day.

(** What [planSpan] is to deliver for the unpushed commits, newest first:
    no plan only when no day is eligible, never a mismatch, and otherwise
    every commit, oldest first, with one timestamp each. *)
Definition coversEveryCommit (days : list Time) (unpushedCommits : list Commit)
    (plan : SpanPlan) : Prop :=
  match plan with
  | NoEligibleDays => days = []
  | MismatchedAllocation => False
  | Planned allCommits allNewTimes =>
      allCommits = rev unpushedCommits
      /\ length allNewTimes = length allCommits
  end.

(** Three commits of Ann, newest first. *)
Definition threeCommits : list Commit :=
  [regularCommit "c3" "Ann" "ann@example.com";
   regularCommit "c2" "Ann" "ann@example.com";
   regularCommit "c1" "Ann" "ann@example.com"].

(** 16:59 on Monday 2024-01-01, Tuesday and Wednesday. *)
Definition threeEvenings : list Time :=
  [monday2024 + 16 * Hour + 59 * Minute;
   daysLater 1 monday2024 + 16 * Hour + 59 * Minute;
   daysLater 2 monday2024 + 16 * Hour + 59 * Minute].

(** ** The message of a merge *)

(** The message the executor gives the merge of [originalBranchName] into
    [branchName], and the bytes a branch name must not hold to be read back
    from it. *)
Definition customMergeMessage (originalBranchName branchName : string) : string :=
  String.append "Merge branch '"
    (String.append originalBranchName (String.append "' into " branchName)).

Definition isQuoteOrNewline (c : ascii) : bool :=
  Ascii.eqb "'" c || Ascii.eqb newline c.

(** ** The plan of a rewrite day by day *)

Import SameDay.

(** A commit whose date is parsed, and the day the grouping files it
    under. *)
Definition dated (Parse : string -> option (Time * Location))
    (commit : Commit) : Prop :=
  Parse (DateTime commit) <> None.

Definition dayOf (Parse : string -> option (Time * Location))
    (FormatDay : Time * Location -> string) (commit : Commit) : string :=
  match Parse (DateTime commit) with
  | Some commitTime => FormatDay commitTime
  | None => EmptyString
  end.

(** The days of the commits do not go back along the list. *)
Definition daysAscend (Parse : string -> option (Time * Location))
    (FormatDay : Time * Location -> string) (commits : list Commit) : Prop :=
  StronglySorted
    (fun a b => String.leb (dayOf Parse FormatDay a) (dayOf Parse FormatDay b)
                = true) commits.

(** A calendar for the examples: it parses the dates of 2024-01-01 and
    2024-01-02 that follow, in UTC, and tells nothing else. *)
Definition twoDayParse (s : string) : option (Time * Location) :=
  if String.eqb s "2024-01-01 21:30:00 +0000"
  then Some (monday2024 + 21 * Hour + 30 * Minute, UTC)
  else if String.eqb s "2024-01-02 08:15:00 +0000"
       then Some (daysLater 1 monday2024 + 8 * Hour + 15 * Minute, UTC)
       else None.

Definition twoDayFormat (t : Time * Location) : string :=
  if fst t <? daysLater 1 monday2024 then "2024-01-01" else "2024-01-02".

Definition noClock (k : nat) : Time * Location := (0, UTC).

(** Two commits, newest first, in the order of their dates and against
    it. *)
Definition commitOn (hash date : string) : Commit :=
  mkCommit hash "work" "Ann" "ann@example.com" date false EmptyString.

Definition datesInOrder : list Commit :=
  [commitOn "c2" "2024-01-02 08:15:00 +0000";
   commitOn "c1" "2024-01-01 21:30:00 +0000"].

Definition datesOutOfOrder : list Commit :=
  [commitOn "c2" "2024-01-01 21:30:00 +0000";
   commitOn "c1" "2024-01-02 08:15:00 +0000"].

(** ** The order of a replay *)

(** A command that replays [commit]: for a merge commit the reading of its
    message and the merge of its recorded source, under a message that names
    a branch; for a regular commit its cherry-pick and the commands of the
    recovery. *)
Definition replaysCommit (repoPath branchName : string) (commit : Commit)
    (e : Event) : Prop :=
  if IsMerge commit
  then command e = gitIn repoPath ["log"%string; "--format=%B"%string;
                                   "-n"%string; "1"%string; Hash commit]
       \/ exists name,
            command e = gitIn repoPath
                          ["merge"%string; "-m"%string;
                           customMergeMessage name branchName;
                           MergeFrom commit]
  else In (command e)
         (map (gitIn repoPath)
            [["cherry-pick"%string; Hash commit];
             ["status"%string];
             ["cherry-pick"; "--continue"]%string;
             ["cherry-pick"; "--skip"]%string;
             ["cherry-pick"; "--abort"]%string;
             ["cherry-pick"%string; "--allow-empty"%string; Hash commit]]).

(** The events of a commit: those that replay it, then its amend if it was
    replayed. *)
Definition blockOf (repoPath branchName : string) (commit : Commit)
    (block : list Event) : Prop :=
  exists replaying amends,
    block = replaying ++ amends
    /\ Forall (replaysCommit repoPath branchName commit) replaying
    /\ Forall (fun e => isAmend e = true) amends
    /\ (length amends <= 1)%nat.

(** Events that replay the first commits of a list one after the other, in
    the order of the list. *)
Definition replayedInOrder (repoPath branchName : string)
    (commits : list Commit) (evs : list Event) : Prop :=
  exists k blocks,
    (k <= length commits)%nat
    /\ evs = concat blocks
    /\ Forall2 (blockOf repoPath branchName) (firstn k commits) blocks.

(** The commands before the replay, the checkout of the parent commit and
    the creation of the rewrite branch, and those after it, the swap of the
    branches. *)
Definition beforeReplay (e : Event) : Prop :=
  verb e = "checkout"%string.

Definition afterReplay (e : Event) : Prop :=
  verb e = "checkout"%string \/ verb e = "branch"%string.

(** * Properties *)

(** ** The embedding on the repository's tests *)

(** The table of [TestAllocateAcrossDays] (day jitter disabled). *)
Example allocateAcrossDays_test_table :
  forall src,
    allocateAcrossDays testConfig 0 3 src = Some ([0; 0; 0], src)
    /\ allocateAcrossDays testConfig 5 0 src = Some ([], src)
    /\ allocateAcrossDays testConfig 1 1 src = Some ([1], src)
    /\ allocateAcrossDays testConfig 1 3 src = Some ([0; 0; 1], src)
    /\ allocateAcrossDays testConfig 8 3 src = Some ([1; 6; 1], src)
    /\ allocateAcrossDays testConfig 10 3 src = Some ([1; 8; 1], src)
    /\ allocateAcrossDays testConfig 2 5 src = Some ([1; 0; 0; 0; 1], src)
    /\ allocateAcrossDays testConfig 5 1 src = Some ([5], src)
    /\ allocateAcrossDays testConfig 3 7 src = Some ([1; 1; 0; 0; 0; 0; 1], src).
Proof. intros src. repeat split. Qed.

(** With day jitter the middle commits follow the random source. *)
Example allocateAcrossDays_with_jitter :
  option_map fst (allocateAcrossDays defaultConfig 5 7 (fun k => Z.of_nat k + 3))
  = Some [1; 1; 0; 0; 1; 1; 1].
Proof. reflexivity. Qed.

(** [TestGenerateCommitTimesForDay]: no commits, no times; a single commit
    drawn 25 minutes before the end of the 9 to 17 window. *)
Example generateCommitTimesForDay_tests :
  option_map fst (generateCommitTimesForDay testConfig UTC 0 0 (Rand.const 0))
  = Some []
  /\ option_map fst (generateCommitTimesForDay testConfig UTC 0 1 (Rand.const 25))
     = Some [16 * Hour + 35 * Minute].
Proof. split; reflexivity. Qed.

(** The table of [TestExtractBranchNameFromMergeMessage]. *)
Example extractBranchNameFromMergeMessage_test_table :
  extractBranchNameFromMergeMessage "Merge branch 'feature-branch' into main"
  = "feature-branch"%string
  /\ extractBranchNameFromMergeMessage "Merge branch feature-branch into main"
     = "feature-branch"%string
  /\ extractBranchNameFromMergeMessage "Merge commit abc123 into main"
     = EmptyString
  /\ extractBranchNameFromMergeMessage EmptyString = EmptyString
  /\ extractBranchNameFromMergeMessage "Regular commit message" = EmptyString
  /\ extractBranchNameFromMergeMessage
       (String.append "Merge branch 'feature' into main"
          (String (ascii_of_nat 10) (String (ascii_of_nat 10)
             "This is a merge commit")))
     = "feature"%string.
Proof. repeat split. Qed.

(** The commands of the two scripted runs that end in a fatal cherry-pick,
    each with whether it succeeded. *)
Example conflictRun_commands :
  map (fun e => (args (command e), succeeded e)) (snd conflictRun)
  = [(["checkout"; "p0"], true);
     (["checkout"; "-b"; "rewrite-history"], true);
     (["cherry-pick"; "good1"], true);
     (["commit"; "--amend"; "--no-edit"; "--reset-author"], true);
     (["cherry-pick"; "bad2"], false);
     (["status"], true);
     (["cherry-pick"; "--continue"], false);
     (["cherry-pick"; "--skip"], false);
     (["cherry-pick"; "--abort"], false);
     (["cherry-pick"; "--allow-empty"; "bad2"], false)]%string.
Proof. reflexivity. Qed.

Example cleanTreeRun_commands :
  map (fun e => (args (command e), succeeded e)) (snd cleanTreeRun)
  = [(["checkout"; "-b"; "rewrite-history"], true);
     (["cherry-pick"; "c1"], false);
     (["status"], true);
     (["cherry-pick"; "--allow-empty"; "c1"], false)]%string.
Proof. reflexivity. Qed.

(** The amend of the run on Alice's commit: its flags and its environment. *)
Example aliceRun_amend :
  amendCommands (snd aliceRun)
  = [mkCommand "repo" ["commit"; "--amend"; "--no-edit"; "--reset-author"]
       ["GIT_AUTHOR_DATE=2024-01-01T18:30:00";
        "GIT_COMMITTER_DATE=2024-01-01T18:30:00"]]%string.
Proof. reflexivity. Qed.

(** ** Integer facts *)

Lemma wrap_in_range (x : Z) :
  GoInt.min_int <= x <= GoInt.max_int -> GoInt.wrap x = x.
Proof.
  unfold GoInt.wrap, GoInt.min_int, GoInt.max_int. intros H.
  rewrite Z.mod_small by lia. lia.
Qed.

Lemma deterministic_offset_exact (i availableDays : Z) :
  0 <= i < 2 ^ 31 -> 0 < availableDays ->
  GoInt.rem (GoInt.add (GoInt.mul i 7) (GoInt.mul i i)) availableDays
  = (i * 7 + i * i) mod availableDays.
Proof.
  intros Hi Ha. unfold GoInt.rem, GoInt.add, GoInt.mul.
  assert (Hsq : 0 <= i * i <= (2 ^ 31 - 1) * (2 ^ 31 - 1)) by nia.
  rewrite (wrap_in_range (i * 7)) by (unfold GoInt.min_int, GoInt.max_int; lia).
  rewrite (wrap_in_range (i * i)) by (unfold GoInt.min_int, GoInt.max_int; lia).
  rewrite wrap_in_range by (unfold GoInt.min_int, GoInt.max_int; lia).
  apply Z.rem_mod_nonneg; lia.
Qed.

(** ** Slice facts *)

Section SliceFacts.

Lemma length_update {A} (s : list A) k v :
  length (Slice.update s k v) = length s.
Proof.
  revert k; induction s as [|x s IH]; intros [|k]; simpl; auto.
Qed.

Lemma nth_error_update_eq {A} (s : list A) k v :
  (k < length s)%nat -> nth_error (Slice.update s k v) k = Some v.
Proof.
  revert k; induction s as [|x s IH]; intros [|k] H; simpl in *;
    try lia; auto. apply IH; lia.
Qed.

Lemma nth_error_update_ne {A} (s : list A) k j v :
  j <> k -> nth_error (Slice.update s k v) j = nth_error s j.
Proof.
  revert k j; induction s as [|x s IH]; intros [|k] [|j] H; simpl;
    try congruence; auto.
Qed.

Lemma sum_update (s : list Z) k x v :
  nth_error s k = Some x ->
  Slice.sum (Slice.update s k v) = Slice.sum s - x + v.
Proof.
  revert k; induction s as [|y s IH]; intros [|k] H; simpl in *;
    try discriminate.
  - inversion H; subst; lia.
  - rewrite (IH _ H); lia.
Qed.

Lemma inRange_spec {A} (s : list A) k :
  Slice.inRange s k = true <-> 0 <= k < Z.of_nat (length s).
Proof.
  unfold Slice.inRange. rewrite andb_true_iff, Z.leb_le, Z.ltb_lt. tauto.
Qed.

Lemma load_in_range (s : list Z) k :
  0 <= k < Z.of_nat (length s) -> exists v, Slice.load s k = Some v.
Proof.
  intros H. unfold Slice.load.
  rewrite (proj2 (inRange_spec s k) H).
  destruct (nth_error s (Z.to_nat k)) eqn:E; eauto.
  apply nth_error_None in E. lia.
Qed.

(** What a store does to the length, the sum and every entry. *)
Lemma store_spec (s : list Z) k v :
  0 <= k < Z.of_nat (length s) ->
  exists s', Slice.store s k v = Some s'
    /\ length s' = length s
    /\ Slice.sum s' = Slice.sum s - Slice.at0 s k + v
    /\ forall j, Slice.at0 s' j = if j =? k then v else Slice.at0 s j.
Proof.
  intros H. destruct (load_in_range s k H) as [x Hx].
  unfold Slice.store. rewrite (proj2 (inRange_spec s k) H).
  eexists; split; [reflexivity|]. split; [apply length_update|]. split.
  - unfold Slice.at0. rewrite Hx. unfold Slice.load in Hx.
    rewrite (proj2 (inRange_spec s k) H) in Hx. now apply sum_update.
  - intros j. unfold Slice.at0, Slice.load, Slice.inRange.
    rewrite length_update.
    destruct (Z.eqb_spec j k) as [->|Hne].
    + fold (Slice.inRange s k). rewrite (proj2 (inRange_spec s k) H).
      rewrite nth_error_update_eq by lia. reflexivity.
    + destruct ((0 <=? j) && (j <? Z.of_nat (length s))) eqn:E; auto.
      apply andb_true_iff in E. destruct E as [E1 E2].
      apply Z.leb_le in E1. rewrite nth_error_update_ne by lia. reflexivity.
Qed.

(** What an increment does to the length, the sum and every entry. *)
Lemma incr_spec (s : list Z) k :
  0 <= k < Z.of_nat (length s) ->
  exists s', Slice.incr s k = Some s'
    /\ length s' = length s
    /\ Slice.sum s' = Slice.sum s + 1
    /\ forall j, Slice.at0 s' j = Slice.at0 s j + (if j =? k then 1 else 0).
Proof.
  intros H. destruct (load_in_range s k H) as [x Hx].
  destruct (store_spec s k (x + 1) H) as (s' & Hs & Hl & Hsum & Hat).
  unfold Slice.incr. rewrite Hx. exists s'. repeat split; auto.
  - rewrite Hsum. unfold Slice.at0. rewrite Hx. lia.
  - intros j. rewrite Hat. destruct (Z.eqb_spec j k) as [->|Hne]; [|lia].
    unfold Slice.at0. rewrite Hx. lia.
Qed.

Lemma incr_some (s s' : list Z) k :
  Slice.incr s k = Some s' -> 0 <= k < Z.of_nat (length s).
Proof.
  unfold Slice.incr, Slice.load. destruct (Slice.inRange s k) eqn:E.
  - intros _. now apply inRange_spec.
  - discriminate.
Qed.

Lemma length_make (m : Z) : 0 <= m -> Z.of_nat (length (Slice.make m)) = m.
Proof. intros H. unfold Slice.make. rewrite repeat_length. lia. Qed.

Lemma sum_repeat_zero (k : nat) : Slice.sum (repeat 0 k) = 0.
Proof. induction k; simpl; auto. Qed.

Lemma at0_repeat_zero (k : nat) j : Slice.at0 (repeat 0 k) j = 0.
Proof.
  unfold Slice.at0, Slice.load.
  destruct (Slice.inRange (repeat 0 k) j); auto.
  destruct (nth_error (repeat 0 k) (Z.to_nat j)) eqn:E; auto.
  apply nth_error_In, repeat_spec in E. auto.
Qed.

End SliceFacts.

(** ** The Day Allocation Distributor *)

Import Cadence.

Section Distributor.

Variable cfg : Config.

Lemma dayOffsetOf_range availableDays i src :
  0 < availableDays ->
  (JitterDays cfg = false -> 0 <= i < 2 ^ 31) ->
  exists d src', dayOffsetOf cfg availableDays i src = Some (d, src')
    /\ 0 <= d < availableDays
    /\ (JitterDays cfg = false ->
        src' = src /\ 1 + d = interiorDay availableDays i).
Proof.
  intros Ha Hi. unfold dayOffsetOf, interiorDay.
  destruct (JitterDays cfg).
  - unfold Rand.Intn. destruct (Z.leb_spec availableDays 0); [lia|].
    do 2 eexists; split; [reflexivity|]. split; [|discriminate].
    apply Z.mod_pos_bound; lia.
  - unfold ret. rewrite deterministic_offset_exact by auto.
    do 2 eexists; split; [reflexivity|]. split; [|auto].
    apply Z.mod_pos_bound; lia.
Qed.

Lemma placedOn_step availableDays first count k :
  placedOn availableDays first (S count) k
  = (if k =? interiorDay availableDays (Z.of_nat first) then 1 else 0)
    + placedOn availableDays (S first) count k.
Proof.
  unfold placedOn. simpl seq. simpl filter.
  rewrite (Z.eqb_sym k).
  destruct (interiorDay availableDays (Z.of_nat first) =? k); simpl length; lia.
Qed.

(** The loop over the middle commits when interior days exist. *)
Lemma spreadMiddle_spec availableDays fuel :
  forall (i : nat) out src,
    0 < availableDays ->
    Z.of_nat (length out) = availableDays + 2 ->
    (JitterDays cfg = false -> Z.of_nat i + Z.of_nat fuel <= 2 ^ 31) ->
    exists out' src',
      spreadMiddle cfg availableDays fuel (Z.of_nat i) out src = Some (out', src')
      /\ length out' = length out
      /\ Slice.sum out' = Slice.sum out + Z.of_nat fuel
      /\ Slice.at0 out' 0 = Slice.at0 out 0
      /\ Slice.at0 out' (availableDays + 1) = Slice.at0 out (availableDays + 1)
      /\ (JitterDays cfg = false ->
          src' = src
          /\ forall k, Slice.at0 out' k
                       = Slice.at0 out k + placedOn availableDays i fuel k).
Proof.
  induction fuel as [|fuel IH]; intros i out src Ha Hlen Hb.
  - simpl. unfold ret. do 2 eexists. split; [reflexivity|].
    repeat split; try lia. intros k. unfold placedOn. simpl. lia.
  - destruct (dayOffsetOf_range availableDays (Z.of_nat i) src Ha)
      as (d & src1 & Hd & Hr & Hdet); [intros Hj; specialize (Hb Hj); lia|].
    destruct (incr_spec out (1 + d)) as (out1 & Hi1 & Hl1 & Hs1 & Hat1); [lia|].
    destruct (IH (S i) out1 src1 Ha) as (out' & src' & Hrun & Hl & Hs & H0 & Hm & Hk);
      [lia | intros Hj; specialize (Hb Hj); lia |].
    exists out', src'. split.
    { cbn [spreadMiddle]. unfold bind at 1. rewrite Hd. cbn beta iota zeta.
      unfold bind at 1, lift at 1. rewrite Hi1.
      replace (Z.of_nat i + 1) with (Z.of_nat (S i)) by lia. exact Hrun. }
    split; [lia|]. split; [lia|]. split.
    { rewrite H0, Hat1. destruct (Z.eqb_spec 0 (1 + d)); lia. }
    split.
    { rewrite Hm, Hat1. destruct (Z.eqb_spec (availableDays + 1) (1 + d)); lia. }
    intros Hj. destruct (Hdet Hj) as [-> Hday]. destruct (Hk Hj) as [-> Hall].
    split; [reflexivity|]. intros k.
    rewrite Hall, Hat1, placedOn_step, <- Hday. lia.
Qed.

(** Whatever the loop over the middle commits returns, without any bound on
    the number of commits: one more commit per iteration, and no count goes
    down. *)
Lemma spreadMiddle_sound availableDays fuel :
  forall i out src out' src',
    spreadMiddle cfg availableDays fuel i out src = Some (out', src') ->
    length out' = length out
    /\ Slice.sum out' = Slice.sum out + Z.of_nat fuel
    /\ forall k, Slice.at0 out k <= Slice.at0 out' k.
Proof.
  induction fuel as [|fuel IH]; intros i out src out' src' Hrun.
  - simpl in Hrun. unfold ret in Hrun. inversion Hrun; subst.
    repeat split; try lia.
  - cbn [spreadMiddle] in Hrun. unfold bind at 1 in Hrun.
    destruct (dayOffsetOf cfg availableDays i src) as [[d src1]|]; [|discriminate].
    cbn beta iota zeta in Hrun. unfold bind at 1, lift at 1 in Hrun.
    destruct (Slice.incr out (1 + d)) as [out1|] eqn:Ei; [|discriminate].
    destruct (incr_spec out (1 + d) (incr_some _ _ _ Ei))
      as (out1' & Ei' & Hl1 & Hs1 & Hat1).
    rewrite Ei in Ei'. inversion Ei'; subst out1'.
    destruct (IH _ _ _ _ _ Hrun) as (Hl & Hs & Hmono).
    split; [lia|]. split; [lia|]. intros k.
    specialize (Hmono k). rewrite Hat1 in Hmono.
    destruct (k =? 1 + d); lia.
Qed.

(** The loop over the middle commits when there are only two days. *)
Lemma alternateEnds_spec fuel :
  forall i out src,
    Z.of_nat (length out) = 2 ->
    exists out',
      alternateEnds 2 fuel i out src = Some (out', src)
      /\ length out' = length out
      /\ Slice.sum out' = Slice.sum out + Z.of_nat fuel
      /\ Slice.at0 out 0 <= Slice.at0 out' 0
      /\ Slice.at0 out 1 <= Slice.at0 out' 1.
Proof.
  induction fuel as [|fuel IH]; intros i out src Hlen.
  - simpl. unfold ret. eexists. split; [reflexivity|]. repeat split; lia.
  - assert (Hstep : exists out1 k, (if GoInt.rem i 2 =? 0 then Slice.incr out 0
                                    else Slice.incr out (2 - 1)) = Some out1
              /\ length out1 = length out
              /\ Slice.sum out1 = Slice.sum out + 1
              /\ forall j, Slice.at0 out1 j
                           = Slice.at0 out j + (if j =? k then 1 else 0)).
    { destruct (GoInt.rem i 2 =? 0).
      - destruct (incr_spec out 0) as (o & ? & ? & ? & ?); [lia|]. exists o, 0. auto.
      - destruct (incr_spec out (2 - 1)) as (o & ? & ? & ? & ?); [lia|].
        exists o, (2 - 1). auto. }
    destruct Hstep as (out1 & k & Hi1 & Hl1 & Hs1 & Hat1).
    destruct (IH (i + 1) out1 src) as (out' & Hrun & Hl & Hs & H0 & H1); [lia|].
    exists out'. split.
    { cbn [alternateEnds]. unfold bind at 1, lift at 1. rewrite Hi1.
      exact Hrun. }
    split; [lia|]. split; [lia|].
    pose proof (Hat1 0) as A0. pose proof (Hat1 1) as A1.
    destruct (0 =? k), (1 =? k); lia.
Qed.

Lemma update_last_of_zeros (k : nat) (v : Z) :
  Slice.update (repeat 0 (S k)) k v = repeat 0 k ++ [v].
Proof. induction k as [|k IH]; simpl in *; [reflexivity | now rewrite IH]. Qed.

End Distributor.

Section DistributorTheorems.

Variable cfg : Config.

(** The first and the last commit are put on the first and the last day. *)
Lemma bookends (m : Z) :
  2 <= m ->
  exists out1 out2,
    Slice.store (Slice.make m) 0 1 = Some out1
    /\ Slice.store out1 (m - 1) 1 = Some out2
    /\ Z.of_nat (length out2) = m
    /\ Slice.sum out2 = 2
    /\ forall k, Slice.at0 out2 k
                 = (if k =? 0 then 1 else 0) + (if k =? m - 1 then 1 else 0).
Proof.
  intros Hm. pose proof (length_make m ltac:(lia)) as Hlen.
  destruct (store_spec (Slice.make m) 0 1) as (out1 & H1 & L1 & S1 & A1); [lia|].
  destruct (store_spec out1 (m - 1) 1) as (out2 & H2 & L2 & S2 & A2); [lia|].
  exists out1, out2. split; [exact H1|]. split; [exact H2|].
  split; [lia|]. split.
  - rewrite S2, A1, S1. unfold Slice.make at 1 2.
    rewrite sum_repeat_zero, at0_repeat_zero.
    destruct (Z.eqb_spec (m - 1) 0); [lia|].
    unfold Slice.make. rewrite at0_repeat_zero. lia.
  - intros k. rewrite A2, A1. unfold Slice.make. rewrite at0_repeat_zero.
    destruct (Z.eqb_spec k (m - 1)), (Z.eqb_spec k 0); lia.
Qed.

(** What [allocateAcrossDays] computes in the general case, [n > 2] commits
    over [m > 2] days. *)
Lemma allocate_general (n m : Z) src :
  2 < n -> 2 < m -> (JitterDays cfg = false -> n < 2 ^ 31) ->
  exists out src',
    allocateAcrossDays cfg n m src = Some (out, src')
    /\ Z.of_nat (length out) = m
    /\ Slice.sum out = n
    /\ Slice.at0 out 0 = 1
    /\ Slice.at0 out (m - 1) = 1
    /\ (JitterDays cfg = false ->
        src' = src
        /\ forall k, Slice.at0 out k
                     = (if k =? 0 then 1 else 0) + (if k =? m - 1 then 1 else 0)
                       + placedOn (m - 2) 0 (Z.to_nat (n - 2)) k).
Proof.
  intros Hn Hm Hb.
  destruct (bookends m ltac:(lia)) as (out1 & out2 & H1 & H2 & L2 & S2 & A2).
  destruct (spreadMiddle_spec cfg (m - 2) (Z.to_nat (n - 2)) 0 out2 src)
    as (out & src' & Hrun & L & S & B0 & B1 & Hdet);
    [lia | lia | intros Hj; specialize (Hb Hj); lia |].
  exists out, src'. split.
  { unfold allocateAcrossDays.
    destruct (Z.leb_spec m 0); [lia|]. destruct (Z.leb_spec n 0); [lia|].
    destruct (Z.eqb_spec n 1); [lia|]. destruct (Z.eqb_spec m 1); [lia|].
    unfold bind at 1, lift at 1. rewrite H1.
    unfold bind at 1, lift at 1. rewrite H2.
    destruct (Z.ltb_spec 2 n); [|lia]. cbn zeta.
    destruct (Z.ltb_spec 0 (m - 2)); [|lia]. exact Hrun. }
  split; [lia|]. split; [lia|]. split.
  { rewrite B0, A2. destruct (Z.eqb_spec 0 (m - 1)); [lia|]. reflexivity. }
  split.
  { replace (m - 2 + 1) with (m - 1) in B1 by lia. rewrite B1, A2.
    rewrite Z.eqb_refl. destruct (Z.eqb_spec (m - 1) 0); [lia|]. reflexivity. }
  intros Hj. destruct (Hdet Hj) as [-> Hall]. split; [reflexivity|].
  intros k. rewrite Hall, A2. reflexivity.
Qed.

(** [allocateAcrossDays] returns, and what it returns is a distribution.  The
    bound is only needed where the deterministic formula is evaluated. *)
Lemma allocate_total (n m : Z) (src : Rand.Source) :
  0 <= n -> 1 <= m -> (JitterDays cfg = false -> 2 < m -> n < 2 ^ 31) ->
  exists out src',
    allocateAcrossDays cfg n m src = Some (out, src') /\ distributes n m out.
Proof.
  intros Hn Hm Hb. unfold distributes.
  pose proof (length_make m ltac:(lia)) as Hlen.
  destruct (Z.eq_dec n 0) as [->|Hn0].
  { exists (Slice.make m), src. unfold allocateAcrossDays.
    destruct (Z.leb_spec m 0); [lia|]. simpl. split; [reflexivity|].
    split; [exact Hlen|]. split; [apply sum_repeat_zero | lia]. }
  destruct (Z.eq_dec n 1) as [->|Hn1].
  { destruct (store_spec (Slice.make m) (m - 1) 1) as (out & H1 & L1 & S1 & A1); [lia|].
    exists out, src. unfold allocateAcrossDays.
    destruct (Z.leb_spec m 0); [lia|]. simpl. unfold lift. rewrite H1.
    split; [reflexivity|]. split; [lia|]. split; [|lia].
    rewrite S1. unfold Slice.make. rewrite sum_repeat_zero, at0_repeat_zero. lia. }
  destruct (Z.eq_dec m 1) as [->|Hm1].
  { destruct (store_spec (Slice.make 1) 0 n) as (out & H1 & L1 & S1 & A1); [lia|].
    exists out, src. unfold allocateAcrossDays. simpl Z.leb. cbn iota zeta.
    destruct (Z.leb_spec n 0); [lia|]. destruct (Z.eqb_spec n 1); [lia|].
    simpl Z.eqb. cbn iota. unfold lift. rewrite H1.
    split; [reflexivity|]. split; [lia|]. split; [|lia].
    rewrite S1. unfold Slice.make. rewrite sum_repeat_zero, at0_repeat_zero. lia. }
  destruct (bookends m ltac:(lia)) as (out1 & out2 & H1 & H2 & L2 & S2 & A2).
  assert (Hpre : allocateAcrossDays cfg n m src
                 = (if 2 <? n then
                      if 0 <? m - 2
                      then spreadMiddle cfg (m - 2) (Z.to_nat (n - 2)) 0 out2
                      else alternateEnds m (Z.to_nat (n - 2)) 0 out2
                    else ret out2) src).
  { unfold allocateAcrossDays.
    destruct (Z.leb_spec m 0); [lia|]. destruct (Z.leb_spec n 0); [lia|].
    destruct (Z.eqb_spec n 1); [lia|]. destruct (Z.eqb_spec m 1); [lia|].
    unfold bind at 1, lift at 1. rewrite H1.
    unfold bind at 1, lift at 1. rewrite H2. reflexivity. }
  destruct (Z.ltb_spec 2 n) as [Hgt|Hle].
  - destruct (Z.ltb_spec 0 (m - 2)) as [Hav|Hno].
    + destruct (allocate_general n m src) as (out & src' & Hrun & L & S & B0 & B1 & _);
        [lia | lia | intros Hj; apply Hb; [exact Hj | lia] |].
      exists out, src'. split; [exact Hrun|]. split; [exact L|].
      split; [exact S|]. intros _ _. rewrite B0, B1. lia.
    + assert (Hm2 : m = 2) by lia. rewrite Hm2 in Hpre, A2, L2 |- *.
      destruct (alternateEnds_spec (Z.to_nat (n - 2)) 0 out2 src)
        as (out & Hrun & L & S & B0 & B1); [lia|].
      exists out, src. split; [rewrite Hpre; exact Hrun|].
      split; [lia|]. split; [lia|]. intros _ _.
      pose proof (A2 0) as E0. pose proof (A2 1) as E1. simpl in E0, E1.
      simpl (2 - 1). lia.
  - assert (n = 2) by lia. subst n.
    exists out2, src. split; [rewrite Hpre; reflexivity|].
    split; [exact L2|]. split; [exact S2|]. intros _ _.
    split; rewrite A2.
    + destruct (Z.eqb_spec 0 0), (Z.eqb_spec 0 (m - 1)); lia.
    + destruct (Z.eqb_spec (m - 1) 0), (Z.eqb_spec (m - 1) (m - 1)); lia.
Qed.

(** Whatever [allocateAcrossDays] returns in the general case is a
    distribution, without any bound on the number of commits. *)
Lemma allocate_general_sound (n m : Z) src out src' :
  2 < n -> 2 < m ->
  allocateAcrossDays cfg n m src = Some (out, src') ->
  distributes n m out.
Proof.
  intros Hn Hm Hrun.
  destruct (bookends m ltac:(lia)) as (out1 & out2 & H1 & H2 & L2 & S2 & A2).
  unfold allocateAcrossDays in Hrun.
  destruct (Z.leb_spec m 0); [lia|]. destruct (Z.leb_spec n 0); [lia|].
  destruct (Z.eqb_spec n 1); [lia|]. destruct (Z.eqb_spec m 1); [lia|].
  unfold bind at 1, lift at 1 in Hrun. rewrite H1 in Hrun.
  unfold bind at 1, lift at 1 in Hrun. rewrite H2 in Hrun.
  destruct (Z.ltb_spec 2 n); [|lia]. cbn zeta in Hrun.
  destruct (Z.ltb_spec 0 (m - 2)); [|lia].
  destruct (spreadMiddle_sound cfg _ _ _ _ _ _ _ Hrun) as (L & S & Hmono).
  unfold distributes. split; [lia|]. split; [lia|]. intros _ _.
  pose proof (Hmono 0) as M0. pose proof (Hmono (m - 1)) as M1.
  rewrite A2 in M0, M1. rewrite Z.eqb_refl in M1.
  destruct (Z.eqb_spec 0 0), (Z.eqb_spec 0 (m - 1)), (Z.eqb_spec (m - 1) 0); lia.
Qed.

(** C5.  For every non-negative [n] and every non-empty list of [m] days,
    in the jittered and in the deterministic mode, the counts that
    [allocateAcrossDays] returns sum exactly to [n]; when [n > 1] and
    [m > 1] the first and the last count are non-zero.  The call does return:
    in the jittered mode always, in the deterministic mode for every commit
    count below [2^31], the range in which the 64-bit products [i*7] and
    [i*i] of the formula are exact. *)
Theorem allocation_sums_to_n_with_bookends (n m : Z) (src : Rand.Source) :
  0 <= n -> 1 <= m ->
  (forall out src',
      allocateAcrossDays cfg n m src = Some (out, src') -> distributes n m out)
  /\ ((JitterDays cfg = false -> 2 < m -> n < 2 ^ 31) ->
      exists out src', allocateAcrossDays cfg n m src = Some (out, src')).
Proof.
  intros Hn Hm. split.
  - intros out src' Hrun.
    destruct (Z_lt_le_dec 2 n) as [Hn2|Hn2], (Z_lt_le_dec 2 m) as [Hm2|Hm2].
    + eapply allocate_general_sound; eassumption.
    + destruct (allocate_total n m src Hn Hm) as (o & s' & Ho & Hd); [intros; lia|].
      rewrite Hrun in Ho. inversion Ho; subst. exact Hd.
    + destruct (allocate_total n m src Hn Hm) as (o & s' & Ho & Hd); [intros; lia|].
      rewrite Hrun in Ho. inversion Ho; subst. exact Hd.
    + destruct (allocate_total n m src Hn Hm) as (o & s' & Ho & Hd); [intros; lia|].
      rewrite Hrun in Ho. inversion Ho; subst. exact Hd.
  - intros Hb.
    destruct (allocate_total n m src Hn Hm Hb) as (o & s' & Ho & _). eauto.
Qed.

End DistributorTheorems.

Lemma allocation_sums_to_n_with_bookends_witness :
  0 <= 7 /\ 1 <= 3
  /\ (forall out src',
        allocateAcrossDays testConfig 7 3 (Rand.const 0) = Some (out, src') ->
        distributes 7 3 out)
  /\ ((JitterDays testConfig = false -> 2 < 3 -> 7 < 2 ^ 31) ->
      exists out src',
        allocateAcrossDays testConfig 7 3 (Rand.const 0) = Some (out, src')).
Proof.
  split; [lia|]. split; [lia|].
  apply (allocation_sums_to_n_with_bookends testConfig 7 3 (Rand.const 0)); lia.
Defined.

(** C6.  With day jitter disabled, [allocateAcrossDays] puts one commit on the
    first day, one on the last, and middle commit [i] on interior day
    [1 + (i*7 + i*i) mod availableInteriorDays]: the count of day [k] is the
    number of middle commits the formula sends there (plus the bookend).  It
    returns [1,4,1] for 6 commits over 3 days, [1,5,1] for 7 over 3,
    [1,13,0,1] for 15 over 4 and [3,2] for 5 over 2. *)
Theorem deterministic_spread_formula (cfg : Config) (n m : Z) (src : Rand.Source) :
  JitterDays cfg = false -> 2 < n < 2 ^ 31 -> 2 < m ->
  (exists out,
      allocateAcrossDays cfg n m src = Some (out, src)
      /\ Z.of_nat (length out) = m
      /\ forall k, Slice.at0 out k
                   = (if k =? 0 then 1 else 0) + (if k =? m - 1 then 1 else 0)
                     + placedOn (m - 2) 0 (Z.to_nat (n - 2)) k)
  /\ allocateAcrossDays cfg 6 3 src = Some ([1; 4; 1], src)
  /\ allocateAcrossDays cfg 7 3 src = Some ([1; 5; 1], src)
  /\ allocateAcrossDays cfg 15 4 src = Some ([1; 13; 0; 1], src)
  /\ allocateAcrossDays cfg 5 2 src = Some ([3; 2], src).
Proof.
  intros Hdet Hn Hm. split.
  - destruct (allocate_general cfg n m src) as (out & src' & Hrun & L & _ & _ & _ & Hk);
      [lia | lia | intros _; lia |].
    destruct (Hk Hdet) as [-> Hall]. exists out. auto.
  - destruct cfg as [sh eh jm jd]. simpl in Hdet. subst jd.
    repeat split; reflexivity.
Qed.

Lemma deterministic_spread_formula_witness :
  JitterDays testConfig = false /\ 2 < 15 < 2 ^ 31 /\ 2 < 4
  /\ (exists out,
         allocateAcrossDays testConfig 15 4 (Rand.const 0) = Some (out, Rand.const 0)
         /\ Z.of_nat (length out) = 4
         /\ forall k, Slice.at0 out k
                      = (if k =? 0 then 1 else 0) + (if k =? 4 - 1 then 1 else 0)
                        + placedOn (4 - 2) 0 (Z.to_nat (15 - 2)) k)
  /\ allocateAcrossDays testConfig 6 3 (Rand.const 0) = Some ([1; 4; 1], Rand.const 0)
  /\ allocateAcrossDays testConfig 7 3 (Rand.const 0) = Some ([1; 5; 1], Rand.const 0)
  /\ allocateAcrossDays testConfig 15 4 (Rand.const 0) = Some ([1; 13; 0; 1], Rand.const 0)
  /\ allocateAcrossDays testConfig 5 2 (Rand.const 0) = Some ([3; 2], Rand.const 0).
Proof.
  split; [reflexivity|]. split; [lia|]. split; [lia|].
  apply (deterministic_spread_formula testConfig 15 4 (Rand.const 0));
    [reflexivity | lia | lia].
Defined.

(** C7.  For a single commit and more than one day, in the jittered and in
    the deterministic mode, [allocateAcrossDays] returns counts whose last
    slot is 1 and whose other slots are all 0. *)
Theorem single_commit_on_last_day (cfg : Config) (m : Z) (src : Rand.Source) :
  1 < m ->
  allocateAcrossDays cfg 1 m src
  = Some (repeat 0 (Z.to_nat (m - 1)) ++ [1], src).
Proof.
  intros Hm. unfold allocateAcrossDays.
  destruct (Z.leb_spec m 0); [lia|]. simpl.
  unfold lift, Slice.store.
  rewrite (proj2 (inRange_spec (Slice.make m) (m - 1)))
    by (rewrite length_make; lia).
  unfold Slice.make. replace (Z.to_nat m) with (S (Z.to_nat (m - 1))) by lia.
  rewrite update_last_of_zeros. reflexivity.
Qed.

Lemma single_commit_on_last_day_witness :
  1 < 3
  /\ allocateAcrossDays defaultConfig 1 3 (Rand.const 4)
     = Some (repeat 0 (Z.to_nat (3 - 1)) ++ [1], Rand.const 4).
Proof.
  split; [lia|].
  apply (single_commit_on_last_day defaultConfig 3 (Rand.const 4)). lia.
Defined.

(** ** The Time Allocation Planner *)

Section Planner.

Variable cfg : Config.

Lemma drawJitter_off src :
  JitterMinutes cfg <= 0 -> drawJitter cfg src = Some (0, src).
Proof.
  intros H. unfold drawJitter. destruct (Z.ltb_spec 0 (JitterMinutes cfg)); [lia|].
  reflexivity.
Qed.

Lemma drawJitter_total src :
  JitterMinutes cfg < 2 ^ 62 ->
  exists j src', drawJitter cfg src = Some (j, src').
Proof.
  intros H. unfold drawJitter. destruct (Z.ltb_spec 0 (JitterMinutes cfg)).
  - unfold bind, Rand.Intn, GoInt.mul.
    rewrite wrap_in_range by (unfold GoInt.min_int, GoInt.max_int; lia).
    destruct (Z.leb_spec (JitterMinutes cfg * 2) 0); [lia|].
    unfold ret. eauto.
  - unfold ret. eauto.
Qed.

Lemma spreadTimes_total start interval fuel :
  JitterMinutes cfg < 2 ^ 62 ->
  forall i src, exists ts src',
    spreadTimes cfg start interval fuel i src = Some (ts, src')
    /\ length ts = fuel.
Proof.
  intros HJ. induction fuel as [|fuel IH]; intros i src.
  - simpl. unfold ret. eauto.
  - destruct (drawJitter_total src HJ) as (j & src1 & Hj).
    destruct (IH (i + 1) src1) as (ts & src' & Hts & Hl).
    exists (Add (Add start (GoInt.mul i interval)) j :: ts), src'.
    cbn [spreadTimes]. unfold bind at 1. rewrite Hj. cbn beta iota zeta.
    unfold bind at 1. rewrite Hts. unfold ret. simpl. auto.
Qed.

Lemma spreadTimes_no_jitter start interval fuel :
  JitterMinutes cfg <= 0 ->
  forall i src,
    spreadTimes cfg start interval fuel i src
    = Some (baseTimes start interval fuel i, src).
Proof.
  intros HJ. induction fuel as [|fuel IH]; intros i src.
  - reflexivity.
  - cbn [spreadTimes baseTimes]. unfold bind at 1.
    rewrite (drawJitter_off src HJ). cbn beta iota zeta.
    unfold bind at 1. rewrite IH. reflexivity.
Qed.

Lemma placeTimes_total start finish n src :
  JitterMinutes cfg < 2 ^ 62 -> 1 <= n ->
  exists ts src',
    placeTimes cfg start finish n src = Some (ts, src')
    /\ length ts = Z.to_nat n.
Proof.
  intros HJ Hn. unfold placeTimes. destruct (Z.eqb_spec n 1) as [->|Hne].
  - destruct (drawJitter_total (Rand.advance src) HJ) as (j & src' & Hj).
    unfold bind, Rand.Intn. change (60 <=? 0) with false. cbn iota beta zeta.
    rewrite Hj. unfold ret. eauto.
  - cbn zeta. apply spreadTimes_total; assumption.
Qed.

Lemma spreadTimes_sound start interval fuel :
  forall i src ts src',
    spreadTimes cfg start interval fuel i src = Some (ts, src') ->
    length ts = fuel.
Proof.
  induction fuel as [|fuel IH]; intros i src ts src' Hrun.
  - simpl in Hrun. unfold ret in Hrun. now inversion Hrun.
  - cbn [spreadTimes] in Hrun. unfold bind at 1 in Hrun.
    destruct (drawJitter cfg src) as [[j src1]|]; [|discriminate].
    cbn beta iota zeta in Hrun. unfold bind at 1 in Hrun.
    destruct (spreadTimes cfg start interval fuel (i + 1) src1)
      as [[rest src2]|] eqn:Erest; [|discriminate].
    unfold ret in Hrun. inversion Hrun; subst. simpl.
    f_equal. eapply IH; eassumption.
Qed.

Lemma placeTimes_sound start finish n src ts src' :
  1 <= n ->
  placeTimes cfg start finish n src = Some (ts, src') ->
  length ts = Z.to_nat n.
Proof.
  intros Hn. unfold placeTimes. destruct (Z.eqb_spec n 1) as [->|Hne].
  - unfold bind, Rand.Intn. change (60 <=? 0) with false. cbn iota beta zeta.
    destruct (drawJitter cfg (Rand.advance src)) as [[j src1]|]; [|discriminate].
    unfold ret. intros H. now inversion H.
  - cbn zeta. apply spreadTimes_sound.
Qed.

End Planner.

(** *** Sorting *)

Lemma insertTime_length t l : length (insertTime t l) = S (length l).
Proof.
  induction l as [|u l IH]; simpl; auto. destruct (Before u t); simpl; auto.
Qed.

Lemma sortTimes_length l : length (sortTimes l) = length l.
Proof.
  induction l as [|t l IH]; simpl; auto. now rewrite insertTime_length, IH.
Qed.

Lemma insertTime_Forall (P : Time -> Prop) t l :
  P t -> Forall P l -> Forall P (insertTime t l).
Proof.
  intros Ht Hl. induction Hl as [|u l Hu Hl IH]; simpl; auto.
  destruct (Before u t); auto.
Qed.

Lemma sortTimes_Forall (P : Time -> Prop) l :
  Forall P l -> Forall P (sortTimes l).
Proof.
  intros H. induction H; simpl; auto using insertTime_Forall.
Qed.

Lemma insertTime_HdRel u t l :
  u <= t -> HdRel Z.le u l -> HdRel Z.le u (insertTime t l).
Proof.
  intros Hut H. destruct H as [|v l Huv]; simpl; auto.
  destruct (Before v t); auto.
Qed.

Lemma insertTime_Sorted t l : Sorted Z.le l -> Sorted Z.le (insertTime t l).
Proof.
  intros H. induction H as [|u l Hs IH Hd]; simpl; auto.
  unfold Before. destruct (Z.ltb_spec u t).
  - constructor; auto. apply insertTime_HdRel; auto. lia.
  - constructor; [constructor; assumption|]. constructor. lia.
Qed.

Lemma sortTimes_Sorted l : Sorted Z.le (sortTimes l).
Proof. induction l; simpl; auto using insertTime_Sorted. Qed.

Lemma sortTimes_repeat t k : sortTimes (repeat t k) = repeat t k.
Proof.
  induction k as [|k IH]; simpl; auto. rewrite IH.
  destruct k; simpl; auto. unfold Before. rewrite Z.ltb_irrefl. reflexivity.
Qed.

(** *** The work window *)

(** In a location at a fixed offset the hours of a day follow one another:
    [time.Date] at [hour] is the first instant of the day plus [hour]
    hours. *)
Lemma Date_fixed off loc t hour :
  fixedAt off loc ->
  Date loc t hour
  = ((Unix t + off) / secondsPerDay * secondsPerDay - off) * Second
    + hour * Hour.
Proof.
  intros Hfix. unfold Date, clock. cbv zeta. rewrite !Hfix.
  set (D := (Unix t + off) / secondsPerDay * secondsPerDay).
  destruct (Z.eqb_spec off 0) as [->|_].
  - unfold Hour, Minute, Second, secondsPerHour. lia.
  - match goal with |- context [if ?c then _ else _] => destruct c end;
      unfold Hour, Minute, Second, secondsPerHour; lia.
Qed.

Lemma window_at_fixed_offset off cfg loc day :
  fixedAt off loc ->
  workDayEnd cfg loc day
  = workDayStart cfg loc day
    + (WorkDayEndHour cfg - WorkDayStartHour cfg) * Hour.
Proof.
  intros Hfix. unfold workDayStart, workDayEnd.
  rewrite !(Date_fixed off) by exact Hfix. lia.
Qed.

(** There a window whose start hour is before its end hour lasts an hour or
    more. *)
Lemma window_at_least_an_hour off cfg loc day :
  fixedAt off loc ->
  WorkDayStartHour cfg < WorkDayEndHour cfg ->
  workDayStart cfg loc day + Hour <= workDayEnd cfg loc day.
Proof.
  intros Hfix Hw. rewrite (window_at_fixed_offset off) by exact Hfix.
  unfold Hour, Minute, Second. nia.
Qed.

Lemma fixedAt_FixedZone off : fixedAt off (FixedZone off).
Proof. intros sec. reflexivity. Qed.

Lemma clampToWorkDay_within start finish t :
  start + Minute <= finish ->
  start <= clampToWorkDay start finish t < finish.
Proof.
  unfold clampToWorkDay, Before, After, Equal, Add, Minute, Second. intros H.
  destruct (Z.ltb_spec t start); [lia|].
  destruct (Z.ltb_spec finish t); simpl; [lia|].
  destruct (Z.eqb_spec t finish); lia.
Qed.

(** *** The planner's results *)

Lemma generate_from_placed cfg loc day n src ts src' :
  1 <= n ->
  placeTimes cfg (workDayStart cfg loc day) (workDayEnd cfg loc day) n src
  = Some (ts, src') ->
  generateCommitTimesForDay cfg loc day n src
  = Some (sortTimes (map (clampToWorkDay (workDayStart cfg loc day)
                                         (workDayEnd cfg loc day)) ts), src').
Proof.
  intros Hn Hp. unfold generateCommitTimesForDay.
  destruct (Z.leb_spec n 0); [lia|]. cbn zeta. unfold bind. rewrite Hp.
  reflexivity.
Qed.

(** Clamped and sorted, any [n] times are within a work window of at least
    a minute. *)
Lemma clamped_sorted_within cfg loc day n raw :
  1 <= n ->
  workDayStart cfg loc day + Minute <= workDayEnd cfg loc day ->
  length raw = Z.to_nat n ->
  withinWindow cfg loc day n
    (sortTimes (map (clampToWorkDay (workDayStart cfg loc day)
                       (workDayEnd cfg loc day)) raw)).
Proof.
  intros Hn Hwin Hl.
  assert (Hall : Forall (fun t => workDayStart cfg loc day <= t
                                  < workDayEnd cfg loc day)
                   (sortTimes (map (clampToWorkDay (workDayStart cfg loc day)
                                      (workDayEnd cfg loc day)) raw))).
  { apply sortTimes_Forall, Forall_forall. intros t Ht.
    apply in_map_iff in Ht. destruct Ht as (u & <- & _).
    apply clampToWorkDay_within. exact Hwin. }
  unfold withinWindow.
  split; [rewrite sortTimes_length, length_map, Hl; lia|].
  split; [apply sortTimes_Sorted|].
  split; [|intros _; exact Hall].
  eapply Forall_impl; [|exact Hall]. simpl. intros t Ht. lia.
Qed.

(** C3, as amended.  For every day, every count [n >= 1], every jitter
    setting and every work window that ends a minute or more after it
    starts, the timestamps that [generateCommitTimesForDay] returns are
    exactly [n], in ascending order, none of them at or after the end of the
    work window, and with jitter 0 all of them within [[start, end)].  The
    call does return for every jitter setting below [2^62] minutes.  The
    start and the end of the window are the instants that [time.Date] gives
    the two hours on that day in the location of the day. *)
Theorem planned_times_within_proper_window (cfg : Config) (loc : Location)
    (day : Time) (n : Z) (src : Rand.Source) :
  1 <= n ->
  workDayStart cfg loc day + Minute <= workDayEnd cfg loc day ->
  (forall ts src',
      generateCommitTimesForDay cfg loc day n src = Some (ts, src') ->
      withinWindow cfg loc day n ts)
  /\ (JitterMinutes cfg < 2 ^ 62 -> plansWithinWindow cfg loc day n src).
Proof.
  intros Hn Hw. split.
  - intros ts src' Hrun. unfold generateCommitTimesForDay in Hrun.
    destruct (Z.leb_spec n 0); [lia|]. cbn zeta in Hrun. unfold bind in Hrun.
    destruct (placeTimes cfg (workDayStart cfg loc day) (workDayEnd cfg loc day)
                n src) as [[raw src1]|] eqn:Hp; [|discriminate].
    unfold ret in Hrun. inversion Hrun; subst.
    apply clamped_sorted_within; try assumption.
    eapply placeTimes_sound; eassumption.
  - intros HJ.
    destruct (placeTimes_total cfg (workDayStart cfg loc day)
                (workDayEnd cfg loc day) n src HJ Hn) as (raw & src' & Hp & Hl).
    unfold plansWithinWindow. do 2 eexists.
    split; [apply generate_from_placed; eassumption|].
    now apply clamped_sorted_within.
Qed.

Lemma planned_times_within_proper_window_witness :
  1 <= 3
  /\ workDayStart defaultConfig (FixedZone 3600) monday2024 + Minute
     <= workDayEnd defaultConfig (FixedZone 3600) monday2024
  /\ (forall ts src',
        generateCommitTimesForDay defaultConfig (FixedZone 3600) monday2024 3
          (Rand.const 7) = Some (ts, src') ->
        withinWindow defaultConfig (FixedZone 3600) monday2024 3 ts)
  /\ (JitterMinutes defaultConfig < 2 ^ 62 ->
      plansWithinWindow defaultConfig (FixedZone 3600) monday2024 3
        (Rand.const 7)).
Proof.
  split; [lia|]. split; [vm_compute; discriminate|].
  apply (planned_times_within_proper_window defaultConfig (FixedZone 3600)
           monday2024 3 (Rand.const 7)); [lia | vm_compute; discriminate].
Defined.

(** C3, as stated, fails on a degenerate window: with start and end both at
    12:00 the single commit drawn five minutes before the end is clamped to
    the start, which is the end of the window.  It also fails for a jitter of
    [2^62] minutes, whose doubling wraps to a negative bound on which
    [rand.Intn] panics. *)
Lemma planned_times_reach_window_end :
  ~ plansWithinWindow degenerateConfig UTC 0 1 (Rand.const 5)
  /\ ~ plansWithinWindow hugeJitterConfig UTC 0 1 (Rand.const 5).
Proof.
  split; intros (ts & src' & Hrun & _ & _ & Hend & _).
  - vm_compute in Hrun. inversion Hrun; subst ts.
    inversion Hend as [|t l Ht _]; subst. vm_compute in Ht. discriminate.
  - vm_compute in Hrun. discriminate.
Qed.

(** A start hour before the end hour does not make a window: in New York on
    2024-03-10 the clocks go from 2:00 to 3:00, [time.Date] gives 1:00 and
    2:00 the same instant, and the commit drawn five minutes before the end
    of the window 1 to 2 is clamped to its start, which is its end. *)
Example window_skipped_by_clock_change :
  workDayStart (mkConfig 1 2 0 false) newYork2024 springForward2024
  = workDayEnd (mkConfig 1 2 0 false) newYork2024 springForward2024
  /\ generateCommitTimesForDay (mkConfig 1 2 0 false) newYork2024
       springForward2024 1 (Rand.const 5)
     = Some ([workDayEnd (mkConfig 1 2 0 false) newYork2024 springForward2024],
             Rand.advance (Rand.const 5)).
Proof. split; reflexivity. Qed.

(** Evaluates the closed 64-bit products of a goal. *)
Ltac eval_products :=
  repeat match goal with
         | |- context [GoInt.mul ?a ?b] =>
             let v := eval vm_compute in (GoInt.mul a b) in
             change (GoInt.mul a b) with v
         end.

(** Decides the comparisons of instants that differ by known amounts: first
    those of the clamping loop, then those of the sort. *)
Ltac decide_comparisons :=
  repeat match goal with
         | |- context [?a <? ?b] => destruct (Z.ltb_spec a b); try lia
         | |- context [?a =? ?b] => destruct (Z.eqb_spec a b); try lia
         end;
  cbn [orb].

Ltac same_times :=
  apply (f_equal Some), (f_equal2 pair); [|reflexivity];
  repeat (apply (f_equal2 cons); [lia|]); reflexivity.

Ltac settle_times :=
  unfold clampToWorkDay, Before, After, Equal, Add, Hour, Minute, Second;
  decide_comparisons;
  unfold sortTimes;
  repeat (cbn [insertTime fold_right]; unfold Before; decide_comparisons).

(** C4.  With the work window 9:00 to 17:00 and jitter 0,
    [generateCommitTimesForDay] for 3 commits on one day returns exactly the
    three ascending timestamps 09:00, 13:00 and 16:59 of that day: the start,
    the start plus one interval, and the last point, which falls on the end
    and is clamped to one minute before it.  This holds in every location on
    every day whose 13:00 and 17:00 are four and eight hours after its 9:00:
    on all days of a location at a fixed offset, and in a location with clock
    changes on every day whose clock is not changed during the window. *)
Theorem three_commits_nine_to_five (jd : bool) (loc : Location) (day : Time)
    (src : Rand.Source) :
  Date loc day 13 = Date loc day 9 + 4 * Hour ->
  Date loc day 17 = Date loc day 9 + 8 * Hour ->
  generateCommitTimesForDay (mkConfig 9 17 0 jd) loc day 3 src
  = Some ([Date loc day 9; Date loc day 13; Date loc day 17 - Minute], src).
Proof.
  intros H13 H17.
  erewrite generate_from_placed; [|lia|].
  2:{ unfold placeTimes. change (3 =? 1) with false. cbn iota zeta.
      apply spreadTimes_no_jitter. simpl. lia. }
  unfold workDayStart, workDayEnd. simpl WorkDayStartHour. simpl WorkDayEndHour.
  rewrite H13, H17. set (s := Date loc day 9).
  replace (Sub (s + 8 * Hour) s) with (8 * Hour)
    by (unfold Sub; replace (s + 8 * Hour - s) with (8 * Hour) by lia;
        reflexivity).
  change (GoInt.quo (8 * Hour) (3 - 1)) with (4 * Hour).
  change (Z.to_nat 3) with 3%nat.
  cbn [baseTimes map]. eval_products. settle_times.
  same_times.
Qed.

(** The hours of a day in a location at a fixed offset are an hour apart. *)
Lemma hours_apart_at_fixed_offset off loc day h k :
  fixedAt off loc -> Date loc day (h + k) = Date loc day h + k * Hour.
Proof.
  intros Hfix. rewrite !(Date_fixed off) by exact Hfix. lia.
Qed.

Lemma three_commits_nine_to_five_witness :
  Date (FixedZone 3600) monday2024 13
  = Date (FixedZone 3600) monday2024 9 + 4 * Hour
  /\ Date (FixedZone 3600) monday2024 17
     = Date (FixedZone 3600) monday2024 9 + 8 * Hour
  /\ generateCommitTimesForDay (mkConfig 9 17 0 false) (FixedZone 3600)
       monday2024 3 (Rand.const 0)
     = Some ([Date (FixedZone 3600) monday2024 9;
              Date (FixedZone 3600) monday2024 13;
              Date (FixedZone 3600) monday2024 17 - Minute], Rand.const 0).
Proof.
  split; [reflexivity|]. split; [reflexivity|].
  apply (three_commits_nine_to_five false (FixedZone 3600) monday2024
           (Rand.const 0)); reflexivity.
Defined.

(** The same three timestamps on the day the clocks go forward in New York:
    the clock change is over before the window starts, which is eight hours
    long. *)
Example three_commits_after_clock_change :
  generateCommitTimesForDay (mkConfig 9 17 0 false) newYork2024
    springForward2024 3 (Rand.const 0)
  = Some ([springForward2024 + 8 * Hour;
           springForward2024 + 12 * Hour;
           springForward2024 + 16 * Hour - Minute], Rand.const 0).
Proof. reflexivity. Qed.

Lemma baseTimes_zero_interval start fuel :
  forall i, baseTimes start 0 fuel i = repeat start fuel.
Proof.
  induction fuel as [|fuel IH]; intros i; simpl; [reflexivity|].
  unfold GoInt.mul. rewrite Z.mul_0_r. change (GoInt.wrap 0) with 0.
  unfold Add. rewrite !Z.add_0_r. now rewrite IH.
Qed.

(** On every degenerate window, with jitter off, two or more commits are all
    placed one minute before the window start. *)
Lemma degenerate_window_collapses_before_start cfg loc day n src :
  WorkDayStartHour cfg = WorkDayEndHour cfg -> JitterMinutes cfg <= 0 ->
  2 <= n ->
  generateCommitTimesForDay cfg loc day n src
  = Some (repeat (workDayStart cfg loc day - Minute) (Z.to_nat n), src).
Proof.
  intros Hw HJ Hn.
  assert (Hsame : workDayEnd cfg loc day = workDayStart cfg loc day).
  { unfold workDayEnd, workDayStart. now rewrite Hw. }
  erewrite generate_from_placed; [|lia|].
  2:{ unfold placeTimes. destruct (Z.eqb_spec n 1); [lia|]. cbn zeta.
      apply spreadTimes_no_jitter. exact HJ. }
  rewrite Hsame. unfold Sub. rewrite Z.sub_diag.
  change (GoInt.saturate 0) with 0. unfold GoInt.quo.
  rewrite Z.quot_0_l by lia. change (GoInt.wrap 0) with 0.
  rewrite baseTimes_zero_interval, map_repeat, sortTimes_repeat.
  replace (clampToWorkDay (workDayStart cfg loc day) (workDayStart cfg loc day)
             (workDayStart cfg loc day))
    with (workDayStart cfg loc day - Minute); [reflexivity|].
  unfold clampToWorkDay, Before, After, Equal, Add.
  rewrite Z.ltb_irrefl, Z.eqb_refl. cbn [orb]. lia.
Qed.

(** C2.  On the degenerate window 12:00 to 12:00 with jitter 0, two commits
    are both placed at 11:59, one minute before the window start, and not at
    the start: a time equal to the start is also equal to the end, and the
    clamping loop moves it to one minute before the end.  This is so on
    every day, in every location. *)
Theorem degenerate_window_two_commits (jd : bool) (loc : Location) (day : Time)
    (src : Rand.Source) :
  generateCommitTimesForDay (mkConfig 12 12 0 jd) loc day 2 src
  = Some ([Date loc day 12 - Minute; Date loc day 12 - Minute], src)
  /\ Date loc day 12 - Minute <> workDayStart (mkConfig 12 12 0 jd) loc day.
Proof.
  split.
  - rewrite (degenerate_window_collapses_before_start (mkConfig 12 12 0 jd)
               loc day 2 src eq_refl); [reflexivity | simpl; lia | lia].
  - unfold workDayStart, Minute, Second. simpl WorkDayStartHour. lia.
Qed.

Lemma placeTimes_single_no_jitter cfg start finish src :
  JitterMinutes cfg <= 0 ->
  placeTimes cfg start finish 1 src
  = Some ([Add (Add finish (GoInt.mul (GoInt.neg (src O mod 60)) Minute)) 0],
          Rand.advance src).
Proof.
  intros HJ. unfold placeTimes. change (1 =? 1) with true. cbn iota zeta.
  unfold bind, Rand.Intn. change (60 <=? 0) with false. cbn iota beta zeta.
  rewrite (drawJitter_off cfg (Rand.advance src) HJ). reflexivity.
Qed.

(** C10.  With jitter 0, [generateCommitTimesForDay] is deterministic for
    every count [n >= 2]: the timestamps are the same whatever the random
    source delivers, and the source is left untouched.  For a single commit
    it is not: the placement draws from the random source although jitter is
    0, and two sources give different timestamps on every window whose start
    is not after its end and which does not last exactly one minute; these
    are all the windows of a location at a fixed offset whose start hour is
    not after the end hour. *)
Theorem deterministic_except_single_commit (cfg : Config) (loc : Location)
    (day : Time) :
  JitterMinutes cfg = 0 ->
  (forall n, 2 <= n ->
     exists ts, forall src,
       generateCommitTimesForDay cfg loc day n src = Some (ts, src))
  /\ (workDayStart cfg loc day <= workDayEnd cfg loc day ->
      workDayStart cfg loc day + Minute <> workDayEnd cfg loc day ->
      exists src1 src2 ts1 ts2 rest1 rest2,
        generateCommitTimesForDay cfg loc day 1 src1 = Some (ts1, rest1)
        /\ generateCommitTimesForDay cfg loc day 1 src2 = Some (ts2, rest2)
        /\ ts1 <> ts2).
Proof.
  intros HJ. split.
  - intros n Hn. eexists. intros src.
    apply generate_from_placed; [lia|].
    unfold placeTimes. destruct (Z.eqb_spec n 1); [lia|]. cbn zeta.
    apply spreadTimes_no_jitter. lia.
  - intros Hw Hmin. exists (Rand.const 0), (Rand.const 2). do 4 eexists.
    split; [|split].
    + apply generate_from_placed; [lia|].
      apply placeTimes_single_no_jitter. lia.
    + apply generate_from_placed; [lia|].
      apply placeTimes_single_no_jitter. lia.
    + unfold Rand.const. change (0 mod 60) with 0. change (2 mod 60) with 2.
      eval_products.
      change (GoInt.mul (GoInt.neg 0) Minute) with 0.
      change (GoInt.mul (GoInt.neg 2) Minute) with (- (2 * Minute)).
      set (s := workDayStart cfg loc day) in *.
      set (e := workDayEnd cfg loc day) in *.
      cbn [map sortTimes fold_right insertTime].
      unfold clampToWorkDay, Before, After, Equal, Add, Hour, Minute, Second in *.
      decide_comparisons; intros E; inversion E; lia.
Qed.

Lemma deterministic_except_single_commit_witness :
  JitterMinutes testConfig = 0
  /\ (exists ts, forall src,
        generateCommitTimesForDay testConfig UTC 0 3 src = Some (ts, src))
  /\ (exists src1 src2 ts1 ts2 rest1 rest2,
        generateCommitTimesForDay testConfig UTC 0 1 src1 = Some (ts1, rest1)
        /\ generateCommitTimesForDay testConfig UTC 0 1 src2 = Some (ts2, rest2)
        /\ ts1 <> ts2).
Proof.
  split; [reflexivity|].
  destruct (deterministic_except_single_commit testConfig UTC 0 eq_refl)
    as [Hmany Hone].
  split; [apply (Hmany 3); lia | apply Hone; vm_compute; discriminate].
Defined.

(** ** The History Rewrite Executor *)

Import Git.

Section TraceFacts.

Lemma applying_not_amend evs :
  Forall applying evs -> filter isAmend evs = [].
Proof.
  induction 1 as [|e evs [Ha _] _ IH]; simpl; auto. now rewrite Ha.
Qed.

Lemma applying_no_success evs :
  Forall applying evs ->
  filter (fun e => isAmend e && succeeded e) evs = [].
Proof.
  induction 1 as [|e evs [Ha _] _ IH]; simpl; auto. now rewrite Ha.
Qed.

Lemma applying_no_deletion rw evs :
  Forall applying evs -> deletions rw evs = [].
Proof.
  unfold deletions.
  induction 1 as [|e evs [_ Hb] _ IH]; simpl; auto. now rewrite Hb.
Qed.

Lemma successfulAmends_app a b :
  successfulAmends (a ++ b) = successfulAmends a + successfulAmends b.
Proof.
  unfold successfulAmends. rewrite filter_app, length_app. lia.
Qed.

Lemma amendCommands_app a b :
  amendCommands (a ++ b) = amendCommands a ++ amendCommands b.
Proof. unfold amendCommands. now rewrite filter_app, map_app. Qed.

Lemma deletions_app rw a b :
  deletions rw (a ++ b) = deletions rw a ++ deletions rw b.
Proof. unfold deletions. apply filter_app. Qed.

Lemma successfulAmends_applying evs :
  Forall applying evs -> successfulAmends evs = 0.
Proof.
  intros H. unfold successfulAmends. now rewrite applying_no_success.
Qed.

Lemma amendCommands_applying evs :
  Forall applying evs -> amendCommands evs = [].
Proof. intros H. unfold amendCommands. now rewrite applying_not_amend. Qed.

End TraceFacts.

Section ExecutorFacts.

Variable git : Repository.
Variable Time : Type.
Variable Format : Time -> string.

(** A cherry-pick, with its recovery, only adds events of applying; when it
    is fatal the events are the recovery, and the error names the commit. *)
Lemma applyCherryPick_spec repoPath commit tr :
  exists r evs,
    applyCherryPick git repoPath commit tr = (r, tr ++ evs)
    /\ Forall applying evs
    /\ match r with
       | ApplyOk => True
       | ApplyFailed err =>
           err = CherryPickFailed (Hash commit)
           /\ recoveryAsBuilt repoPath (Hash commit) evs
       | ApplyPanicked => False
       end.
Proof.
  unfold applyCherryPick, runGitCommand, bind, exec, ret.
  destruct (git tr _) eqn:E1.
  { do 2 eexists. split; [reflexivity|]. split; [|exact I].
    repeat constructor. }
  destruct (git (tr ++ _) {| dir := repoPath; args := ["status"%string]; env := [] |})
    as [status|] eqn:E2.
  - destruct (GoStrings.Contains status "cherry-picking") eqn:EC.
    + destruct (git ((tr ++ _) ++ _) _) eqn:E3.
      { do 2 eexists. split; [rewrite <- !app_assoc; reflexivity|].
        split; [|exact I]. repeat constructor. }
      destruct (git (((tr ++ _) ++ _) ++ _) _) eqn:E4.
      { do 2 eexists. split; [rewrite <- !app_assoc; reflexivity|].
        split; [|exact I]. repeat constructor. }
      destruct (git (((((tr ++ _) ++ _) ++ _) ++ _) ++ _) _) eqn:E6.
      { do 2 eexists. split; [rewrite <- !app_assoc; reflexivity|].
        split; [|exact I]. repeat constructor. }
      do 2 eexists. split; [rewrite <- !app_assoc; reflexivity|].
      split; [repeat constructor|]. split; [reflexivity|].
      exists (Success status). left. split; [exact EC|].
      eexists. reflexivity.
    + destruct (git ((tr ++ _) ++ _) _) eqn:E3.
      { do 2 eexists. split; [rewrite <- !app_assoc; reflexivity|].
        split; [|exact I]. repeat constructor. }
      do 2 eexists. split; [rewrite <- !app_assoc; reflexivity|].
      split; [repeat constructor|]. split; [reflexivity|].
      exists (Success status). right. split; [exact EC|]. reflexivity.
  - destruct (git ((tr ++ _) ++ _) _) eqn:E3.
    { do 2 eexists. split; [rewrite <- !app_assoc; reflexivity|].
      split; [|exact I]. repeat constructor. }
    do 2 eexists. split; [rewrite <- !app_assoc; reflexivity|].
    split; [repeat constructor|]. split; [reflexivity|].
    exists Failure. right. split; reflexivity.
Qed.

End ExecutorFacts.

Section ReplayFacts.

Variable git : Repository.
Variable Time : Type.
Variable Format : Time -> string.

(** A merge only adds events of applying, and never fails with the error of
    a cherry-pick. *)
Lemma applyMerge_spec repoPath branchName commit tr :
  exists r evs,
    applyMerge git repoPath branchName commit tr = (r, tr ++ evs)
    /\ Forall applying evs
    /\ forall hash, r <> ApplyFailed (CherryPickFailed hash).
Proof.
  unfold applyMerge, GetCommitMessage, runGitCommand, bind, exec, ret.
  destruct (GoStrings.isEmpty (MergeFrom commit)).
  { exists (ApplyFailed (MergeHasNoSource (Hash commit))), [].
    rewrite app_nil_r. repeat split; [constructor | discriminate]. }
  destruct (git tr _) as [message|] eqn:E1.
  - destruct (if GoStrings.isEmpty (extractBranchNameFromMergeMessage message)
              then if GoStrings.len (MergeFrom commit) <? 8 then None
                   else Some (GoStrings.slice (MergeFrom commit) 0 8)
              else Some (extractBranchNameFromMergeMessage message))
      as [name|] eqn:EN.
    + destruct (git (tr ++ _) _) eqn:E2.
      * do 2 eexists. split; [rewrite <- !app_assoc; reflexivity|].
        split; [repeat constructor | discriminate].
      * do 2 eexists. split; [rewrite <- !app_assoc; reflexivity|].
        split; [repeat constructor | discriminate].
    + do 2 eexists. split; [reflexivity|].
      split; [repeat constructor | discriminate].
  - do 2 eexists. split; [reflexivity|].
    split; [repeat constructor | discriminate].
Qed.

(** Applying a commit, merge or not. *)
Lemma apply_spec repoPath branchName commit tr :
  exists r evs,
    (if IsMerge commit then applyMerge git repoPath branchName commit
     else applyCherryPick git repoPath commit) tr = (r, tr ++ evs)
    /\ Forall applying evs
    /\ forall hash, r = ApplyFailed (CherryPickFailed hash) ->
                    recoveryAsBuilt repoPath hash evs.
Proof.
  destruct (IsMerge commit).
  - destruct (applyMerge_spec repoPath branchName commit tr)
      as (r & evs & Hrun & Hev & Hno).
    exists r, evs. repeat split; auto. intros hash E. now apply Hno in E.
  - destruct (applyCherryPick_spec git repoPath commit tr)
      as (r & evs & Hrun & Hev & Hr).
    exists r, evs. repeat split; auto. intros hash E. subst r.
    destruct Hr as [Herr Hrec]. inversion Herr; subst. exact Hrec.
Qed.

Variables repoPath branchName newCommitAuthorName newCommitAuthorEmail : string.

Let amendFor : Time -> Command :=
  amendCommand Time Format repoPath newCommitAuthorName newCommitAuthorEmail.

(** What the loop over the commits adds to the trace. *)
Lemma replay_spec commits :
  forall newTimes n tr,
  exists o evs,
    replay git Time Format repoPath branchName newCommitAuthorName
      newCommitAuthorEmail commits newTimes n tr = (o, tr ++ evs)
    /\ Forall (fun e => String.eqb (verb e) "branch" = false) evs
    /\ (exists k, (k <= length commits)%nat /\ (k <= length newTimes)%nat
                   /\ amendCommands evs = map amendFor (firstn k newTimes))
    /\ match o with
       | Done n' =>
           n' = n + Z.of_nat (length commits)
           /\ successfulAmends evs = Z.of_nat (length commits)
       | Failed n' err =>
           n' = n + successfulAmends evs
           /\ forall hash, err = CherryPickFailed hash ->
                exists pre tail,
                  evs = pre ++ tail
                  /\ recoveryAsBuilt repoPath hash tail
                  /\ n' = n + successfulAmends pre
       | Panicked => True
       end.
Proof.
  induction commits as [|commit commits' IH]; intros newTimes n tr.
  - exists (Done n), []. rewrite app_nil_r. simpl.
    split; [reflexivity|]. split; [constructor|].
    split; [exists O; simpl; repeat split; lia|]. split; [lia | reflexivity].
  - destruct newTimes as [|newTime newTimes'].
    { exists Panicked, []. rewrite app_nil_r. simpl.
      split; [reflexivity|]. split; [constructor|].
      split; [exists O; simpl; repeat split; lia | exact I]. }
    destruct (apply_spec repoPath branchName commit tr)
      as (r & evsA & HrunA & HevA & HrecA).
    assert (HnbA : Forall (fun e => String.eqb (verb e) "branch" = false) evsA).
    { eapply Forall_impl; [|exact HevA]. intros e [_ Hb]. exact Hb. }
    cbn [replay]. unfold bind at 1. rewrite HrunA.
    destruct r as [|err|].
    + unfold bind at 1, exec at 1.
      set (amended := git (tr ++ evsA) (amendFor newTime)).
      fold amendFor. fold amended.
      destruct amended as [out|] eqn:EA.
      * destruct (IH newTimes' (n + 1)
                    ((tr ++ evsA) ++ [mkEvent (amendFor newTime) (Success out)]))
          as (o & evs & Hrun & Hnb & (k & Hkc & Hkt & Hk) & Ho).
        exists o, (evsA ++ mkEvent (amendFor newTime) (Success out) :: evs).
        split.
        { rewrite Hrun. f_equal. rewrite <- !app_assoc. reflexivity. }
        split.
        { apply Forall_app. split; [exact HnbA|]. constructor; [reflexivity|exact Hnb]. }
        split.
        { exists (S k). split; [simpl; lia|]. split; [simpl; lia|].
          rewrite amendCommands_app, (amendCommands_applying _ HevA).
          simpl. unfold amendCommands in *. simpl. fold amendFor. now rewrite Hk. }
        assert (Hcount : forall l,
                   successfulAmends (evsA ++ mkEvent (amendFor newTime) (Success out) :: l)
                   = 1 + successfulAmends l).
        { intros l. rewrite successfulAmends_app, (successfulAmends_applying _ HevA).
          change (mkEvent (amendFor newTime) (Success out) :: l)
            with ([mkEvent (amendFor newTime) (Success out)] ++ l).
          rewrite successfulAmends_app. reflexivity. }
        destruct o as [n'|n' err|]; [| |exact I].
        { destruct Ho as [-> Hs]. rewrite Hcount, Hs. simpl length. lia. }
        { destruct Ho as [-> Hh]. rewrite Hcount. split; [lia|].
          intros hash E. destruct (Hh hash E) as (pre & tail & -> & Hrec & Hn).
          exists (evsA ++ mkEvent (amendFor newTime) (Success out) :: pre), tail.
          split; [rewrite <- app_assoc; reflexivity|]. split; [exact Hrec|].
          rewrite Hcount. lia. }
      * exists (Failed n AmendFailed), (evsA ++ [mkEvent (amendFor newTime) Failure]).
        split; [rewrite <- app_assoc; reflexivity|].
        split.
        { apply Forall_app. split; [exact HnbA|]. repeat constructor. }
        split.
        { exists 1%nat. split; [simpl; lia|]. split; [simpl; lia|].
          rewrite amendCommands_app, (amendCommands_applying _ HevA).
          reflexivity. }
        split; [|discriminate].
        rewrite successfulAmends_app, (successfulAmends_applying _ HevA).
        change (successfulAmends [mkEvent (amendFor newTime) Failure]) with 0.
        lia.
    + exists (Failed n err), evsA. split; [reflexivity|]. split; [exact HnbA|].
      split; [exists O; rewrite amendCommands_applying by assumption;
              simpl; repeat split; lia|].
      rewrite (successfulAmends_applying _ HevA). split; [lia|].
      intros hash ->. exists [], evsA. split; [reflexivity|].
      split; [now apply HrecA|]. change (successfulAmends []) with 0. lia.
    + exists Panicked, evsA. split; [reflexivity|]. split; [exact HnbA|].
      split; [exists O; rewrite amendCommands_applying by assumption;
              simpl; repeat split; lia | exact I].
Qed.

End ReplayFacts.

Lemma no_branch_no_deletion rw evs :
  Forall (fun e => String.eqb (verb e) "branch" = false) evs ->
  deletions rw evs = [].
Proof.
  unfold deletions. induction 1 as [|e evs Hb _ IH]; simpl; auto.
  now rewrite Hb.
Qed.

Lemma runGitCommand_cons git repoPath a rest tr :
  runGitCommand git repoPath (a :: rest) tr
  = (match git tr (gitIn repoPath (a :: rest)) with
     | Success out => Some out
     | Failure => None
     end,
     tr ++ [mkEvent (gitIn repoPath (a :: rest)) (git tr (gitIn repoPath (a :: rest)))]).
Proof. reflexivity. Qed.

Section UpdateCommitTimesFacts.

Variable git : Repository.
Variable Time : Type.
Variable Format : Time -> string.
Variables repoPath parentCommitHash branchName rewriteBranchName : string.
Variables newCommitAuthorName newCommitAuthorEmail : string.
Variable commits : list Commit.
Variable newTimes : list Time.

Let amendFor : Time -> Command :=
  amendCommand Time Format repoPath newCommitAuthorName newCommitAuthorEmail.

Let postcondition : Outcome -> Trace -> Prop :=
  runPost Time Format repoPath branchName rewriteBranchName
    newCommitAuthorName newCommitAuthorEmail commits newTimes.

Let fromCreation : Trace -> Outcome * Trace :=
  onRewriteBranch git Time Format repoPath commits newTimes branchName
    rewriteBranchName newCommitAuthorName newCommitAuthorEmail.

Lemma fromCreation_post start :
  Forall applying start ->
  postcondition (fst (fromCreation start)) (snd (fromCreation start)).
Proof.
  intros Hstart. unfold postcondition, runPost, fromCreation, onRewriteBranch, Git.bind.
  fold amendFor.
  rewrite runGitCommand_cons.
  set (create := gitIn repoPath ["checkout"; "-b"; rewriteBranchName]%string).
  assert (Hpre : forall r, Forall applying (start ++ [mkEvent create r])).
  { intros r. apply Forall_app. split; [exact Hstart|]. repeat constructor. }
  destruct (git start create) as [out|] eqn:Ecreate; cbn iota beta.
  2:{ unfold Git.ret. simpl fst. simpl snd. split.
      - exists O. rewrite amendCommands_applying by apply Hpre.
        simpl. repeat split; lia.
      - rewrite successfulAmends_applying, applying_no_deletion by apply Hpre.
        repeat split. discriminate. }
  specialize (Hpre (Success out)). set (pre := start ++ [mkEvent create (Success out)]) in *.
  destruct (replay_spec git Time Format repoPath branchName newCommitAuthorName
              newCommitAuthorEmail commits newTimes 0 pre)
    as (o & evs & Hrun & Hnb & (k & Hkc & Hkt & Hk) & Ho).
  fold amendFor in Hk.
  rewrite Hrun.
  assert (Hamend : forall post, amendCommands post = [] ->
            exists k, (k <= length commits)%nat /\ (k <= length newTimes)%nat
                      /\ amendCommands ((pre ++ evs) ++ post)
                         = map amendFor (firstn k newTimes)).
  { intros post Hpost. exists k. split; [exact Hkc|]. split; [exact Hkt|].
    rewrite !amendCommands_app, (amendCommands_applying _ Hpre), Hpost,
      app_nil_r. exact Hk. }
  assert (Hcount : forall post, successfulAmends post = 0 ->
            successfulAmends ((pre ++ evs) ++ post) = successfulAmends evs).
  { intros post Hpost.
    rewrite !successfulAmends_app, (successfulAmends_applying _ Hpre), Hpost.
    lia. }
  assert (Hdel : deletions rewriteBranchName (pre ++ evs) = []).
  { rewrite deletions_app, (applying_no_deletion _ _ Hpre),
      (no_branch_no_deletion _ _ Hnb). reflexivity. }
  destruct o as [n|n err|].
  - destruct Ho as [Hn Hs]. simpl in Hn.
    unfold swapBranches, Git.bind. rewrite runGitCommand_cons.
    destruct (git (pre ++ evs) _) as [switched|] eqn:Eswitch.
    + rewrite runGitCommand_cons.
      destruct (git ((pre ++ evs) ++ _) _) as [deleted|] eqn:Edelete;
        unfold Git.ret; simpl fst; simpl snd;
        rewrite <- (app_assoc (pre ++ evs)); simpl app.
      * split; [apply Hamend; reflexivity|].
        split; [exact Hn|]. split; [rewrite Hcount by reflexivity; lia|].
        exists (pre ++ evs), switched, deleted. split; [reflexivity | exact Hdel].
      * split; [apply Hamend; reflexivity|].
        split; [rewrite Hcount by reflexivity; lia|].
        split; [rewrite deletions_app, Hdel; reflexivity | discriminate].
    + unfold Git.ret. simpl fst; simpl snd.
      split; [apply Hamend; reflexivity|].
      split; [rewrite Hcount by reflexivity; lia|].
      split; [rewrite deletions_app, Hdel; reflexivity | discriminate].
  - destruct Ho as [Hn Hh]. unfold Git.ret. simpl fst; simpl snd.
    split.
    { destruct (Hamend [] eq_refl) as [k' Hk']. rewrite app_nil_r in Hk'. eauto. }
    pose proof (Hcount [] eq_refl) as Hc. rewrite app_nil_r in Hc.
    split; [lia|]. split; [exact Hdel|].
    intros hash E. destruct (Hh hash E) as (p & tail & -> & Hrec & Hp).
    exists (pre ++ p), tail. split; [now rewrite app_assoc|].
    split; [exact Hrec|].
    rewrite successfulAmends_app, (successfulAmends_applying _ Hpre). lia.
  - unfold Git.ret. simpl fst; simpl snd.
    split; [|exact Hdel].
    destruct (Hamend [] eq_refl) as [k' Hk']. rewrite app_nil_r in Hk'. eauto.
Qed.

Lemma run_unfold :
  UpdateCommitTimes git Time Format repoPath commits newTimes
    parentCommitHash branchName rewriteBranchName
    newCommitAuthorName newCommitAuthorEmail []
  = if String.eqb parentCommitHash emptyTreeHash then fromCreation []
    else
      let checkout := gitIn repoPath ["checkout"%string; parentCommitHash] in
      match git [] checkout with
      | Success out => fromCreation [mkEvent checkout (Success out)]
      | Failure => (Failed 0 (CheckoutParentFailed parentCommitHash),
                    [mkEvent checkout Failure])
      end.
Proof.
  unfold UpdateCommitTimes. fold fromCreation. unfold Git.bind at 1.
  destruct (String.eqb parentCommitHash emptyTreeHash); [reflexivity|].
  rewrite runGitCommand_cons. cbv zeta.
  destruct (git [] _); reflexivity.
Qed.

(** The postcondition holds of every run. *)
Lemma run_post :
  let run := UpdateCommitTimes git Time Format repoPath commits newTimes
               parentCommitHash branchName rewriteBranchName
               newCommitAuthorName newCommitAuthorEmail [] in
  postcondition (fst run) (snd run).
Proof.
  cbv zeta. rewrite run_unfold.
  destruct (String.eqb parentCommitHash emptyTreeHash).
  - apply fromCreation_post. constructor.
  - cbv zeta. destruct (git [] _) as [out|] eqn:E.
    + apply fromCreation_post. repeat constructor.
    + unfold postcondition, runPost. simpl fst; simpl snd. split.
      * exists O. simpl. repeat split; lia.
      * repeat split. discriminate.
Qed.

End UpdateCommitTimesFacts.

(** *** The claims about a run *)

(** C8, as amended.  When replaying a regular commit fails and a cherry-pick
    in progress is detected, the executor tries to continue it, then to skip
    the change, then aborts and picks the same commit again allowing an empty
    result; when none is detected it goes straight to picking the same commit
    again allowing an empty result.  Only after the last of these fails does
    it return the fatal error of the cherry-pick, with the count of commits
    replayed so far. *)
Theorem cherry_pick_fatal_after_recovery (git : Repository) (Time : Type)
    (Format : Time -> string) (repoPath : string) (commits : list Commit)
    (newTimes : list Time) (parentCommitHash branchName rewriteBranchName
    newCommitAuthorName newCommitAuthorEmail : string) :
  fatalOnlyAfter recoveryAsBuilt git Time Format repoPath commits newTimes
    parentCommitHash branchName rewriteBranchName newCommitAuthorName
    newCommitAuthorEmail.
Proof.
  unfold fatalOnlyAfter. cbv zeta. intros n hash Hfail.
  pose proof (run_post git Time Format repoPath parentCommitHash branchName
                rewriteBranchName newCommitAuthorName newCommitAuthorEmail
                commits newTimes) as [_ Hpost].
  cbv zeta in Hpost. rewrite Hfail in Hpost.
  destruct Hpost as (_ & _ & Hrec). now apply Hrec.
Qed.

(** C9.  On every failing path [UpdateCommitTimes] returns, with the error,
    the number of commits whose amend succeeded, and the rewrite branch has
    not been deleted.  A run deletes the rewrite branch only as its last
    step, right after the successful forced checkout of the original branch
    name, when every commit has been replayed; it then returns their
    number. *)
Theorem failure_keeps_rewrite_branch (git : Repository) (Time : Type)
    (Format : Time -> string) (repoPath : string) (commits : list Commit)
    (newTimes : list Time) (parentCommitHash branchName rewriteBranchName
    newCommitAuthorName newCommitAuthorEmail : string) :
  let run := UpdateCommitTimes git Time Format repoPath commits newTimes
               parentCommitHash branchName rewriteBranchName
               newCommitAuthorName newCommitAuthorEmail [] in
  (forall n err,
      fst run = Failed n err ->
      n = successfulAmends (snd run)
      /\ deletions rewriteBranchName (snd run) = [])
  /\ (deletions rewriteBranchName (snd run) <> [] ->
      fst run = Done (Z.of_nat (length commits))
      /\ successfulAmends (snd run) = Z.of_nat (length commits)
      /\ exists pre switched deleted,
          snd run
          = pre ++ [mkEvent (gitIn repoPath ["checkout"; "-B"; branchName]%string)
                      (Success switched);
                    mkEvent (gitIn repoPath ["branch"; "-D"; rewriteBranchName]%string)
                      (Success deleted)]
          /\ deletions rewriteBranchName pre = []).
Proof.
  cbv zeta.
  pose proof (run_post git Time Format repoPath parentCommitHash branchName
                rewriteBranchName newCommitAuthorName newCommitAuthorEmail
                commits newTimes) as [_ Hpost].
  cbv zeta in Hpost. split.
  - intros n err Hfail. rewrite Hfail in Hpost.
    destruct Hpost as (Hn & Hdel & _). auto.
  - intros Hdel.
    destruct (fst (UpdateCommitTimes _ _ _ _ _ _ _ _ _ _ _ _)) as [n|n err|].
    + destruct Hpost as (-> & Hs & Hshape). auto.
    + destruct Hpost as (_ & Hnone & _). contradiction.
    + contradiction.
Qed.

Section AmendFacts.

Variable Time : Type.
Variable Format : Time -> string.
Variables repoPath newCommitAuthorName newCommitAuthorEmail : string.

Let amendFor : Time -> Command :=
  amendCommand Time Format repoPath newCommitAuthorName newCommitAuthorEmail.

Lemma amendFor_dates t :
  amendedAuthorDate (amendFor t) = Some (Format t)
  /\ amendedCommitterDate (amendFor t) = Some (Format t).
Proof.
  unfold amendFor, amendCommand.
  destruct newCommitAuthorName, newCommitAuthorEmail; split; reflexivity.
Qed.

Lemma amendFor_author ambient original t :
  newCommitAuthorName = EmptyString -> newCommitAuthorEmail = EmptyString ->
  amendedAuthor ambient original (amendFor t) = ambient.
Proof.
  intros Hn He. unfold amendFor, amendCommand. rewrite Hn, He.
  destruct ambient. reflexivity.
Qed.

Lemma amends_in_step (P : Commit -> Time -> Command -> Prop) :
  (forall commit t, P commit t (amendFor t)) ->
  forall k commits newTimes,
    (k <= length commits)%nat -> (k <= length newTimes)%nat ->
    Forall2 (fun ct c => P (fst ct) (snd ct) c)
            (firstn k (combine commits newTimes))
            (map amendFor (firstn k newTimes)).
Proof.
  intros HP. induction k as [|k IH]; intros commits newTimes Hc Ht.
  - constructor.
  - destruct commits as [|commit commits]; [simpl in Hc; lia|].
    destruct newTimes as [|t newTimes]; [simpl in Ht; lia|].
    simpl. constructor; [apply HP|]. apply IH; simpl in *; lia.
Qed.

End AmendFacts.

Lemma cherry_pick_fatal_after_recovery_witness :
  fst conflictRun = Failed 1 (CherryPickFailed "bad2")
  /\ exists pre tail,
       snd conflictRun = pre ++ tail
       /\ recoveryAsBuilt "repo" "bad2" tail
       /\ 1 = successfulAmends pre.
Proof.
  split; [reflexivity|].
  apply (cherry_pick_fatal_after_recovery conflictingGit string (fun t => t) "repo"
           [regularCommit "good1" "Ann" "ann@example.com";
            regularCommit "bad2" "Ann" "ann@example.com"]
           ["2024-01-01T09:00:00"; "2024-01-01T16:59:00"]%string
           "p0" "main" "rewrite-history" EmptyString EmptyString
           1 "bad2"%string).
  reflexivity.
Defined.

(** C8, as stated, fails when no cherry-pick is in progress: the run on
    [cleanTreeGit] ends with the fatal error after the failed cherry-pick, the
    status and the failed second attempt allowing an empty result; neither
    the skip nor the abort was attempted. *)
Lemma fatal_without_skip_when_nothing_in_progress :
  fst cleanTreeRun = Failed 0 (CherryPickFailed "c1")
  /\ ~ fatalOnlyAfter recoveryAsStated cleanTreeGit string (fun t => t) "repo"
         [regularCommit "c1" "Ann" "ann@example.com"]
         ["2024-01-01T18:30:00"%string]
         emptyTreeHash "main" "rewrite-history" EmptyString EmptyString.
Proof.
  split; [reflexivity|]. intros H.
  destruct (H 0 "c1"%string eq_refl)
    as (pre & tail & Htr & (status & aborted & Hshape) & _).
  apply (f_equal (@length Event)) in Htr. rewrite length_app in Htr.
  destruct Hshape as [[_ ->] | [_ ->]]; simpl in Htr; lia.
Qed.

Lemma failure_keeps_rewrite_branch_witness :
  fst conflictRun = Failed 1 (CherryPickFailed "bad2")
  /\ 1 = successfulAmends (snd conflictRun)
  /\ deletions "rewrite-history" (snd conflictRun) = [].
Proof.
  split; [reflexivity|].
  apply (proj1 (failure_keeps_rewrite_branch conflictingGit string (fun t => t)
                  "repo"
                  [regularCommit "good1" "Ann" "ann@example.com";
                   regularCommit "bad2" "Ann" "ann@example.com"]
                  ["2024-01-01T09:00:00"; "2024-01-01T16:59:00"]%string
                  "p0" "main" "rewrite-history" EmptyString EmptyString)
           1 (CherryPickFailed "bad2")).
  reflexivity.
Defined.

(** C1.  Bob rewrites a commit of Alice without an author override.  The
    run succeeds, and its one amend sets the author date and the committer
    date to the planned timestamp.  But the amend runs with [--reset-author]
    and with no author in its environment, so the author that git records
    for the rewritten commit is Bob and not Alice: the original identity,
    which the claim and the documentation of the override ("preserve
    original") promise to keep, is lost. *)
Theorem amend_does_not_keep_original_author :
  fst aliceRun = Done 1
  /\ exists c,
       amendCommands (snd aliceRun) = [c]
       /\ amendedAuthorDate c = Some "2024-01-01T18:30:00"%string
       /\ amendedCommitterDate c = Some "2024-01-01T18:30:00"%string
       /\ resetsAuthor c = true
       /\ getenv "GIT_AUTHOR_NAME" (env c) = None
       /\ getenv "GIT_AUTHOR_EMAIL" (env c) = None
       /\ amendedAuthor bob
            (authorOf (regularCommit "a1" "Alice" "alice@example.com")) c
          = bob
       /\ bob <> authorOf (regularCommit "a1" "Alice" "alice@example.com").
Proof.
  split; [reflexivity|]. eexists. split; [reflexivity|].
  repeat split; try reflexivity. discriminate.
Qed.

(** ** Computations on the repository, step by step *)

Section Yields.

Variable git : Repository.

Lemma yields_ret {A : Type} (a : A) (Q : A -> list Event -> Prop) :
  Q a [] -> yields (Git.ret a) Q.
Proof.
  intros H tr. exists a, []. rewrite app_nil_r. split; [reflexivity | exact H].
Qed.

Lemma yields_bind {A B : Type} (c : X A) (k : A -> X B)
    (Q1 : A -> list Event -> Prop) (Q : B -> list Event -> Prop) :
  yields c Q1 ->
  (forall a evs1, Q1 a evs1 ->
     yields (k a) (fun b evs2 => Q b (evs1 ++ evs2))) ->
  yields (Git.bind c k) Q.
Proof.
  intros Hc Hk tr. destruct (Hc tr) as (a & evs1 & Hrun & H1).
  destruct (Hk a evs1 H1 (tr ++ evs1)) as (b & evs2 & Hrun2 & H2).
  exists b, (evs1 ++ evs2). unfold Git.bind.
  rewrite Hrun, Hrun2, app_assoc. auto.
Qed.

Lemma yields_weaken {A : Type} (c : X A) (Q Q' : A -> list Event -> Prop) :
  yields c Q -> (forall a evs, Q a evs -> Q' a evs) -> yields c Q'.
Proof.
  intros Hc Himp tr. destruct (Hc tr) as (a & evs & Hrun & H). eauto.
Qed.

Lemma yields_exec (c : Command) :
  yields (exec git c) (fun r evs => evs = [mkEvent c r]).
Proof. intros tr. unfold exec. eauto. Qed.

Lemma yields_run (repoPath a : string) (rest : list string) :
  yields (runGitCommand git repoPath (a :: rest))
    (fun out evs =>
       exists r, evs = [mkEvent (gitIn repoPath (a :: rest)) r]
                 /\ out = match r with Success o => Some o | Failure => None end).
Proof.
  intros tr. rewrite runGitCommand_cons.
  do 2 eexists. split; [reflexivity|]. eexists. split; reflexivity.
Qed.

(** Events that all satisfy [P] compose. *)
Lemma yields_all_bind {A B : Type} (P : Event -> Prop) (c : X A) (k : A -> X B) :
  yields c (fun _ evs => Forall P evs) ->
  (forall a, yields (k a) (fun _ evs => Forall P evs)) ->
  yields (Git.bind c k) (fun _ evs => Forall P evs).
Proof.
  intros Hc Hk. eapply yields_bind; [exact Hc|].
  intros a evs1 H1. eapply yields_weaken; [apply Hk|].
  intros b evs2 H2. apply Forall_app. auto.
Qed.

End Yields.

(** Runs the next git command of a computation and splits on its answer. *)
Ltac run_command :=
  eapply yields_bind; [apply yields_run|];
  let r := fresh "r" in
  let out := fresh "out" in
  intros ? ? (r & -> & ->); destruct r as [out|]; cbn beta iota.

(** ** The History Rewrite Executor: what it runs and when it stops *)

(** Settles that the events added are steps of a rewrite. *)
Ltac step_ok :=
  split; [reflexivity|];
  first [ left; split; [reflexivity | simpl; intuition reflexivity]
        | right; left; reflexivity
        | right; right; split; reflexivity ].

Ltac steps_ok :=
  simpl app; repeat (apply Forall_cons; [step_ok|]); apply Forall_nil.

Section ExecutorSteps.

Variable git : Repository.
Variable Time : Type.
Variable Format : Time -> string.
Variables repoPath branchName rewriteBranchName : string.
Variables newCommitAuthorName newCommitAuthorEmail : string.

(** What applying a commit comes to: the events are steps of a rewrite; a
    panic is the abbreviation of a merge source of fewer than eight bytes;
    the error of a missing merge source is that of a merge commit without
    one. *)
Let applied (commit : Commit) (r : Applied) (evs : list Event) : Prop :=
  Forall (rewriteStep repoPath rewriteBranchName) evs
  /\ (r = ApplyPanicked ->
      IsMerge commit = true /\ GoStrings.len (MergeFrom commit) < 8)
  /\ (forall hash, r = ApplyFailed (MergeHasNoSource hash) ->
      IsMerge commit = true /\ MergeFrom commit = EmptyString
      /\ hash = Hash commit).

Lemma applyCherryPick_facts commit :
  IsMerge commit = false ->
  yields (applyCherryPick git repoPath commit) (applied commit).
Proof.
  intros Hm. unfold applyCherryPick, applied.
  run_command.
  { apply yields_ret. split; [steps_ok|]. split; discriminate. }
  run_command.
  - destruct (GoStrings.Contains _ _).
    + run_command.
      { apply yields_ret. split; [steps_ok|]. split; discriminate. }
      run_command.
      { apply yields_ret. split; [steps_ok|]. split; discriminate. }
      eapply yields_bind; [apply yields_run|]. intros ? ? (r & -> & ->).
      run_command.
      { apply yields_ret. split; [steps_ok|]. split; discriminate. }
      apply yields_ret. split; [steps_ok|]. split; discriminate.
    + run_command.
      { apply yields_ret. split; [steps_ok|]. split; discriminate. }
      apply yields_ret. split; [steps_ok|]. split; discriminate.
  - run_command.
    { apply yields_ret. split; [steps_ok|]. split; discriminate. }
    apply yields_ret. split; [steps_ok|]. split; discriminate.
Qed.

Lemma isEmpty_true s : GoStrings.isEmpty s = true -> s = EmptyString.
Proof. destruct s; [reflexivity | discriminate]. Qed.

Lemma applyMerge_facts commit :
  IsMerge commit = true ->
  yields (applyMerge git repoPath branchName commit) (applied commit).
Proof.
  intros Hm. unfold applyMerge, applied, GetCommitMessage.
  destruct (GoStrings.isEmpty (MergeFrom commit)) eqn:Eempty.
  { apply yields_ret. split; [constructor|]. split; [discriminate|].
    intros hash E. inversion E; subst.
    split; [exact Hm|]. split; [now apply isEmpty_true | reflexivity]. }
  run_command.
  2:{ apply yields_ret. split; [steps_ok|]. split; discriminate. }
  destruct (GoStrings.isEmpty (extractBranchNameFromMergeMessage _)).
  - destruct (Z.ltb_spec (GoStrings.len (MergeFrom commit)) 8).
    + apply yields_ret. split; [steps_ok|]. split; [auto | discriminate].
    + run_command; apply yields_ret; (split; [steps_ok|]); split; discriminate.
  - run_command; apply yields_ret; (split; [steps_ok|]); split; discriminate.
Qed.

Lemma apply_facts commit :
  yields (if IsMerge commit then applyMerge git repoPath branchName commit
          else applyCherryPick git repoPath commit) (applied commit).
Proof.
  destruct (IsMerge commit) eqn:Hm;
    [now apply applyMerge_facts | now apply applyCherryPick_facts].
Qed.

(** What a run comes to, whatever its outcome. *)
Let ran (commits : list Commit) (newTimes : list Time) (o : Outcome)
    (evs : list Event) : Prop :=
  Forall (rewriteStep repoPath rewriteBranchName) evs
  /\ (o = Panicked ->
      (length newTimes < length commits)%nat
      \/ Exists (fun commit => IsMerge commit = true
                               /\ GoStrings.len (MergeFrom commit) < 8) commits)
  /\ (forall n hash, o = Failed n (MergeHasNoSource hash) ->
      Exists (fun commit => IsMerge commit = true
                            /\ MergeFrom commit = EmptyString
                            /\ hash = Hash commit) commits).

Lemma replay_facts commits :
  forall newTimes n,
    yields (replay git Time Format repoPath branchName newCommitAuthorName
              newCommitAuthorEmail commits newTimes n) (ran commits newTimes).
Proof.
  induction commits as [|commit commits' IH]; intros newTimes n; cbn [replay].
  { apply yields_ret. split; [constructor|]. split; discriminate. }
  destruct newTimes as [|newTime newTimes'].
  { apply yields_ret. split; [constructor|].
    split; [intros _; left; simpl; lia | discriminate]. }
  eapply yields_bind; [apply apply_facts|].
  intros r evs1 (Hsteps & Hpanic & Hsource).
  destruct r as [|err|].
  - eapply yields_bind; [apply yields_exec|]. intros amended evs2 ->.
    assert (Hamend : rewriteStep repoPath rewriteBranchName
                       (mkEvent (amendCommand Time Format repoPath
                                   newCommitAuthorName newCommitAuthorEmail
                                   newTime) amended)).
    { split; [reflexivity|]. right; left. reflexivity. }
    destruct amended as [out|].
    + eapply yields_weaken; [apply IH|].
      intros o evs3 (Hsteps3 & Hpanic3 & Hsource3).
      split; [|split].
      * apply Forall_app. split; [exact Hsteps|].
        apply Forall_app. split; [repeat constructor; exact Hamend | exact Hsteps3].
      * intros E. destruct (Hpanic3 E) as [Hshort|Hex];
          [left; simpl; lia | right; now apply Exists_cons_tl].
      * intros n' hash E. apply Exists_cons_tl. eapply Hsource3; exact E.
    + apply yields_ret. split; [|split; discriminate].
      apply Forall_app. split; [exact Hsteps|].
      apply Forall_app. split; [repeat constructor; exact Hamend | constructor].
  - apply yields_ret. rewrite app_nil_r. split; [exact Hsteps|].
    split; [discriminate|]. intros n' hash E. inversion E; subst.
    apply Exists_cons_hd. now apply Hsource.
  - apply yields_ret. rewrite app_nil_r. split; [exact Hsteps|].
    split; [|discriminate]. intros _. right. apply Exists_cons_hd.
    now apply Hpanic.
Qed.

Lemma UpdateCommitTimes_facts parentCommitHash commits newTimes :
  yields (UpdateCommitTimes git Time Format repoPath commits newTimes
            parentCommitHash branchName rewriteBranchName
            newCommitAuthorName newCommitAuthorEmail) (ran commits newTimes).
Proof.
  assert (Hfrom : yields (onRewriteBranch git Time Format repoPath commits
                            newTimes branchName rewriteBranchName
                            newCommitAuthorName newCommitAuthorEmail)
                    (ran commits newTimes)).
  { unfold onRewriteBranch. run_command.
    2:{ apply yields_ret. split; [steps_ok|]. split; discriminate. }
    eapply yields_bind; [apply replay_facts|].
    intros o evs1 (Hsteps & Hpanic & Hsource).
    assert (Hpre : forall post,
               Forall (rewriteStep repoPath rewriteBranchName) post ->
               Forall (rewriteStep repoPath rewriteBranchName)
                 ([mkEvent (gitIn repoPath ["checkout"; "-b"; rewriteBranchName]%string)
                     (Success out)] ++ evs1 ++ post)).
    { intros post Hpost. apply Forall_app. split; [steps_ok|].
      apply Forall_app. auto. }
    destruct o as [n|n err|].
    - unfold swapBranches. run_command.
      + run_command; apply yields_ret;
          (split; [apply Hpre; steps_ok|]); split; discriminate.
      + apply yields_ret. split; [apply Hpre; steps_ok|]. split; discriminate.
    - apply yields_ret. split; [apply Hpre; constructor|].
      split; [discriminate | exact Hsource].
    - apply yields_ret. split; [apply Hpre; constructor|].
      split; [exact Hpanic | discriminate]. }
  unfold UpdateCommitTimes.
  destruct (String.eqb parentCommitHash emptyTreeHash).
  - apply (yields_bind _ _ (fun a evs => a = Some EmptyString /\ evs = []));
      [apply yields_ret; auto|].
    intros a evs1 [-> ->]. exact Hfrom.
  - run_command.
    + eapply yields_weaken; [exact Hfrom|].
      intros o evs (Hsteps & Hpanic & Hsource).
      split; [|split; assumption].
      apply Forall_app. split; [steps_ok | exact Hsteps].
    + apply yields_ret. split; [steps_ok|]. split; discriminate.
Qed.

End ExecutorSteps.

Lemma successfulAmends_le (tr : Trace) :
  successfulAmends tr <= Z.of_nat (length (amendCommands tr)).
Proof.
  unfold successfulAmends, amendCommands. rewrite length_map.
  induction tr as [|e tr IH]; simpl; [lia|].
  destruct (isAmend e); simpl; [|exact IH].
  destruct (succeeded e); simpl; lia.
Qed.

(** X1.  Whatever the repository answers and whatever the outcome, every
    command [UpdateCommitTimes] runs is run in the given repository and is a
    checkout, a log, a merge, a cherry-pick or a status with the inherited
    environment, the amend [commit --amend --no-edit --reset-author], or the
    deletion [branch -D] of the rewrite branch: it never pushes, fetches,
    resets or rebases. *)
Theorem executor_runs_only_rewrite_steps (git : Repository) (Time : Type)
    (Format : Time -> string) (repoPath : string) (commits : list Commit)
    (newTimes : list Time) (parentCommitHash branchName rewriteBranchName
    newCommitAuthorName newCommitAuthorEmail : string) :
  Forall (rewriteStep repoPath rewriteBranchName)
    (snd (UpdateCommitTimes git Time Format repoPath commits newTimes
            parentCommitHash branchName rewriteBranchName
            newCommitAuthorName newCommitAuthorEmail [])).
Proof.
  destruct (UpdateCommitTimes_facts git Time Format repoPath branchName
              rewriteBranchName newCommitAuthorName newCommitAuthorEmail
              parentCommitHash commits newTimes [])
    as (o & evs & Hrun & Hsteps & _).
  rewrite Hrun. exact Hsteps.
Qed.

(** X2.  [UpdateCommitTimes] does not panic when there is a planned
    timestamp for every commit and the source of every merge commit has at
    least eight bytes: the index [newTimes[i]] and the abbreviation
    [commit.MergeFrom[:8]] are its only panics. *)
Theorem executor_does_not_panic (git : Repository) (Time : Type)
    (Format : Time -> string) (repoPath : string) (commits : list Commit)
    (newTimes : list Time) (parentCommitHash branchName rewriteBranchName
    newCommitAuthorName newCommitAuthorEmail : string) :
  (length commits <= length newTimes)%nat ->
  Forall abbreviable commits ->
  fst (UpdateCommitTimes git Time Format repoPath commits newTimes
         parentCommitHash branchName rewriteBranchName
         newCommitAuthorName newCommitAuthorEmail []) <> Panicked.
Proof.
  intros Hlen Hmerge.
  destruct (UpdateCommitTimes_facts git Time Format repoPath branchName
              rewriteBranchName newCommitAuthorName newCommitAuthorEmail
              parentCommitHash commits newTimes [])
    as (o & evs & Hrun & _ & Hpanic & _).
  rewrite Hrun. simpl fst. intros E.
  destruct (Hpanic E) as [Hshort|Hex]; [lia|].
  apply Exists_exists in Hex. destruct Hex as (commit & Hin & Hm & Hl).
  rewrite Forall_forall in Hmerge. specialize (Hmerge commit Hin Hm). lia.
Qed.

Lemma executor_does_not_panic_witness :
  fst (UpdateCommitTimes agreeableGit string (fun t => t) "repo"
         [regularCommit "a1" "Alice" "alice@example.com";
          mkCommit "m2" "Merge branch 'topic'" "Alice" "alice@example.com"
            "2024-01-01 21:45:00 +0000" true "0a1b2c3d"]
         ["2024-01-01T16:29:00"; "2024-01-01T16:59:00"]%string
         "p0" "main" "rewrite-history" EmptyString EmptyString [])
  <> Panicked.
Proof.
  apply (executor_does_not_panic agreeableGit string (fun t => t) "repo"
           [regularCommit "a1" "Alice" "alice@example.com";
            mkCommit "m2" "Merge branch 'topic'" "Alice" "alice@example.com"
              "2024-01-01 21:45:00 +0000" true "0a1b2c3d"]
           ["2024-01-01T16:29:00"; "2024-01-01T16:59:00"]%string
           "p0" "main" "rewrite-history" EmptyString EmptyString).
  - simpl. lia.
  - repeat apply Forall_cons; [discriminate | intros _; vm_compute; discriminate
                              | apply Forall_nil].
Defined.

(** X3.  When [UpdateCommitTimes] returns without an error, the count it
    returns is the number of commits, there was a planned timestamp for each
    of them, and the amends of the run are exactly those of the commits, in
    order, each with its own planned timestamp, and every one of them
    succeeded. *)
Theorem successful_run_amends_every_commit (git : Repository) (Time : Type)
    (Format : Time -> string) (repoPath : string) (commits : list Commit)
    (newTimes : list Time) (parentCommitHash branchName rewriteBranchName
    newCommitAuthorName newCommitAuthorEmail : string) (n : Z) :
  fst (UpdateCommitTimes git Time Format repoPath commits newTimes
         parentCommitHash branchName rewriteBranchName
         newCommitAuthorName newCommitAuthorEmail []) = Done n ->
  n = Z.of_nat (length commits)
  /\ (length commits <= length newTimes)%nat
  /\ amendCommands
       (snd (UpdateCommitTimes git Time Format repoPath commits newTimes
               parentCommitHash branchName rewriteBranchName
               newCommitAuthorName newCommitAuthorEmail []))
     = map (amendCommand Time Format repoPath newCommitAuthorName
              newCommitAuthorEmail) (firstn (length commits) newTimes)
  /\ successfulAmends
       (snd (UpdateCommitTimes git Time Format repoPath commits newTimes
               parentCommitHash branchName rewriteBranchName
               newCommitAuthorName newCommitAuthorEmail [])) = n.
Proof.
  intros Hdone.
  pose proof (run_post git Time Format repoPath parentCommitHash branchName
                rewriteBranchName newCommitAuthorName newCommitAuthorEmail
                commits newTimes) as [(k & Hc & Ht & Hk) Hpost].
  cbv zeta in Hpost, Hk. rewrite Hdone in Hpost.
  destruct Hpost as (Hn & Hs & _).
  pose proof (successfulAmends_le
                (snd (UpdateCommitTimes git Time Format repoPath commits
                        newTimes parentCommitHash branchName rewriteBranchName
                        newCommitAuthorName newCommitAuthorEmail []))) as Hle.
  rewrite Hk, length_map, firstn_length_le in Hle by exact Ht.
  assert (Hkn : k = length commits) by lia. subst k.
  repeat split; auto.
Qed.

Lemma successful_run_amends_every_commit_witness :
  1 = Z.of_nat (length [regularCommit "a1" "Alice" "alice@example.com"])
  /\ (length [regularCommit "a1" "Alice" "alice@example.com"]
      <= length ["2024-01-01T18:30:00"%string])%nat
  /\ amendCommands (snd aliceRun)
     = map (amendCommand string (fun t => t) "repo" EmptyString EmptyString)
         (firstn (length [regularCommit "a1" "Alice" "alice@example.com"])
            ["2024-01-01T18:30:00"%string])
  /\ successfulAmends (snd aliceRun) = 1.
Proof.
  apply (successful_run_amends_every_commit agreeableGit string (fun t => t)
           "repo" [regularCommit "a1" "Alice" "alice@example.com"]
           ["2024-01-01T18:30:00"%string]
           "p0" "main" "rewrite-history" EmptyString EmptyString 1).
  reflexivity.
Defined.

(** X4.  Whatever author override is configured, the author of every
    commit the executor amends is the override: the configured name and the
    configured email where they are not empty, and for the part left empty
    the identity git finds for the user who runs the tool; the author of the
    original commit is never used. *)
Theorem amend_author_is_the_override (git : Repository) (Time : Type)
    (Format : Time -> string) (repoPath : string) (commits : list Commit)
    (newTimes : list Time) (parentCommitHash branchName rewriteBranchName
    newCommitAuthorName newCommitAuthorEmail : string) (ambient : Identity) :
  everyAmend Time
    (fun commit _ c =>
       amendedAuthor ambient (authorOf commit) c
       = overriddenAuthor ambient newCommitAuthorName newCommitAuthorEmail)
    commits newTimes
    (snd (UpdateCommitTimes git Time Format repoPath commits newTimes
            parentCommitHash branchName rewriteBranchName
            newCommitAuthorName newCommitAuthorEmail [])).
Proof.
  pose proof (run_post git Time Format repoPath parentCommitHash branchName
                rewriteBranchName newCommitAuthorName newCommitAuthorEmail
                commits newTimes) as [(k & Hc & Ht & Hk) _].
  exists k. split; [exact Hc|]. split; [exact Ht|]. rewrite Hk.
  apply (amends_in_step Time Format repoPath newCommitAuthorName
           newCommitAuthorEmail
           (fun commit _ c =>
              amendedAuthor ambient (authorOf commit) c
              = overriddenAuthor ambient newCommitAuthorName
                  newCommitAuthorEmail)); [|exact Hc|exact Ht].
  intros commit t. unfold amendCommand, overriddenAuthor.
  destruct newCommitAuthorName, newCommitAuthorEmail, ambient; reflexivity.
Qed.

(** ** The parser of the log *)

Import GoStrings.

Section SplitFacts.

Variable sep : ascii -> bool.

Lemma splitAt_not_nil s : splitAt sep s <> [].
Proof.
  destruct s as [|c s]; simpl; [discriminate|].
  destruct (sep c); [discriminate|]. destruct (splitAt sep s); discriminate.
Qed.

(** No piece holds a separator. *)
Lemma splitAt_free s : Forall (fun w => free sep w = true) (splitAt sep s).
Proof.
  induction s as [|c s IH]; simpl; [repeat constructor|].
  destruct (sep c) eqn:E; [constructor; [reflexivity | exact IH]|].
  destruct (splitAt sep s) as [|w ws]; [repeat constructor; simpl; now rewrite E|].
  inversion IH; subst. constructor; [simpl; now rewrite E | assumption].
Qed.

End SplitFacts.

Lemma Fields_words s :
  Forall (fun w => w <> EmptyString /\ free isSpace w = true) (Fields s).
Proof.
  unfold Fields. apply Forall_forall. intros w Hin.
  apply filter_In in Hin. destruct Hin as [Hin Hne].
  split; [intros ->; discriminate|].
  pose proof (splitAt_free isSpace s) as Hfree.
  rewrite Forall_forall in Hfree. now apply Hfree.
Qed.

Lemma parseCommitLine_sourced line commit :
  parseCommitLine line = Some commit -> sourcedMerge commit.
Proof.
  unfold parseCommitLine.
  destruct (6 <=? Z.of_nat (length (splitAt (Ascii.eqb "|") line)));
    [|discriminate].
  set (parentHashes := Fields (nth 5 (splitAt (Ascii.eqb "|") line) EmptyString)).
  intros E. inversion E; subst commit; clear E. unfold sourcedMerge.
  cbn [IsMerge MergeFrom].
  destruct (Z.ltb_spec 1 (Z.of_nat (length parentHashes))) as [Hlt|Hge];
    [|reflexivity].
  destruct (Z.leb_spec 2 (Z.of_nat (length parentHashes))); [|lia].
  cbn [andb].
  pose proof (Fields_words
                (nth 5 (splitAt (Ascii.eqb "|") line) EmptyString)) as Hwords.
  fold parentHashes in Hwords. rewrite Forall_forall in Hwords.
  apply Hwords. apply nth_In. lia.
Qed.

Lemma parseCommitLines_sourced lines :
  Forall sourcedMerge (parseCommitLines lines).
Proof.
  induction lines as [|line lines IH]; simpl; [constructor|].
  destruct (parseCommitLine line) as [commit|] eqn:E; [|exact IH].
  constructor; [now apply (parseCommitLine_sourced line) | exact IH].
Qed.

Lemma parseCommitsWithMergeInfo_sourced output :
  Forall sourcedMerge (parseCommitsWithMergeInfo output).
Proof.
  unfold parseCommitsWithMergeInfo.
  destruct (len output =? 0); [constructor|].
  destruct ((Z.of_nat (length (SplitLines (TrimSpace output))) =? 1)
            && isEmpty (hd EmptyString (SplitLines (TrimSpace output))));
    [constructor | apply parseCommitLines_sourced].
Qed.

(** X5.  In every commit that [parseCommitsWithMergeInfo] returns, whatever
    the output of the log, [IsMerge] is set exactly when [MergeFrom] is not
    empty, and a merge source is a single word without white space. *)
Theorem parsed_merges_have_a_source (output : string) :
  Forall sourcedMerge (parseCommitsWithMergeInfo output)
  /\ Forall (fun commit => IsMerge commit = true
                           <-> MergeFrom commit <> EmptyString)
       (parseCommitsWithMergeInfo output).
Proof.
  split; [apply parseCommitsWithMergeInfo_sourced|].
  eapply Forall_impl; [|apply parseCommitsWithMergeInfo_sourced].
  intros commit. unfold sourcedMerge. destruct (IsMerge commit).
  - intros [Hne _]. tauto.
  - intros ->. split; [discriminate | congruence].
Qed.

(** *** Strings without a separator *)

Section FreeFacts.

Local Open Scope string_scope.

Lemma free_app p a b : free p (a ++ b) = free p a && free p b.
Proof.
  induction a as [|c a IH]; simpl; [reflexivity|].
  now rewrite IH, andb_assoc.
Qed.

Lemma free_weaken (p q : ascii -> bool) s :
  (forall c, q c = true -> p c = true) ->
  free p s = true -> free q s = true.
Proof.
  intros Hqp. induction s as [|c s IH]; simpl; [reflexivity|].
  rewrite !andb_true_iff, !negb_true_iff. intros [Hc Hs]. split; [|auto].
  destruct (q c) eqn:E; [|reflexivity]. apply Hqp in E. congruence.
Qed.

Lemma append_not_empty a b : b <> "" -> a ++ b <> "".
Proof. destruct a; simpl; [auto | discriminate]. Qed.

Lemma trimRight_cons c b :
  b <> "" -> trimRight b = b -> trimRight (String c b) = String c b.
Proof.
  intros Hne Hb. simpl. rewrite Hb. destruct b; [contradiction | reflexivity].
Qed.

Lemma trimRight_app a b :
  b <> "" -> trimRight b = b -> trimRight (a ++ b) = a ++ b.
Proof.
  intros Hne Hb. induction a as [|c a IH]; simpl append; [exact Hb|].
  apply trimRight_cons; [now apply append_not_empty | exact IH].
Qed.

Lemma trimRight_word w : free isSpace w = true -> trimRight w = w.
Proof.
  induction w as [|c w IH]; simpl; [reflexivity|].
  rewrite andb_true_iff, negb_true_iff. intros [Hc Hw].
  rewrite (IH Hw). destruct w; [now rewrite Hc | reflexivity].
Qed.

Lemma splitAt_app_sep sep a c b :
  sep c = true ->
  splitAt sep (a ++ String c b) = (splitAt sep a ++ splitAt sep b)%list.
Proof.
  intros Hc. induction a as [|x a IH]; simpl; [now rewrite Hc|].
  destruct (sep x); [now rewrite IH|].
  rewrite IH. pose proof (splitAt_not_nil sep a) as Hne.
  destruct (splitAt sep a); [contradiction | reflexivity].
Qed.

Lemma splitAt_none sep s : free sep s = true -> splitAt sep s = [s].
Proof.
  induction s as [|c s IH]; simpl; [reflexivity|].
  rewrite andb_true_iff, negb_true_iff. intros [Hc Hs].
  now rewrite Hc, (IH Hs).
Qed.

Lemma joinWith_cons c l l2 rest :
  joinWith c (l :: l2 :: rest) = l ++ String c (joinWith c (l2 :: rest)).
Proof. reflexivity. Qed.

Lemma splitAt_join sep c lines :
  sep c = true -> lines <> [] ->
  Forall (fun l => free sep l = true) lines ->
  splitAt sep (joinWith c lines) = lines.
Proof.
  intros Hc. induction lines as [|l lines IH]; [contradiction|].
  intros _ Hall. inversion Hall as [|? ? Hl Hrest]; subst.
  destruct lines as [|l2 rest]; [now apply splitAt_none|].
  rewrite joinWith_cons. rewrite splitAt_app_sep by exact Hc.
  rewrite (splitAt_none sep l Hl), IH; [reflexivity | discriminate | exact Hrest].
Qed.

(** A list of words joined by a separator ends with its last word. *)
Lemma joinWith_trimmed c lines :
  lines <> [] ->
  Forall (fun l => l <> "" /\ trimRight l = l) lines ->
  joinWith c lines <> "" /\ trimRight (joinWith c lines) = joinWith c lines.
Proof.
  induction lines as [|l lines IH]; [contradiction|].
  intros _ Hall. inversion Hall as [|? ? [Hne Hl] Hrest]; subst.
  destruct lines as [|l2 rest]; [simpl; auto|].
  rewrite joinWith_cons. destruct IH as [IHne IHt]; [discriminate | exact Hrest |].
  split; [apply append_not_empty; discriminate|].
  apply trimRight_app; [discriminate|]. now apply trimRight_cons.
Qed.

Lemma free_joinWith p c lines :
  p c = false -> Forall (fun l => free p l = true) lines ->
  free p (joinWith c lines) = true.
Proof.
  intros Hc. induction lines as [|l lines IH]; [reflexivity|].
  intros Hall. inversion Hall as [|? ? Hl Hrest]; subst.
  destruct lines as [|l2 rest]; [exact Hl|].
  rewrite joinWith_cons. rewrite free_app, Hl. simpl. rewrite Hc. now apply IH.
Qed.

End FreeFacts.

(** *** From the log back to its commits *)

Section RoundTrip.

Local Open Scope string_scope.

Lemma filter_all {A : Type} (f : A -> bool) (l : list A) :
  Forall (fun x => f x = true) l -> filter f l = l.
Proof.
  induction 1 as [|x l Hx _ IH]; simpl; [reflexivity|]. now rewrite Hx, IH.
Qed.

Lemma bar_free_of_field s : free isBarOrNewline s = true -> free (Ascii.eqb "|") s = true.
Proof.
  apply free_weaken. intros c E. unfold isBarOrNewline. now rewrite E.
Qed.

Lemma bar_free_of_hash s : free isBarOrSpace s = true -> free (Ascii.eqb "|") s = true.
Proof.
  apply free_weaken. intros c E. unfold isBarOrSpace. now rewrite E.
Qed.

Lemma space_free_of_hash s : free isBarOrSpace s = true -> free isSpace s = true.
Proof.
  apply free_weaken. intros c E. unfold isBarOrSpace. rewrite E.
  apply orb_true_r.
Qed.

Lemma newline_free_of_field s :
  free isBarOrNewline s = true -> free (Ascii.eqb newline) s = true.
Proof.
  apply free_weaken. intros c E. unfold isBarOrNewline. rewrite E.
  apply orb_true_r.
Qed.

Lemma newline_is_space c : Ascii.eqb newline c = true -> isSpace c = true.
Proof. intros E. apply Ascii.eqb_eq in E. subst c. reflexivity. Qed.

Lemma newline_free_of_hash s :
  free isBarOrSpace s = true -> free (Ascii.eqb newline) s = true.
Proof.
  apply free_weaken. intros c E. unfold isBarOrSpace.
  rewrite (newline_is_space c E). apply orb_true_r.
Qed.

Section Entry.

Variable e : LogEntry.
Hypothesis Hwf : wellFormed e.

Lemma parents_of_entry :
  Forall (fun p => p <> "" /\ free isBarOrSpace p = true) (entryParents e).
Proof. apply Hwf. Qed.

Lemma Fields_parents : Fields (joinWith " " (entryParents e)) = entryParents e.
Proof.
  pose proof parents_of_entry as Hp.
  destruct (entryParents e) as [|p rest] eqn:E; [reflexivity|].
  unfold Fields. rewrite splitAt_join; [|reflexivity|discriminate|].
  - apply filter_all. eapply Forall_impl; [|exact Hp].
    intros w [Hne _]. destruct w; [contradiction | reflexivity].
  - eapply Forall_impl; [|exact Hp].
    intros w [_ Hw]. now apply space_free_of_hash.
Qed.

Lemma free_parents p :
  p " "%char = false ->
  (forall s, free isBarOrSpace s = true -> free p s = true) ->
  free p (joinWith " " (entryParents e)) = true.
Proof.
  intros Hsp Hp. apply free_joinWith; [exact Hsp|].
  eapply Forall_impl; [|exact parents_of_entry]. intros w [_ Hw]. auto.
Qed.

Lemma splitAt_entry :
  splitAt (Ascii.eqb "|") (renderEntry e)
  = [entryHash e; entrySubject e; entryAuthor e; entryEmail e; entryDate e;
     joinWith " " (entryParents e)].
Proof.
  destruct Hwf as (Hh & Hs & Ha & Hm & Hd & _).
  unfold renderEntry. rewrite !splitAt_app_sep by reflexivity.
  rewrite (splitAt_none _ _ (bar_free_of_hash _ Hh)),
    (splitAt_none _ _ (bar_free_of_field _ Hs)),
    (splitAt_none _ _ (bar_free_of_field _ Ha)),
    (splitAt_none _ _ (bar_free_of_field _ Hm)),
    (splitAt_none _ _ (bar_free_of_field _ Hd)).
  rewrite splitAt_none; [reflexivity|].
  apply free_parents; [reflexivity | apply bar_free_of_hash].
Qed.

Lemma parseCommitLine_entry : parseCommitLine (renderEntry e) = Some (commitOf e).
Proof.
  unfold parseCommitLine. rewrite splitAt_entry. cbn [length nth].
  change (6 <=? Z.of_nat 6)%Z with true. cbn iota zeta.
  rewrite Fields_parents. unfold commitOf.
  destruct (entryParents e) as [|p1 [|p2 rest]]; try reflexivity.
  destruct (Z.ltb_spec 1 (Z.of_nat (length (p1 :: p2 :: rest))));
    [|simpl length in *; lia].
  destruct (Z.leb_spec 2 (Z.of_nat (length (p1 :: p2 :: rest))));
    [|simpl length in *; lia].
  reflexivity.
Qed.

Lemma renderEntry_newline_free : free (Ascii.eqb newline) (renderEntry e) = true.
Proof.
  destruct Hwf as (Hh & Hs & Ha & Hm & Hd & _).
  unfold renderEntry.
  repeat (rewrite free_app; cbn [free]).
  rewrite (newline_free_of_hash _ Hh), (newline_free_of_field _ Hs),
    (newline_free_of_field _ Ha), (newline_free_of_field _ Hm),
    (newline_free_of_field _ Hd).
  rewrite free_parents; [reflexivity | reflexivity | apply newline_free_of_hash].
Qed.

Lemma renderEntry_not_empty : renderEntry e <> "".
Proof. unfold renderEntry. apply append_not_empty. discriminate. Qed.

Lemma renderEntry_trimmed_right : trimRight (renderEntry e) = renderEntry e.
Proof.
  unfold renderEntry.
  repeat (apply trimRight_app; [discriminate|];
          apply trimRight_cons; [apply append_not_empty; discriminate|]).
  apply trimRight_app; [discriminate|].
  pose proof parents_of_entry as Hp.
  destruct (entryParents e) as [|p rest]; [reflexivity|].
  destruct (joinWith_trimmed " " (p :: rest)) as [Hne Ht]; [discriminate| |].
  { eapply Forall_impl; [|exact Hp]. intros w [Hw Hf].
    split; [exact Hw|]. now apply trimRight_word, space_free_of_hash. }
  now apply trimRight_cons.
Qed.

Lemma renderEntry_starts :
  exists c rest, renderEntry e = String c rest /\ isSpace c = false.
Proof.
  destruct Hwf as (Hh & _). unfold renderEntry.
  destruct (entryHash e) as [|c h]; simpl append; [eauto|].
  simpl in Hh. apply andb_true_iff in Hh. destruct Hh as [Hc _].
  apply negb_true_iff in Hc. unfold isBarOrSpace in Hc.
  apply orb_false_iff in Hc. destruct Hc as [_ Hc]. eauto.
Qed.

End Entry.

Lemma parseCommitLines_entries entries :
  Forall wellFormed entries ->
  parseCommitLines (map renderEntry entries) = map commitOf entries.
Proof.
  induction 1 as [|e entries He _ IH]; simpl; [reflexivity|].
  now rewrite (parseCommitLine_entry e He), IH.
Qed.

Lemma renderLog_starts e entries :
  wellFormed e ->
  exists c rest, renderLog (e :: entries) = String c rest /\ isSpace c = false.
Proof.
  intros He. destruct (renderEntry_starts e He) as (c & rest & E & Hc).
  unfold renderLog. cbn [map].
  destruct (map renderEntry entries) as [|l2 ls].
  - simpl. eauto.
  - rewrite joinWith_cons, E. simpl append. eauto.
Qed.

End RoundTrip.

(** X6.  Parsing what the log prints gives back its commits: for entries
    whose hashes hold no bar and no white space, whose other fields hold no
    bar and no new line, and whose parents are such hashes and not empty,
    [parseCommitsWithMergeInfo] returns one commit per line, in order, with
    the five fields as printed, [IsMerge] set for two parents or more, and
    the second parent as [MergeFrom]. *)
Theorem parse_of_rendered_log (entries : list LogEntry) :
  Forall wellFormed entries ->
  parseCommitsWithMergeInfo (renderLog entries) = map commitOf entries.
Proof.
  intros Hwf. destruct entries as [|e entries]; [reflexivity|].
  inversion Hwf as [|? ? He Hrest]; subst.
  assert (Hlines : Forall (fun l => l <> EmptyString /\ trimRight l = l)
                     (map renderEntry (e :: entries))).
  { apply Forall_map. eapply Forall_impl; [|exact Hwf]. intros x Hx.
    split; [now apply renderEntry_not_empty | now apply renderEntry_trimmed_right]. }
  destruct (joinWith_trimmed newline (map renderEntry (e :: entries)))
    as [Hne Hright]; [discriminate | exact Hlines |].
  fold (renderLog (e :: entries)) in Hne, Hright.
  destruct (renderLog_starts e entries He) as (c & rest & Estart & Hc).
  assert (Htrim : TrimSpace (renderLog (e :: entries)) = renderLog (e :: entries)).
  { unfold TrimSpace.
    replace (trimLeft (renderLog (e :: entries))) with (renderLog (e :: entries));
      [exact Hright|].
    rewrite Estart. simpl. now rewrite Hc. }
  assert (Hsplit : SplitLines (renderLog (e :: entries))
                   = map renderEntry (e :: entries)).
  { unfold SplitLines, renderLog.
    apply (splitAt_join _ newline); [reflexivity | discriminate|].
    apply Forall_map. eapply Forall_impl; [|exact Hwf]. intros x Hx.
    now apply renderEntry_newline_free. }
  unfold parseCommitsWithMergeInfo. rewrite Htrim, Hsplit.
  replace (len (renderLog (e :: entries)) =? 0) with false.
  2:{ unfold len. rewrite Estart. reflexivity. }
  cbn [map hd].
  destruct (renderEntry e) as [|c0 s0] eqn:Eentry;
    [now destruct (renderEntry_not_empty e)|].
  cbn [isEmpty]. rewrite andb_false_r.
  rewrite <- Eentry. change (renderEntry e :: map renderEntry entries)
    with (map renderEntry (e :: entries)).
  now apply parseCommitLines_entries.
Qed.

Lemma parse_of_rendered_log_witness :
  parseCommitsWithMergeInfo (renderLog mergeOnRoot) = map commitOf mergeOnRoot.
Proof.
  apply (parse_of_rendered_log mergeOnRoot).
  repeat constructor; discriminate.
Defined.

(** ** The readers of the repository *)

Lemma append_assoc (a b c : string) :
  String.append (String.append a b) c = String.append a (String.append b c).
Proof. induction a as [|x a IH]; simpl; [reflexivity | now rewrite IH]. Qed.

Lemma range_not_empty (base currentBranch : string) :
  isEmpty (String.append base (String.append ".." currentBranch)) = false.
Proof. destruct base; reflexivity. Qed.

(** Settles that the events added only read. *)
Ltac read_ok :=
  split; [reflexivity|]; split; [reflexivity|];
  first [ left; reflexivity | right; simpl; intuition reflexivity ].

Ltac reads_ok :=
  simpl app; repeat (apply Forall_cons; [read_ok|]); apply Forall_nil.

Section Readers.

Variable git : Repository.
Variable repoPath : string.

Lemma getCommits_facts commitRange :
  yields (getCommitsFirstParentWithMerges git repoPath commitRange)
    (fun commits evs =>
       exists r,
         evs = [mkEvent (if isEmpty commitRange
                         then gitIn repoPath
                                ["log"; "--first-parent";
                                 "--pretty=format:%h|%s|%an|%ae|%ad|%P";
                                 "--date=iso"]%string
                         else logOver repoPath commitRange) r]
         /\ commits = match r with
                      | Success output => Some (parseCommitsWithMergeInfo output)
                      | Failure => None
                      end).
Proof.
  intros tr. unfold getCommitsFirstParentWithMerges, Git.bind, Git.ret.
  destruct (isEmpty commitRange); rewrite runGitCommand_cons;
    do 2 eexists; (split; [reflexivity|]); eexists; (split; [reflexivity|]);
    destruct (git tr _); reflexivity.
Qed.

(** What the strategies of [GetUnpushedCommits] come to: they only read,
    their error is that of a log over a range, which failed last, and the
    commits they return come from the parser. *)
Let compared (r : Result (list Commit)) (evs : list Event) : Prop :=
  Forall (readOnly repoPath) evs
  /\ (forall err, r = Err err ->
      err = GetUnpushedCommitsFailed
      /\ raisedBy repoPath GetUnpushedCommitsFailed evs)
  /\ (forall commits, r = Ok commits -> Forall sourcedMerge commits).

Lemma compared_after (pre : list Event) r evs :
  Forall (readOnly repoPath) pre -> compared r evs -> compared r (pre ++ evs).
Proof.
  intros Hpre (Hread & Herr & Hok). split; [|split; [|exact Hok]].
  - apply Forall_app. auto.
  - intros err E. destruct (Herr err E) as (-> & p & base & cb & ->).
    split; [reflexivity|]. exists (pre ++ p), base, cb.
    now rewrite app_assoc.
Qed.

Lemma wholeHistory_facts : yields (wholeHistory git repoPath) compared.
Proof.
  unfold wholeHistory, compared.
  eapply yields_bind; [apply getCommits_facts|].
  intros commits evs (r & -> & ->). cbn [isEmpty].
  destruct r as [output|]; apply yields_ret; (split; [reads_ok|]);
    (split; [discriminate|]); intros commits E; inversion E; subst.
  - apply parseCommitsWithMergeInfo_sourced.
  - constructor.
Qed.

Lemma notIn_facts base currentBranch :
  yields (notIn git repoPath base currentBranch) compared.
Proof.
  unfold notIn, compared.
  eapply yields_bind; [apply getCommits_facts|].
  intros commits evs (r & -> & ->). rewrite range_not_empty.
  destruct r as [output|]; apply yields_ret; (split; [reads_ok|]).
  - split; [discriminate|]. intros commits E. inversion E; subst.
    apply parseCommitsWithMergeInfo_sourced.
  - split; [|discriminate]. intros err E. inversion E; subst.
    split; [reflexivity|]. exists [], base, currentBranch. reflexivity.
Qed.

Lemma compareWithRemotes_facts currentBranch remotesList :
  yields (compareWithRemotes git repoPath currentBranch remotesList)
    (fun found evs =>
       match found with
       | Some r => compared r evs
       | None => Forall (readOnly repoPath) evs
       end).
Proof.
  induction remotesList as [|remote remotesList IH]; cbn [compareWithRemotes].
  { apply yields_ret. constructor. }
  run_command.
  - eapply yields_bind; [apply getCommits_facts|].
    intros commits evs (r & -> & ->).
    assert (Hrange : (remote ++ "/" ++ currentBranch ++ ".." ++ currentBranch
                      = (remote ++ "/" ++ currentBranch) ++ ".." ++ currentBranch)%string)
      by now rewrite !append_assoc.
    rewrite Hrange, range_not_empty.
    destruct r as [output|]; apply yields_ret; (split; [reads_ok|]).
    + split; [discriminate|]. intros commits E. inversion E; subst.
      apply parseCommitsWithMergeInfo_sourced.
    + split; [|discriminate]. intros err E. inversion E; subst.
      split; [reflexivity|]. eexists [_], _, currentBranch. reflexivity.
  - eapply yields_weaken; [exact IH|]. intros found evs H.
    assert (Hpre : Forall (readOnly repoPath)
                     [mkEvent (gitIn repoPath
                                 ["rev-parse"%string; "--verify"%string;
                                  String.append remote
                                    (String.append "/" currentBranch)])
                        Failure]) by reads_ok.
    destruct found as [r|]; [now apply compared_after|].
    apply Forall_app. auto.
Qed.

Lemma withoutUpstream_facts parentGitBranchName currentBranch :
  yields (withoutUpstream git repoPath parentGitBranchName currentBranch)
    compared.
Proof.
  unfold withoutUpstream.
  eapply yields_bind; [apply yields_run|]. intros remotes evs (r & -> & ->).
  assert (Hremote : Forall (readOnly repoPath)
                      [mkEvent (gitIn repoPath ["remote"%string]) r]) by reads_ok.
  destruct (isEmpty (TrimSpace _)).
  { eapply yields_weaken; [apply wholeHistory_facts|].
    intros res evs H. now apply compared_after. }
  eapply yields_bind; [apply yields_run|]. intros origin evs (r2 & -> & ->).
  assert (Horigin : Forall (readOnly repoPath)
                      [mkEvent (gitIn repoPath
                                  ["rev-parse"%string; "--verify"%string;
                                   String.append "origin/" currentBranch]) r2])
    by reads_ok.
  destruct r2 as [out|].
  { eapply yields_weaken; [apply notIn_facts|].
    intros res evs H. now apply compared_after, compared_after. }
  eapply yields_bind; [apply compareWithRemotes_facts|].
  intros found evs Hfound. destruct found as [res|].
  { apply yields_ret. rewrite app_nil_r. now apply compared_after, compared_after. }
  eapply yields_bind; [apply getCommits_facts|].
  intros commits evs2 (r3 & -> & ->). rewrite range_not_empty.
  assert (Hlog : Forall (readOnly repoPath)
                   [mkEvent (logOver repoPath
                               (String.append parentGitBranchName
                                  (String.append ".." currentBranch))) r3])
    by reads_ok.
  destruct r3 as [output|].
  - apply yields_ret. rewrite app_nil_r.
    apply compared_after; [exact Hremote|].
    apply compared_after; [exact Horigin|].
    apply compared_after; [exact Hfound|].
    split; [exact Hlog|]. split; [discriminate|].
    intros commits E. inversion E; subst.
    apply parseCommitsWithMergeInfo_sourced.
  - eapply yields_weaken; [apply wholeHistory_facts|].
    intros res evs3 H.
    apply compared_after; [exact Hremote|].
    apply compared_after; [exact Horigin|].
    apply compared_after; [exact Hfound|].
    now apply compared_after.
Qed.

(** What [GetUnpushedCommits] comes to. *)
Let fetched (r : Result (list Commit)) (evs : list Event) : Prop :=
  Forall (readOnly repoPath) evs
  /\ (forall err, r = Err err -> raisedBy repoPath err evs)
  /\ (forall commits, r = Ok commits -> Forall sourcedMerge commits).

Lemma fetched_of_compared (pre : list Event) r evs :
  Forall (readOnly repoPath) pre -> compared r evs -> fetched r (pre ++ evs).
Proof.
  intros Hpre H. destruct (compared_after pre r evs Hpre H) as (Hread & Herr & Hok).
  split; [exact Hread|]. split; [|exact Hok].
  intros err E. destruct (Herr err E) as [-> Hraised]. exact Hraised.
Qed.

Lemma GetUnpushedCommits_facts parentGitBranchName :
  yields (GetUnpushedCommits git repoPath parentGitBranchName) fetched.
Proof.
  unfold GetUnpushedCommits.
  run_command.
  2:{ apply yields_ret. split; [reads_ok|]. split; [|discriminate].
      intros err E. inversion E; subst. reflexivity. }
  destruct (isEmpty (TrimSpace out)).
  { apply yields_ret. split; [reads_ok|]. split; [discriminate|].
    intros commits E. inversion E; subst. constructor. }
  run_command.
  2:{ apply yields_ret. split; [reads_ok|]. split; [discriminate|].
      intros commits E. inversion E; subst. constructor. }
  eapply yields_bind; [apply yields_run|]. intros upstream evs (r & -> & ->).
  assert (Hpre : Forall (readOnly repoPath)
            ([mkEvent (gitIn repoPath ["branch"; "--show-current"]%string)
                (Success out)]
             ++ [mkEvent (gitIn repoPath ["rev-parse"; "HEAD"]%string)
                   (Success out0)]
             ++ [mkEvent (gitIn repoPath
                            ["rev-parse"%string; "--abbrev-ref"%string;
                             String.append (TrimSpace out) "@{upstream}"]) r]))
    by reads_ok.
  destruct r as [upstreamOutput|].
  - eapply yields_weaken; [apply notIn_facts|]. intros res evs H.
    rewrite !app_assoc. apply fetched_of_compared; [|exact H].
    rewrite <- !app_assoc. exact Hpre.
  - eapply yields_weaken; [apply withoutUpstream_facts|]. intros res evs H.
    rewrite !app_assoc. apply fetched_of_compared; [|exact H].
    rewrite <- !app_assoc. exact Hpre.
Qed.

End Readers.

Lemma trimRight_idempotent s : trimRight (trimRight s) = trimRight s.
Proof.
  induction s as [|c s IH]; simpl; [reflexivity|].
  destruct (trimRight s) as [|c' r] eqn:E.
  - destruct (isSpace c) eqn:Ec; simpl; [reflexivity | now rewrite Ec].
  - apply trimRight_cons; [discriminate | exact IH].
Qed.

Lemma trimLeft_starts s :
  trimLeft s = EmptyString
  \/ exists c rest, trimLeft s = String c rest /\ isSpace c = false.
Proof.
  induction s as [|c s IH]; simpl; [now left|].
  destruct (isSpace c) eqn:Ec; [exact IH | right; eauto].
Qed.

(** A trimmed string is left as it is by trimming. *)
Lemma TrimSpace_idempotent s : TrimSpace (TrimSpace s) = TrimSpace s.
Proof.
  unfold TrimSpace at 2 3.
  destruct (trimLeft_starts s) as [->|(c & rest & -> & Hc)]; [reflexivity|].
  assert (Hhead : exists rest', trimRight (String c rest) = String c rest').
  { simpl. destruct (trimRight rest); [rewrite Hc|]; eauto. }
  destruct Hhead as (rest' & E). unfold TrimSpace.
  replace (trimLeft (trimRight (String c rest))) with (trimRight (String c rest)).
  - apply trimRight_idempotent.
  - rewrite E. simpl. now rewrite Hc.
Qed.

(** X7.  [GetUnpushedCommits], [GetCurrentBranch] and [GetParentCommit]
    only read the repository: whatever git answers, every command they run
    is [branch --show-current], a [rev-parse], [remote] or a [log], in the
    given repository and with the inherited environment. *)
Theorem readers_only_read (git : Repository)
    (repoPath parentGitBranchName firstUnpushedCommitHash : string) :
  Forall (readOnly repoPath)
    (snd (GetUnpushedCommits git repoPath parentGitBranchName []))
  /\ Forall (readOnly repoPath) (snd (GetCurrentBranch git repoPath []))
  /\ Forall (readOnly repoPath)
       (snd (GetParentCommit git repoPath firstUnpushedCommitHash [])).
Proof.
  split; [|split].
  - destruct (GetUnpushedCommits_facts git repoPath parentGitBranchName [])
      as (r & evs & Hrun & Hread & _).
    rewrite Hrun. exact Hread.
  - assert (H : yields (GetCurrentBranch git repoPath)
                  (fun _ evs => Forall (readOnly repoPath) evs)).
    { unfold GetCurrentBranch. run_command; [destruct (isEmpty _)|];
        apply yields_ret; reads_ok. }
    destruct (H []) as (r & evs & Hrun & Hread). rewrite Hrun. exact Hread.
  - assert (H : yields (GetParentCommit git repoPath firstUnpushedCommitHash)
                  (fun _ evs => Forall (readOnly repoPath) evs)).
    { unfold GetParentCommit. run_command; apply yields_ret; reads_ok. }
    destruct (H []) as (r & evs & Hrun & Hread). rewrite Hrun. exact Hread.
Qed.

(** X8.  [GetUnpushedCommits] returns an error only for a command that
    failed, which is the last it ran: the error of the current branch when
    [branch --show-current] failed, as the only command run, and the error of
    the unpushed commits when the log over a range [base..branch] failed.  A
    failure of any other command, the log of the whole history included, is
    not an error of the call. *)
Theorem unpushed_commits_error_is_last_failure (git : Repository)
    (repoPath parentGitBranchName : string) (err : QueryError) :
  fst (GetUnpushedCommits git repoPath parentGitBranchName []) = Err err ->
  raisedBy repoPath err
    (snd (GetUnpushedCommits git repoPath parentGitBranchName [])).
Proof.
  destruct (GetUnpushedCommits_facts git repoPath parentGitBranchName [])
    as (r & evs & Hrun & _ & Herr & _).
  rewrite Hrun. simpl fst. simpl snd. apply Herr.
Qed.

Lemma unpushed_commits_error_is_last_failure_witness :
  raisedBy "repo" GetUnpushedCommitsFailed
    (snd (GetUnpushedCommits logFailingGit "repo" "origin/main" [])).
Proof.
  apply (unpushed_commits_error_is_last_failure logFailingGit "repo"
           "origin/main" GetUnpushedCommitsFailed).
  reflexivity.
Defined.

(** X9.  The commits [GetUnpushedCommits] returns can be replayed, in any
    order and any selection, without the error of a merge commit that has no
    merge source: [UpdateCommitTimes] never returns it for them. *)
Theorem unpushed_commits_have_merge_sources (git : Repository)
    (Time : Type) (Format : Time -> string)
    (repoPath parentGitBranchName : string) (unpushedCommits : list Commit)
    (commits : list Commit) (newTimes : list Time)
    (parentCommitHash branchName rewriteBranchName newCommitAuthorName
     newCommitAuthorEmail : string) (tr : Trace) (n : Z) (hash : string) :
  fst (GetUnpushedCommits git repoPath parentGitBranchName [])
  = Ok unpushedCommits ->
  incl commits unpushedCommits ->
  fst (UpdateCommitTimes git Time Format repoPath commits newTimes
         parentCommitHash branchName rewriteBranchName
         newCommitAuthorName newCommitAuthorEmail tr)
  <> Failed n (MergeHasNoSource hash).
Proof.
  intros Hread Hincl.
  destruct (GetUnpushedCommits_facts git repoPath parentGitBranchName [])
    as (r & evs0 & Hrun0 & _ & _ & Hok).
  rewrite Hrun0 in Hread. simpl in Hread. specialize (Hok _ Hread).
  destruct (UpdateCommitTimes_facts git Time Format repoPath branchName
              rewriteBranchName newCommitAuthorName newCommitAuthorEmail
              parentCommitHash commits newTimes tr)
    as (o & evs & Hrun & _ & _ & Hsource).
  rewrite Hrun. simpl fst. intros E.
  specialize (Hsource n hash E). apply Exists_exists in Hsource.
  destruct Hsource as (commit & Hin & Hm & He & _).
  rewrite Forall_forall in Hok. specialize (Hok commit (Hincl commit Hin)).
  unfold sourcedMerge in Hok. rewrite Hm in Hok. tauto.
Qed.

Lemma unpushed_commits_have_merge_sources_witness :
  fst (UpdateCommitTimes trackingGit string (fun t => t) "repo"
         (rev (parseCommitsWithMergeInfo twoLineLog))
         ["2024-01-01T09:00:00"; "2024-01-02T09:00:00"]%string
         "p0" "main" "rewrite-history" EmptyString EmptyString [])
  <> Failed 0 (MergeHasNoSource "def456").
Proof.
  apply (unpushed_commits_have_merge_sources trackingGit string
           (fun t => t) "repo" "origin/main"
           (parseCommitsWithMergeInfo twoLineLog)
           (rev (parseCommitsWithMergeInfo twoLineLog))
           ["2024-01-01T09:00:00"; "2024-01-02T09:00:00"]%string
           "p0" "main" "rewrite-history" EmptyString EmptyString
           [] 0 "def456"%string).
  - reflexivity.
  - intros commit Hin. now apply in_rev.
Defined.

(** X10.  The name [GetCurrentBranch] returns is what [branch
    --show-current] printed, trimmed: it is not empty and has no white space
    at either end (an empty name, as of a detached HEAD or of a repository
    without commits, is an error), and that command is the only one run. *)
Theorem current_branch_is_trimmed_and_not_empty (git : Repository)
    (repoPath currentBranch : string) :
  fst (GetCurrentBranch git repoPath []) = Ok currentBranch ->
  currentBranch <> EmptyString
  /\ TrimSpace currentBranch = currentBranch
  /\ exists printed,
       snd (GetCurrentBranch git repoPath [])
       = [mkEvent (gitIn repoPath ["branch"; "--show-current"]%string)
            (Success printed)]
       /\ currentBranch = TrimSpace printed.
Proof.
  unfold GetCurrentBranch, Git.bind. rewrite runGitCommand_cons.
  destruct (git [] _) as [out|]; cbn beta iota; [|discriminate].
  destruct (isEmpty (TrimSpace out)) eqn:E; [discriminate|].
  unfold Git.ret. simpl. intros H. inversion H; subst currentBranch.
  split; [intros E0; rewrite E0 in E; discriminate|].
  split; [apply TrimSpace_idempotent|]. eauto.
Qed.

Lemma current_branch_is_trimmed_and_not_empty_witness :
  ("main" <> EmptyString
   /\ TrimSpace "main" = "main"
   /\ exists printed,
        snd (GetCurrentBranch trackingGit "repo" [])
        = [mkEvent (gitIn "repo" ["branch"; "--show-current"]) (Success printed)]
        /\ "main" = TrimSpace printed)%string.
Proof.
  apply (current_branch_is_trimmed_and_not_empty trackingGit "repo" "main").
  reflexivity.
Defined.

(** ** The days of a span *)

(** The table of [TestParseWeekdays]. *)
Example parseWeekdays_test_table :
  weekdaysIn (parseWeekdays "") = []
  /\ weekdaysIn (parseWeekdays "Mon") = [Monday]
  /\ weekdaysIn (parseWeekdays "Monday") = [Monday]
  /\ weekdaysIn (parseWeekdays "1") = [Monday]
  /\ weekdaysIn (parseWeekdays "Sat,Sun") = [Sunday; Saturday]
  /\ weekdaysIn (parseWeekdays "Saturday, Sunday") = [Sunday; Saturday]
  /\ weekdaysIn (parseWeekdays "0,6") = [Sunday; Saturday]
  /\ weekdaysIn (parseWeekdays "Mon,2,Wednesday") = [Monday; Tuesday; Wednesday]
  /\ weekdaysIn (parseWeekdays "MONDAY,tue,FRIDAY") = [Monday; Tuesday; Friday]
  /\ weekdaysIn (parseWeekdays "Mon,invalid,Tue") = [Monday; Tuesday]
  /\ weekdaysIn (parseWeekdays "invalid,bad,wrong") = []
  /\ weekdaysIn (parseWeekdays " Mon , Tue , Wed ") = [Monday; Tuesday; Wednesday]
  /\ weekdaysIn (parseWeekdays "Mon,,Tue,") = [Monday; Tuesday].
Proof. repeat split; reflexivity. Qed.

(** The table of [TestEnumerateDaysSkipping]: 2024-01-01 is a Monday. *)
Example enumerateDaysSkipping_test_table :
  dayOfWeek UTC monday2024 = Monday
  /\ enumerateDaysSkipping UTC monday2024 (daysLater 2 monday2024) noWeekday
     = [monday2024; daysLater 1 monday2024; daysLater 2 monday2024]
  /\ enumerateDaysSkipping UTC monday2024 (daysLater 6 monday2024)
       (parseWeekdays "Sat,Sun")
     = [monday2024; daysLater 1 monday2024; daysLater 2 monday2024;
        daysLater 3 monday2024; daysLater 4 monday2024]
  /\ enumerateDaysSkipping UTC monday2024 (daysLater 2 monday2024)
       (parseWeekdays "Mon")
     = [daysLater 1 monday2024; daysLater 2 monday2024]
  /\ enumerateDaysSkipping UTC monday2024 (daysLater 6 monday2024)
       (parseWeekdays "0,1,2,3,4,5,6") = []
  /\ enumerateDaysSkipping UTC monday2024 monday2024 noWeekday = [monday2024]
  /\ enumerateDaysSkipping UTC monday2024 monday2024 (parseWeekdays "Mon") = [].
Proof. repeat split; vm_compute; reflexivity. Qed.

(** Steps of 24 hours are not calendar days where the clocks change.  In New
    York the steps from the midnight of Saturday 2024-11-02 reach the Sunday
    twice, at 0:00 and at 23:00, and every later day at 23:00, so that in the
    seven days from that Saturday to the next Friday no step falls on a
    Friday. *)
Example days_across_a_clock_change :
  map (dayOfWeek newYork2024)
    (enumerateDaysSkipping newYork2024 eveOfFallBack2024
       (daysLater 6 eveOfFallBack2024) noWeekday)
  = [Saturday; Sunday; Sunday; Monday; Tuesday; Wednesday; Thursday]
  /\ Date newYork2024 (daysLater 6 eveOfFallBack2024 + Hour) 0
     = daysLater 6 eveOfFallBack2024 + Hour
  /\ dayOfWeek newYork2024 (daysLater 6 eveOfFallBack2024 + Hour) = Friday
  /\ enumerateDaysSkipping newYork2024 eveOfFallBack2024
       (daysLater 6 eveOfFallBack2024 + Hour)
       (parseWeekdays "Sat,Sun,Mon,Tue,Wed,Thu") = [].
Proof. repeat split; vm_compute; reflexivity. Qed.

Lemma daysLater_next k d : daysLater k (Add d (24 * Hour)) = daysLater (k + 1) d.
Proof. unfold daysLater, Add, Hour, Minute, Second. lia. Qed.

Lemma daysLater_zero d : daysLater 0 d = d.
Proof. unfold daysLater. lia. Qed.

Lemma daysLater_le k d : 0 <= k -> d <= daysLater k d.
Proof. unfold daysLater, Hour, Minute, Second. lia. Qed.

Section EnumerateFacts.

Variable loc : Location.
Variable finish : Time.
Variable skip : WeekdaySet.

(** Every day the loop returns is a whole number of days after the day it
    starts from, fewer than the iterations allowed, not after the end, and
    not skipped. *)
Lemma enumerateFrom_sound fuel :
  forall d x,
    In x (enumerateFrom loc finish skip fuel d) ->
    (exists k, 0 <= k < Z.of_nat fuel /\ x = daysLater k d)
    /\ x <= finish /\ skip (dayOfWeek loc x) = false.
Proof.
  induction fuel as [|fuel IH]; intros d x; cbn [enumerateFrom];
    [contradiction|].
  unfold After. destruct (Z.ltb_spec finish d) as [Hafter|Hin]; [contradiction|].
  assert (Hrest : In x (enumerateFrom loc finish skip fuel (Add d (24 * Hour))) ->
                  (exists k, 0 <= k < Z.of_nat (S fuel) /\ x = daysLater k d)
                  /\ x <= finish /\ skip (dayOfWeek loc x) = false).
  { intros H. destruct (IH _ _ H) as ((k & Hk & ->) & Hle & Hs).
    split; [|auto]. exists (k + 1). rewrite daysLater_next. split; [lia | reflexivity]. }
  cbv zeta. destruct (skip (dayOfWeek loc d)) eqn:Es; [exact Hrest|].
  intros [<-|H]; [|auto].
  split; [|auto]. exists 0. rewrite daysLater_zero. split; [lia | reflexivity].
Qed.

(** No day is left out while the iterations last. *)
Lemma enumerateFrom_complete fuel :
  forall d k,
    0 <= k < Z.of_nat fuel ->
    daysLater k d <= finish ->
    skip (dayOfWeek loc (daysLater k d)) = false ->
    In (daysLater k d) (enumerateFrom loc finish skip fuel d).
Proof.
  induction fuel as [|fuel IH]; intros d k Hk Hle Hs; [lia|].
  cbn [enumerateFrom]. unfold After.
  pose proof (daysLater_le k d ltac:(lia)) as Hd.
  destruct (Z.ltb_spec finish d) as [Hafter|Hin]; [lia|]. cbv zeta.
  destruct (Z.eq_dec k 0) as [->|Hpos].
  - rewrite daysLater_zero in *. rewrite Hs. now left.
  - assert (Hin' : In (daysLater k d)
                     (enumerateFrom loc finish skip fuel (Add d (24 * Hour)))).
    { replace (daysLater k d) with (daysLater (k - 1) (Add d (24 * Hour)))
        by (rewrite daysLater_next; f_equal; lia).
      apply IH; [lia | |];
        (replace (daysLater (k - 1) (Add d (24 * Hour))) with (daysLater k d)
          by (rewrite daysLater_next; f_equal; lia)); assumption. }
    destruct (skip (dayOfWeek loc d)); [exact Hin' | now right].
Qed.

Lemma enumerateFrom_ascending fuel :
  forall d, StronglySorted Z.lt (enumerateFrom loc finish skip fuel d).
Proof.
  induction fuel as [|fuel IH]; intros d; cbn [enumerateFrom]; [constructor|].
  destruct (After d finish); [constructor|]. cbv zeta.
  destruct (skip (dayOfWeek loc d)); [apply IH|].
  constructor; [apply IH|]. apply Forall_forall. intros x Hx.
  destruct (enumerateFrom_sound _ _ _ Hx) as ((k & Hk & ->) & _).
  rewrite daysLater_next. unfold daysLater, Hour, Minute, Second. lia.
Qed.

End EnumerateFacts.

(** X11.  [enumerateDaysSkipping] returns, in strictly ascending order,
    exactly the instants that are a whole number of days (of 24 hours) after
    [start], not after [end], and whose weekday is not in the skip set; in
    particular it returns nothing when [start] is after [end].  The weekday
    of an instant is the one that the clock of the location shows at that
    instant, whatever the clock changes of the location. *)
Theorem enumerated_days_are_the_eligible_days (loc : Location)
    (start finish : Time) (skip : WeekdaySet) :
  StronglySorted Z.lt (enumerateDaysSkipping loc start finish skip)
  /\ forall x,
       In x (enumerateDaysSkipping loc start finish skip)
       <-> wholeDaysAfter start x /\ x <= finish
           /\ skip (dayOfWeek loc x) = false.
Proof.
  split; [apply enumerateFrom_ascending|].
  intros x. unfold enumerateDaysSkipping. split.
  - intros H. destruct (enumerateFrom_sound _ _ _ _ _ _ H) as ((k & Hk & ->) & Hle & Hs).
    split; [|auto]. exists k. split; [lia | reflexivity].
  - intros ((k & Hk & ->) & Hle & Hs).
    apply enumerateFrom_complete; [|assumption|assumption].
    assert (Hq : k <= (finish - start) / (24 * Hour)).
    { apply Z.div_le_lower_bound; [unfold Hour, Minute, Second; lia|].
      unfold daysLater in Hle. lia. }
    lia.
Qed.

(** In a location at a fixed offset, the weekday of the day [k] days later
    is [k] weekdays later. *)
Lemma Unix_daysLater k t : Unix (daysLater k t) = Unix t + k * secondsPerDay.
Proof.
  unfold Unix, daysLater.
  replace (t + k * (24 * Hour)) with (t + k * secondsPerDay * Second)
    by (unfold Hour, Minute, Second, secondsPerDay; lia).
  apply Z.div_add. unfold Second. lia.
Qed.

Lemma dayOfWeek_fixed off loc t :
  fixedAt off loc ->
  dayOfWeek loc t
  = weekdayOfNumber (((Unix t + off) / secondsPerDay + 4) mod 7).
Proof. intros Hfix. unfold dayOfWeek, clock. now rewrite Hfix. Qed.

Lemma dayOfWeek_daysLater off loc t k :
  fixedAt off loc ->
  dayOfWeek loc (daysLater k t)
  = weekdayOfNumber (((Unix t + off) / secondsPerDay + 4 + k) mod 7).
Proof.
  intros Hfix. rewrite (dayOfWeek_fixed off) by exact Hfix.
  rewrite Unix_daysLater.
  replace (Unix t + k * secondsPerDay + off)
    with (Unix t + off + k * secondsPerDay) by lia.
  rewrite Z.div_add by (unfold secondsPerDay; lia).
  do 2 f_equal. lia.
Qed.

(** There every weekday comes within seven days. *)
Lemma weekday_within_a_week off loc t (w : Weekday) :
  fixedAt off loc ->
  exists k, 0 <= k <= 6 /\ dayOfWeek loc (daysLater k t) = w.
Proof.
  intros Hfix.
  set (b := (Unix t + off) / secondsPerDay + 4).
  set (r := match w with
            | Sunday => 0 | Monday => 1 | Tuesday => 2 | Wednesday => 3
            | Thursday => 4 | Friday => 5 | Saturday => 6
            end).
  assert (Hr : 0 <= r <= 6) by (destruct w; simpl; lia).
  exists ((r - b) mod 7).
  pose proof (Z.mod_pos_bound (r - b) 7 ltac:(lia)) as Hk.
  split; [lia|]. rewrite (dayOfWeek_daysLater off) by exact Hfix. fold b.
  replace ((b + (r - b) mod 7) mod 7) with r.
  - destruct w; reflexivity.
  - clear Hk. Z.div_mod_to_equations. lia.
Qed.

(** X12.  In a location at a fixed offset, when [end] is six days or more
    after [start], so that the span covers seven days, and at least one
    weekday is not in the skip set, [enumerateDaysSkipping] returns at least
    one day: [commitCadenceSpan] then has an eligible day.  (Where the clocks
    change, the steps of 24 hours can miss a weekday of the span.) *)
Theorem a_week_has_an_eligible_day (off : Z) (loc : Location)
    (start finish : Time) (skip : WeekdaySet) (w : Weekday) :
  fixedAt off loc ->
  daysLater 6 start <= finish ->
  skip w = false ->
  enumerateDaysSkipping loc start finish skip <> [].
Proof.
  intros Hfix Hspan Hw.
  destruct (weekday_within_a_week off loc start w Hfix) as (k & Hk & Hday).
  assert (Hin : In (daysLater k start)
                  (enumerateDaysSkipping loc start finish skip)).
  { unfold enumerateDaysSkipping. apply enumerateFrom_complete.
    - assert (Hq : k <= (finish - start) / (24 * Hour)).
      { apply Z.div_le_lower_bound; [unfold Hour, Minute, Second; lia|].
        unfold daysLater, Hour, Minute, Second in *. lia. }
      lia.
    - unfold daysLater, Hour, Minute, Second in *. lia.
    - now rewrite Hday. }
  intros E. rewrite E in Hin. contradiction.
Qed.

Lemma a_week_has_an_eligible_day_witness :
  enumerateDaysSkipping UTC monday2024 (daysLater 6 monday2024)
    (parseWeekdays "Sat,Sun") <> [].
Proof.
  apply (a_week_has_an_eligible_day 0 UTC monday2024 (daysLater 6 monday2024)
           (parseWeekdays "Sat,Sun") Monday).
  - intros sec. reflexivity.
  - vm_compute. discriminate.
  - reflexivity.
Defined.

(** *** The skip set *)

Section ParseWeekdaysFacts.

Local Open Scope string_scope.

Let comma : ascii -> bool := Ascii.eqb ",".

Lemma trimRight_empty t :
  trimRight t = "" -> free (fun c => negb (isSpace c)) t = true.
Proof.
  induction t as [|c t IH]; simpl; [reflexivity|].
  destruct (trimRight t); [|discriminate].
  destruct (isSpace c); [|discriminate]. intros _. now apply IH.
Qed.

Lemma trimLeft_blank s :
  free (fun c => negb (isSpace c)) (trimLeft s) = true ->
  free (fun c => negb (isSpace c)) s = true.
Proof.
  induction s as [|c s IH]; simpl; [reflexivity|].
  destruct (isSpace c) eqn:E; simpl; [exact IH | now rewrite E].
Qed.

(** A string that trims to nothing holds no comma. *)
Lemma blank_has_no_comma s : isEmpty (TrimSpace s) = true -> free comma s = true.
Proof.
  intros H. apply isEmpty_true in H. unfold TrimSpace in H.
  apply trimRight_empty, trimLeft_blank in H.
  revert H. apply free_weaken. intros c E.
  apply Ascii.eqb_eq in E. subst c. reflexivity.
Qed.

(** The test for a blank list changes nothing: the items of a blank list are
    skipped one by one. *)
Lemma parseWeekdays_items s :
  parseWeekdays s = parseItems (splitAt comma s) noWeekday.
Proof.
  unfold parseWeekdays. fold comma. destruct (isEmpty (TrimSpace s)) eqn:E; [|reflexivity].
  rewrite (splitAt_none comma s (blank_has_no_comma s E)).
  cbn [parseItems]. now rewrite E.
Qed.

Lemma parseItems_app l1 l2 m :
  parseItems (l1 ++ l2)%list m = parseItems l2 (parseItems l1 m).
Proof.
  revert m. induction l1 as [|raw l1 IH]; intros m; cbn [parseItems app];
    [reflexivity|].
  destruct (isEmpty (TrimSpace raw)); [apply IH|].
  destruct (weekdayNamed (ToLower (TrimSpace raw))); apply IH.
Qed.

Lemma parseItems_from l :
  forall m d, parseItems l m d = m d || parseItems l noWeekday d.
Proof.
  induction l as [|raw l IH]; intros m d; cbn [parseItems].
  - unfold noWeekday. now rewrite orb_false_r.
  - destruct (isEmpty (TrimSpace raw)); [apply IH|].
    destruct (weekdayNamed (ToLower (TrimSpace raw))) as [w|]; [|apply IH].
    rewrite (IH (setWeekday w m)), (IH (setWeekday w noWeekday)).
    unfold setWeekday, noWeekday.
    destruct (sameWeekday w d), (m d); reflexivity.
Qed.

End ParseWeekdaysFacts.

(** X13.  [parseWeekdays] of two lists joined by a comma is the union of
    the two sets: the order of the items, their repetition and empty items
    change nothing, and an item that names no weekday adds nothing. *)
Theorem parseWeekdays_of_joined_lists (s1 s2 : string) (d : Weekday) :
  parseWeekdays (String.append s1 (String "," s2)) d
  = parseWeekdays s1 d || parseWeekdays s2 d.
Proof.
  rewrite !parseWeekdays_items.
  rewrite splitAt_app_sep by reflexivity.
  rewrite parseItems_app. apply parseItems_from.
Qed.

(** *** Letter case *)

Section LetterCase.

Local Open Scope string_scope.

Ltac every_byte c :=
  destruct c as [[] [] [] [] [] [] [] []]; reflexivity.

Lemma toLower_isSpace c : isSpace (toLower c) = isSpace c.
Proof. every_byte c. Qed.

Lemma toLower_comma c : Ascii.eqb "," (toLower c) = Ascii.eqb "," c.
Proof. every_byte c. Qed.

Lemma toLower_idempotent c : toLower (toLower c) = toLower c.
Proof. every_byte c. Qed.

Lemma ToLower_idempotent s : ToLower (ToLower s) = ToLower s.
Proof.
  induction s as [|c s IH]; simpl; [reflexivity|].
  now rewrite toLower_idempotent, IH.
Qed.

Lemma trimLeft_ToLower s : trimLeft (ToLower s) = ToLower (trimLeft s).
Proof.
  induction s as [|c s IH]; simpl; [reflexivity|].
  rewrite toLower_isSpace. destruct (isSpace c); [exact IH | reflexivity].
Qed.

Lemma trimRight_ToLower s : trimRight (ToLower s) = ToLower (trimRight s).
Proof.
  induction s as [|c s IH]; simpl; [reflexivity|].
  rewrite IH, toLower_isSpace.
  destruct (trimRight s); simpl; [destruct (isSpace c)|]; reflexivity.
Qed.

Lemma TrimSpace_ToLower s : TrimSpace (ToLower s) = ToLower (TrimSpace s).
Proof. unfold TrimSpace. now rewrite trimLeft_ToLower, trimRight_ToLower. Qed.

Lemma splitAt_ToLower s :
  splitAt (Ascii.eqb ",") (ToLower s)
  = map ToLower (splitAt (Ascii.eqb ",") s).
Proof.
  induction s as [|c s IH]; cbn [splitAt ToLower map]; [reflexivity|].
  rewrite toLower_comma, IH.
  destruct (Ascii.eqb "," c); [reflexivity|].
  destruct (splitAt (Ascii.eqb ",") s); reflexivity.
Qed.

Lemma isEmpty_ToLower s : isEmpty (ToLower s) = isEmpty s.
Proof. destruct s; reflexivity. Qed.

Lemma parseItems_ToLower items :
  forall m, parseItems (map ToLower items) m = parseItems items m.
Proof.
  induction items as [|raw items IH]; intros m; cbn [parseItems map];
    [reflexivity|].
  rewrite TrimSpace_ToLower, isEmpty_ToLower, ToLower_idempotent.
  destruct (isEmpty (TrimSpace raw)); [apply IH|].
  destruct (weekdayNamed (ToLower (TrimSpace raw))); apply IH.
Qed.

Lemma parseWeekdays_ToLower s : parseWeekdays (ToLower s) = parseWeekdays s.
Proof.
  rewrite !parseWeekdays_items, splitAt_ToLower. apply parseItems_ToLower.
Qed.

End LetterCase.

(** X14.  [parseWeekdays] does not tell upper case from lower case: two
    lists that are equal up to the case of their letters give the same
    set. *)
Theorem parseWeekdays_ignores_case (s1 s2 : string) :
  ToLower s1 = ToLower s2 -> parseWeekdays s1 = parseWeekdays s2.
Proof.
  intros H. rewrite <- (parseWeekdays_ToLower s1), <- (parseWeekdays_ToLower s2).
  now rewrite H.
Qed.

Lemma parseWeekdays_ignores_case_witness :
  parseWeekdays "MONDAY,tue, Fri" = parseWeekdays "monday,TUE, fri".
Proof.
  apply (parseWeekdays_ignores_case "MONDAY,tue, Fri" "monday,TUE, fri").
  reflexivity.
Defined.

(** ** The plan of a span *)

Import Cadence.

(** *** The distributor never returns a negative count *)

Section NonNegative.

Let nonneg (s : list Z) : Prop := Forall (fun x => 0 <= x) s.

Lemma update_Forall {A : Type} (P : A -> Prop) (s : list A) k v :
  Forall P s -> P v -> Forall P (Slice.update s k v).
Proof.
  intros Hs Hv. revert k. induction Hs as [|x s Hx Hs IH]; intros [|k]; simpl;
    auto.
Qed.

Lemma store_nonneg s k v s' :
  Slice.store s k v = Some s' -> nonneg s -> 0 <= v -> nonneg s'.
Proof.
  unfold Slice.store. destruct (Slice.inRange s k); [|discriminate].
  intros E Hs Hv. inversion E; subst. now apply update_Forall.
Qed.

Lemma incr_nonneg s k s' : Slice.incr s k = Some s' -> nonneg s -> nonneg s'.
Proof.
  unfold Slice.incr. destruct (Slice.load s k) as [v|] eqn:El; [|discriminate].
  intros E Hs. eapply store_nonneg; [exact E | exact Hs|].
  unfold Slice.load in El. destruct (Slice.inRange s k); [|discriminate].
  apply nth_error_In in El. unfold nonneg in Hs. rewrite Forall_forall in Hs.
  specialize (Hs v El). lia.
Qed.

Lemma spreadMiddle_nonneg cfg availableDays fuel :
  forall i out src out' src',
    spreadMiddle cfg availableDays fuel i out src = Some (out', src') ->
    nonneg out -> nonneg out'.
Proof.
  induction fuel as [|fuel IH]; intros i out src out' src' Hrun Hout.
  - simpl in Hrun. unfold ret in Hrun. now inversion Hrun; subst.
  - cbn [spreadMiddle] in Hrun. unfold bind at 1 in Hrun.
    destruct (dayOffsetOf cfg availableDays i src) as [[d src1]|]; [|discriminate].
    cbn beta iota zeta in Hrun. unfold bind at 1, lift at 1 in Hrun.
    destruct (Slice.incr out (1 + d)) as [out1|] eqn:Ei; [|discriminate].
    eapply IH; [exact Hrun|]. eapply incr_nonneg; eassumption.
Qed.

Lemma alternateEnds_nonneg m fuel :
  forall i out src out' src',
    alternateEnds m fuel i out src = Some (out', src') ->
    nonneg out -> nonneg out'.
Proof.
  induction fuel as [|fuel IH]; intros i out src out' src' Hrun Hout.
  - simpl in Hrun. unfold ret in Hrun. now inversion Hrun; subst.
  - cbn [alternateEnds] in Hrun. unfold bind at 1, lift at 1 in Hrun.
    destruct (if GoInt.rem i 2 =? 0 then Slice.incr out 0
              else Slice.incr out (m - 1)) as [out1|] eqn:Ei; [|discriminate].
    eapply IH; [exact Hrun|].
    destruct (GoInt.rem i 2 =? 0); eapply incr_nonneg; eassumption.
Qed.

(** Whatever [allocateAcrossDays] returns for a count that is not negative,
    no day has a negative count. *)
Lemma allocate_nonneg cfg n m src out src' :
  0 <= n ->
  allocateAcrossDays cfg n m src = Some (out, src') ->
  Forall (fun x => 0 <= x) out.
Proof.
  intros Hn. unfold allocateAcrossDays.
  assert (Hmake : nonneg (Slice.make m)).
  { unfold Slice.make. apply Forall_forall. intros x Hx.
    apply repeat_spec in Hx. lia. }
  destruct (m <=? 0); [unfold ret; intros E; inversion E; constructor|].
  destruct (n <=? 0); [unfold ret; intros E; now inversion E; subst|].
  destruct (n =? 1).
  { unfold lift. destruct (Slice.store _ _ _) as [o|] eqn:Es; [|discriminate].
    intros E; inversion E; subst. eapply store_nonneg; [exact Es|exact Hmake|lia]. }
  destruct (m =? 1).
  { unfold lift. destruct (Slice.store _ _ _) as [o|] eqn:Es; [|discriminate].
    intros E; inversion E; subst. eapply store_nonneg; [exact Es|exact Hmake|lia]. }
  unfold bind at 1, lift at 1.
  destruct (Slice.store (Slice.make m) 0 1) as [out1|] eqn:E1; [|discriminate].
  unfold bind at 1, lift at 1.
  destruct (Slice.store out1 (m - 1) 1) as [out2|] eqn:E2; [|discriminate].
  assert (H2 : nonneg out2).
  { eapply store_nonneg; [exact E2| |lia].
    eapply store_nonneg; [exact E1|exact Hmake|lia]. }
  destruct (2 <? n); [|unfold ret; intros E; now inversion E; subst].
  cbv zeta. destruct (0 <? m - 2); intros Hrun.
  - eapply spreadMiddle_nonneg; eassumption.
  - eapply alternateEnds_nonneg; eassumption.
Qed.

End NonNegative.

(** *** The timestamps of one day *)

Lemma generate_total cfg loc day k src :
  JitterMinutes cfg < 2 ^ 62 -> 1 <= k ->
  exists ts src',
    generateCommitTimesForDay cfg loc day k src = Some (ts, src')
    /\ length ts = Z.to_nat k.
Proof.
  intros HJ Hk.
  destruct (placeTimes_total cfg (workDayStart cfg loc day)
              (workDayEnd cfg loc day) k src HJ Hk) as (raw & src' & Hp & Hl).
  do 2 eexists. split; [apply generate_from_placed; eassumption|].
  now rewrite sortTimes_length, length_map.
Qed.

Lemma generate_within cfg loc day k src ts src' :
  workDayStart cfg loc day + Minute <= workDayEnd cfg loc day -> 1 <= k ->
  generateCommitTimesForDay cfg loc day k src = Some (ts, src') ->
  Sorted Z.le ts /\ Forall (inWorkHours cfg loc day) ts.
Proof.
  intros Hw Hk Hrun. unfold generateCommitTimesForDay in Hrun.
  destruct (Z.leb_spec k 0); [lia|]. cbn zeta in Hrun. unfold bind in Hrun.
  destruct (placeTimes cfg (workDayStart cfg loc day) (workDayEnd cfg loc day)
              k src) as [[raw src1]|]; [|discriminate].
  unfold ret in Hrun. inversion Hrun; subst ts src'.
  split; [apply sortTimes_Sorted|].
  apply sortTimes_Forall, Forall_map, Forall_forall. intros t _.
  apply clampToWorkDay_within. exact Hw.
Qed.

(** *** The loop over the days *)

Lemma load_middle (done rest : list Z) k :
  Slice.load (done ++ k :: rest) (Z.of_nat (length done)) = Some k.
Proof.
  unfold Slice.load, Slice.inRange. rewrite length_app. simpl length.
  destruct (Z.leb_spec 0 (Z.of_nat (length done))); [|lia].
  destruct (Z.ltb_spec (Z.of_nat (length done))
              (Z.of_nat (length done + S (length rest)))); [|lia].
  simpl. rewrite Nat2Z.id, nth_error_app2, Nat.sub_diag by lia. reflexivity.
Qed.

Section PlanDays.

Variable cfg : Config.
Variable loc : Location.
Variable ordered : list Commit.

Hypothesis jitter_in_range : JitterMinutes cfg < 2 ^ 62.
Hypothesis length_in_range : Z.of_nat (length ordered) <= GoInt.max_int.

(** The timestamps of a day: none, or what the planner returned for it. *)
Let plannedFor (day : Time) (part : list Time) : Prop :=
  part = []
  \/ exists k src1 src2,
       1 <= k
       /\ generateCommitTimesForDay cfg loc day k src1 = Some (part, src2).

(** With counts that are not negative and sum to the commits left, the loop
    returns: it takes the commits in order, all of them, and gives each day
    the timestamps the planner returns for its count. *)
Lemma planDays_total (days : list Time) :
  forall (done rest : list Z) cursor allCommits allNewTimes src,
    length rest = length days ->
    Forall (fun x => 0 <= x) rest ->
    0 <= cursor ->
    cursor + Slice.sum rest = Z.of_nat (length ordered) ->
    exists parts src',
      planDays cfg loc ordered (done ++ rest) days (Z.of_nat (length done))
        cursor allCommits allNewTimes src
      = Some ((allCommits ++ skipn (Z.to_nat cursor) ordered,
               allNewTimes ++ concat parts), src')
      /\ Forall2 plannedFor days parts
      /\ length (concat parts) = length (skipn (Z.to_nat cursor) ordered).
Proof.
  induction days as [|day days IH];
    intros done rest cursor allCommits allNewTimes src Hlen Hpos Hcur Hsum.
  - destruct rest; [|discriminate]. simpl in Hsum.
    exists [], src. cbn [planDays concat].
    rewrite skipn_all2 by lia. rewrite !app_nil_r.
    split; [reflexivity|]. split; [constructor | reflexivity].
  - destruct rest as [|k rest]; [discriminate|].
    inversion Hpos as [|? ? Hk Hrest]; subst. simpl in Hsum, Hlen.
    cbn [planDays]. unfold bind at 1, lift at 1. rewrite load_middle.
    assert (Hnext : (done ++ k :: rest) = ((done ++ [k]) ++ rest))
      by now rewrite <- app_assoc.
    assert (Hi : Z.of_nat (length done) + 1 = Z.of_nat (length (done ++ [k])))
      by (rewrite length_app; simpl; lia).
    destruct (Z.eqb_spec k 0) as [->|Hne].
    + destruct (IH (done ++ [0]) rest cursor allCommits allNewTimes src)
        as (parts & src' & Hrun & Hparts & Hl); [lia | exact Hrest | lia | lia |].
      exists ([] :: parts), src'. rewrite Hnext, Hi, Hrun.
      split; [reflexivity|]. split; [|exact Hl].
      constructor; [now left | exact Hparts].
    + assert (Hrestsum : 0 <= Slice.sum rest).
      { clear - Hrest. induction Hrest; simpl; lia. }
      assert (Hadd : GoInt.add cursor k = cursor + k).
      { apply wrap_in_range. unfold GoInt.min_int, GoInt.max_int in *. lia. }
      rewrite Hadd.
      set (sub := firstn (Z.to_nat k) (skipn (Z.to_nat cursor) ordered)).
      assert (Hslice : Span.subSlice ordered cursor (cursor + k) = Some sub).
      { unfold Span.subSlice.
        destruct (Z.leb_spec 0 cursor); [|lia].
        destruct (Z.leb_spec cursor (cursor + k)); [|lia].
        destruct (Z.leb_spec (cursor + k) (Z.of_nat (length ordered))); [|lia].
        simpl. unfold sub. do 3 f_equal. lia. }
      assert (Hsublen : length sub = Z.to_nat k).
      { unfold sub. rewrite firstn_length_le; [reflexivity|].
        rewrite length_skipn. lia. }
      unfold bind at 1, lift at 1. rewrite Hslice. cbv zeta.
      destruct (generate_total cfg loc day (Z.of_nat (length sub)) src
                  jitter_in_range ltac:(lia)) as (newTimes & src1 & Hgen & Hgl).
      unfold bind at 1. rewrite Hgen.
      unfold bind at 1, lift at 1.
      destruct (Z.leb_spec (Z.of_nat (length sub)) (Z.of_nat (length newTimes)));
        [|lia].
      destruct (IH (done ++ [k]) rest (cursor + k) (allCommits ++ sub)
                  (allNewTimes ++ newTimes) src1)
        as (parts & src' & Hrun & Hparts & Hl); [lia | exact Hrest | lia | lia |].
      exists (newTimes :: parts), src'. rewrite Hnext, Hi, Hrun.
      assert (Hskip : skipn (Z.to_nat cursor) ordered
                      = sub ++ skipn (Z.to_nat (cursor + k)) ordered).
      { unfold sub.
        replace (Z.to_nat (cursor + k)) with (Z.to_nat k + Z.to_nat cursor)%nat
          by lia.
        rewrite <- skipn_skipn. symmetry. apply firstn_skipn. }
      split; [|split].
      * cbn [concat]. rewrite Hskip, <- !app_assoc. reflexivity.
      * constructor; [|exact Hparts]. right.
        exists (Z.of_nat (length sub)), src, src1. split; [lia | exact Hgen].
      * cbn [concat]. rewrite Hskip, !length_app, Hl. lia.
Qed.

End PlanDays.

(** *** The days of the plan *)

Lemma enumerateFrom_spaced loc finish skip fuel :
  forall d,
    StronglySorted (fun a b => a + 24 * Hour <= b)
      (enumerateFrom loc finish skip fuel d).
Proof.
  induction fuel as [|fuel IH]; intros d; cbn [enumerateFrom]; [constructor|].
  destruct (After d finish); [constructor|]. cbv zeta.
  destruct (skip (dayOfWeek loc d)); [apply IH|].
  constructor; [apply IH|]. apply Forall_forall. intros x Hx.
  destruct (enumerateFrom_sound _ _ _ _ _ _ Hx) as ((k & Hk & ->) & _).
  rewrite daysLater_next. unfold daysLater, Hour, Minute, Second. lia.
Qed.

Lemma StronglySorted_among {A : Type} (R R' : A -> A -> Prop) (P : A -> Prop) l :
  (forall a b, P a -> P b -> R a b -> R' a b) ->
  Forall P l -> StronglySorted R l -> StronglySorted R' l.
Proof.
  intros Himp Hall Hs. induction Hs as [|a l Hs IH Ha]; [constructor|].
  inversion Hall as [|? ? HPa HPl]; subst.
  constructor; [now apply IH|].
  rewrite Forall_forall in *. intros b Hb. apply Himp; auto.
Qed.

Lemma StronglySorted_app l1 l2 :
  StronglySorted Z.le l1 -> StronglySorted Z.le l2 ->
  (forall x y, In x l1 -> In y l2 -> x <= y) ->
  StronglySorted Z.le (l1 ++ l2).
Proof.
  intros H1 H2 Hcross. induction H1 as [|a l1 H1 IH Ha]; [exact H2|].
  simpl. constructor.
  - apply IH. intros x y Hx Hy. apply Hcross; [now right | exact Hy].
  - apply Forall_app. split; [exact Ha|].
    apply Forall_forall. intros y Hy. apply Hcross; [now left | exact Hy].
Qed.

(** Days whose windows follow one another, each with its own sorted
    timestamps: the timestamps are sorted as a whole, and each is in the
    window of one of the days. *)
Lemma concat_ascending (lo hi : Time -> Z) days parts :
  StronglySorted (fun a b => hi a <= lo b) days ->
  Forall2 (fun day part =>
             Sorted Z.le part /\ Forall (fun t => lo day <= t < hi day) part)
    days parts ->
  StronglySorted Z.le (concat parts)
  /\ Forall (fun t => exists day, In day days /\ lo day <= t < hi day)
       (concat parts).
Proof.
  intros Hdays Hparts. induction Hparts as [|day part days parts [Hs Hin] _ IH];
    [split; constructor|].
  inversion Hdays as [|? ? Hrest Hday]; subst.
  destruct (IH Hrest) as [IHs IHin]. cbn [concat]. split.
  - apply StronglySorted_app; [|exact IHs|].
    + apply Sorted_StronglySorted; [|exact Hs]. intros x y z. lia.
    + intros x y Hx Hy. rewrite Forall_forall in Hin, IHin, Hday.
      destruct (IHin y Hy) as (day' & Hday' & Hy').
      specialize (Hin x Hx). specialize (Hday day' Hday'). lia.
  - apply Forall_app. split.
    + eapply Forall_impl; [|exact Hin]. intros t Ht. exists day.
      split; [now left | exact Ht].
    + eapply Forall_impl; [|exact IHin]. intros t (day' & Hd & Ht).
      exists day'. split; [now right | exact Ht].
Qed.

(** *** Midnights in a location at a fixed offset *)

Lemma timeOfDay_fixed off loc t :
  fixedAt off loc -> timeOfDay loc t = (t + off * Second) mod (24 * Hour).
Proof. intros Hfix. unfold timeOfDay. now rewrite Hfix. Qed.

Lemma midnight_fixed off loc d :
  fixedAt off loc -> midnight loc d ->
  exists m, d = (m * secondsPerDay - off) * Second.
Proof.
  intros Hfix Hm. unfold midnight in Hm.
  rewrite (timeOfDay_fixed off) in Hm by exact Hfix.
  exists ((d + off * Second) / (24 * Hour)).
  unfold Hour, Minute, Second, secondsPerDay in *.
  Z.div_mod_to_equations. lia.
Qed.

Lemma Unix_seconds k : Unix (k * Second) = k.
Proof. unfold Unix. apply Z.div_mul. unfold Second. lia. Qed.

Lemma Date_midnight off loc t : fixedAt off loc -> midnight loc (Date loc t 0).
Proof.
  intros Hfix. unfold midnight.
  rewrite (timeOfDay_fixed off), (Date_fixed off) by exact Hfix.
  set (D := (Unix t + off) / secondsPerDay).
  replace ((D * secondsPerDay - off) * Second + 0 * Hour + off * Second)
    with (D * (24 * Hour))
    by (unfold Hour, Minute, Second, secondsPerDay; lia).
  apply Z.mod_mul. unfold Hour, Minute, Second. lia.
Qed.

Lemma daysLater_midnight off loc d k :
  fixedAt off loc -> midnight loc d -> midnight loc (daysLater k d).
Proof.
  intros Hfix. unfold midnight.
  rewrite !(timeOfDay_fixed off) by exact Hfix.
  unfold daysLater, Hour, Minute, Second. intros H.
  Z.div_mod_to_equations. lia.
Qed.

(** The hours of the day that starts at midnight [d]. *)
Lemma Date_of_midnight off loc d hour :
  fixedAt off loc -> midnight loc d -> Date loc d hour = d + hour * Hour.
Proof.
  intros Hfix Hm. destruct (midnight_fixed off loc d Hfix Hm) as (m & ->).
  rewrite (Date_fixed off) by exact Hfix. rewrite Unix_seconds.
  replace (m * secondsPerDay - off + off) with (m * secondsPerDay) by lia.
  rewrite Z.div_mul by (unfold secondsPerDay; lia). reflexivity.
Qed.

(** An instant of the day that starts at midnight [d]. *)
Lemma same_day off loc d t :
  fixedAt off loc ->
  midnight loc d -> d <= t < d + 24 * Hour ->
  dayOfWeek loc t = dayOfWeek loc d /\ timeOfDay loc t = t - d.
Proof.
  intros Hfix Hm Ht. destruct (midnight_fixed off loc d Hfix Hm) as (m & ->).
  rewrite !(dayOfWeek_fixed off), (timeOfDay_fixed off) by exact Hfix.
  rewrite Unix_seconds.
  replace (m * secondsPerDay - off + off) with (m * secondsPerDay) by lia.
  rewrite Z.div_mul by (unfold secondsPerDay; lia).
  assert (Hq : (Unix t + off) / secondsPerDay = m).
  { unfold Unix, Hour, Minute, Second, secondsPerDay in *.
    Z.div_mod_to_equations. lia. }
  split; [now rewrite Hq|].
  unfold Hour, Minute, Second, secondsPerDay in *.
  Z.div_mod_to_equations. lia.
Qed.

(** *** The plan *)

Section PlanSpan.

Variable cfg : Config.
Variable skip : WeekdaySet.
Variable loc : Location.
Variables oldestTime now : Time.
Variable unpushedCommits : list Commit.

Hypothesis some_commits : unpushedCommits <> [].
Hypothesis jitter_in_range : JitterMinutes cfg < 2 ^ 62.
Hypothesis count_in_range :
  Z.of_nat (length unpushedCommits) < (if JitterDays cfg then 2 ^ 63 else 2 ^ 31).

Let days : list Time :=
  enumerateDaysSkipping loc (Date loc oldestTime 0) (Date loc now 0) skip.

(** [planSpan] returns: without an eligible day it says so; otherwise it
    plans every commit, oldest first, and the timestamps are, day by day,
    those the planner returned. *)
Lemma planSpan_facts src :
  exists plan src',
    planSpan cfg skip loc oldestTime now unpushedCommits src = Some (plan, src')
    /\ ((plan = NoEligibleDays /\ days = [])
        \/ exists parts,
             plan = Planned (rev unpushedCommits) (concat parts)
             /\ length (concat parts) = length unpushedCommits
             /\ Forall2 (fun day part =>
                           part = []
                           \/ exists k src1 src2,
                                1 <= k
                                /\ generateCommitTimesForDay cfg loc day k src1
                                   = Some (part, src2))
                  days parts).
Proof.
  unfold planSpan. cbv zeta.
  change (enumerateDaysSkipping loc (Date loc oldestTime 0) (Date loc now 0) skip)
    with days.
  destruct (Z.eqb_spec (Z.of_nat (length days)) 0) as [Hnone|Hsome].
  { exists NoEligibleDays, src. split; [reflexivity|]. left.
    split; [reflexivity|]. destruct days; [reflexivity | simpl in Hnone; lia]. }
  assert (Hn : Z.of_nat (length (rev unpushedCommits))
               = Z.of_nat (length unpushedCommits)) by now rewrite length_rev.
  destruct (allocate_total cfg (Z.of_nat (length (rev unpushedCommits)))
              (Z.of_nat (length days)) src)
    as (alloc & src1 & Halloc & Hlen & Hsum & _); [lia | lia | |].
  { intros Hdet _. rewrite Hdet in count_in_range. lia. }
  pose proof (allocate_nonneg _ _ _ _ _ _ (Zle_0_nat _) Halloc) as Hpos.
  destruct (planDays_total cfg loc (rev unpushedCommits) jitter_in_range)
    with (days := days) (done := @nil Z) (rest := alloc) (cursor := 0)
         (allCommits := @nil Commit) (allNewTimes := @nil Time) (src := src1)
    as (parts & src' & Hplan & Hparts & Hl); [ | lia | exact Hpos | lia | lia |].
  { rewrite Hn. unfold GoInt.max_int. destruct (JitterDays cfg); lia. }
  simpl in Hplan, Hl. rewrite length_rev in Hl.
  unfold bind at 1. rewrite Halloc. unfold bind at 1. rewrite Hplan.
  cbn iota beta. rewrite length_rev, Hl.
  rewrite Z.eqb_refl. cbn [negb orb].
  destruct (Z.eqb_spec (Z.of_nat (length unpushedCommits)) 0) as [Hzero|_].
  { destruct unpushedCommits; [contradiction | simpl in Hzero; lia]. }
  exists (Planned (rev unpushedCommits) (concat parts)), src'.
  split; [reflexivity|]. right. exists parts. auto.
Qed.

End PlanSpan.

(** In a location at a fixed offset the eligible days are midnights from
    the day of the oldest commit to today, none of them skipped, and a day
    apart at least. *)
Lemma days_facts (off : Z) (skip : WeekdaySet) (loc : Location)
    (oldestTime now : Time) :
  fixedAt off loc ->
  Forall (fun d => midnight loc d
                   /\ Date loc oldestTime 0 <= d <= Date loc now 0
                   /\ skip (dayOfWeek loc d) = false)
    (enumerateDaysSkipping loc (Date loc oldestTime 0) (Date loc now 0) skip)
  /\ StronglySorted (fun a b => a + 24 * Hour <= b)
       (enumerateDaysSkipping loc (Date loc oldestTime 0) (Date loc now 0) skip).
Proof.
  intros Hfix. split; [|apply enumerateFrom_spaced].
  apply Forall_forall. intros d Hd.
  destruct (enumerateFrom_sound _ _ _ _ _ _ Hd) as ((k & Hk & ->) & Hle & Hs).
  split; [apply (daysLater_midnight off), (Date_midnight off); exact Hfix|].
  split; [|exact Hs]. split; [apply daysLater_le; lia | exact Hle].
Qed.

(** X15.  For a repository with unpushed commits, the plan of
    [commitCadenceSpan] is complete: unless no day of the span is eligible,
    the commits passed to [git.UpdateCommitTimes] are all the unpushed
    commits, oldest first, with exactly one timestamp each, so that the
    internal error of a mismatched allocation cannot occur.  The plan is
    computed without a panic for every jitter below [2^62] minutes and every
    number of commits below [2^31] (below [2^63] when the days are
    jittered). *)
Theorem span_plan_covers_every_commit (cfg : Config) (skip : WeekdaySet)
    (loc : Location) (oldestTime now : Time) (unpushedCommits : list Commit)
    (src : Rand.Source) :
  unpushedCommits <> [] ->
  JitterMinutes cfg < 2 ^ 62 ->
  Z.of_nat (length unpushedCommits)
  < (if JitterDays cfg then 2 ^ 63 else 2 ^ 31) ->
  exists plan src',
    planSpan cfg skip loc oldestTime now unpushedCommits src = Some (plan, src')
    /\ coversEveryCommit
         (enumerateDaysSkipping loc (Date loc oldestTime 0) (Date loc now 0) skip)
         unpushedCommits plan.
Proof.
  intros Hsome HJ Hn.
  destruct (planSpan_facts cfg skip loc oldestTime now unpushedCommits
              Hsome HJ Hn src)
    as (plan & src' & Hrun & Hplan).
  exists plan, src'. split; [exact Hrun|].
  destruct Hplan as [[-> Hdays] | (parts & -> & Hl & _)]; simpl; [exact Hdays|].
  split; [reflexivity|]. now rewrite length_rev.
Qed.

Lemma span_plan_covers_every_commit_witness :
  exists plan src',
    planSpan testConfig (parseWeekdays "Sat,Sun") UTC
      (monday2024 + 10 * Hour) (daysLater 2 monday2024 + 15 * Hour)
      threeCommits (Rand.const 0) = Some (plan, src')
    /\ coversEveryCommit
         (enumerateDaysSkipping UTC (Date UTC (monday2024 + 10 * Hour) 0)
            (Date UTC (daysLater 2 monday2024 + 15 * Hour) 0)
            (parseWeekdays "Sat,Sun"))
         threeCommits plan.
Proof.
  apply (span_plan_covers_every_commit testConfig (parseWeekdays "Sat,Sun") UTC
           (monday2024 + 10 * Hour) (daysLater 2 monday2024 + 15 * Hour)
           threeCommits (Rand.const 0)).
  - discriminate.
  - simpl. lia.
  - simpl. lia.
Defined.

(** X16.  In a location at a fixed offset and with work hours within the
    day ([0 <= start < end <= 24]), the timestamps [commitCadenceSpan] plans
    are in ascending order over the whole span, every one of them falls on a
    weekday that is not skipped and within the work hours of its day, and
    none is before the day of the oldest unpushed commit or after today.
    (Where the clocks go back, two steps of 24 hours fall on one calendar day
    and its work window is planned twice.) *)
Theorem span_plan_keeps_working_time (off : Z) (cfg : Config)
    (skip : WeekdaySet) (loc : Location) (oldestTime now : Time)
    (unpushedCommits : list Commit) (src src' : Rand.Source)
    (allCommits : list Commit) (allNewTimes : list Time) :
  fixedAt off loc ->
  unpushedCommits <> [] ->
  JitterMinutes cfg < 2 ^ 62 ->
  Z.of_nat (length unpushedCommits)
  < (if JitterDays cfg then 2 ^ 63 else 2 ^ 31) ->
  0 <= WorkDayStartHour cfg < WorkDayEndHour cfg ->
  WorkDayEndHour cfg <= 24 ->
  planSpan cfg skip loc oldestTime now unpushedCommits src
  = Some (Planned allCommits allNewTimes, src') ->
  Sorted Z.le allNewTimes
  /\ Forall (workingTime cfg skip loc) allNewTimes
  /\ Forall (fun t => Date loc oldestTime 0 <= t < Date loc now 0 + 24 * Hour)
       allNewTimes.
Proof.
  intros Hfix Hsome HJ Hn Hstart Hend Hrun.
  destruct (planSpan_facts cfg skip loc oldestTime now unpushedCommits
              Hsome HJ Hn src)
    as (plan & src1 & Hrun1 & Hplan).
  rewrite Hrun in Hrun1. inversion Hrun1; subst plan src1; clear Hrun1.
  destruct Hplan as [[Hno _] | (parts & Heq & _ & Hparts)]; [discriminate|].
  inversion Heq; subst allCommits allNewTimes; clear Heq.
  destruct (days_facts off skip loc oldestTime now Hfix) as [Hdays Hspaced].
  set (days := enumerateDaysSkipping loc (Date loc oldestTime 0)
                 (Date loc now 0) skip) in *.
  assert (Hwin : forall d, midnight loc d ->
                   workDayStart cfg loc d = d + WorkDayStartHour cfg * Hour
                   /\ workDayEnd cfg loc d = d + WorkDayEndHour cfg * Hour).
  { intros d Hd. unfold workDayStart, workDayEnd.
    now rewrite !(Date_of_midnight off loc d _ Hfix Hd). }
  destruct (concat_ascending (workDayStart cfg loc) (workDayEnd cfg loc)
              days parts) as [Hsorted Hin].
  - eapply StronglySorted_among; [|exact Hdays|exact Hspaced].
    intros a b (Ha & _) (Hb & _) Hab. cbv beta in *.
    destruct (Hwin a Ha) as [_ ->]. destruct (Hwin b Hb) as [-> _].
    unfold Hour, Minute, Second in *. lia.
  - eapply Forall2_impl; [|exact Hparts].
    intros day part [->|(k & s1 & s2 & Hk & Hgen)]; [split; constructor|].
    eapply generate_within; [|exact Hk | exact Hgen].
    pose proof (window_at_least_an_hour off cfg loc day Hfix ltac:(lia)).
    unfold Hour, Minute, Second in *. lia.
  - split; [now apply StronglySorted_Sorted|].
    rewrite Forall_forall in Hdays.
    split; apply Forall_forall; intros t Ht; rewrite Forall_forall in Hin;
      destruct (Hin t Ht) as (day & Hday & Hlo & Hhi);
      destruct (Hdays day Hday) as (Hmid & Hrange & Hskip);
      destruct (Hwin day Hmid) as [Es Ee]; rewrite Es in Hlo; rewrite Ee in Hhi;
      assert (Hsame : day <= t < day + 24 * Hour)
        by (unfold Hour, Minute, Second in *; lia);
      destruct (same_day off loc day t Hfix Hmid Hsame) as [Hw Htod].
    + unfold workingTime. rewrite Hw, Htod. split; [exact Hskip | lia].
    + unfold Hour, Minute, Second in *. lia.
Qed.

Lemma span_plan_keeps_working_time_witness :
  Sorted Z.le threeEvenings
  /\ Forall (workingTime testConfig (parseWeekdays "Sat,Sun") UTC) threeEvenings
  /\ Forall (fun t => Date UTC (monday2024 + 10 * Hour) 0 <= t
                      < Date UTC (daysLater 2 monday2024 + 15 * Hour) 0
                        + 24 * Hour)
       threeEvenings.
Proof.
  apply (span_plan_keeps_working_time 0 testConfig (parseWeekdays "Sat,Sun")
           UTC (monday2024 + 10 * Hour) (daysLater 2 monday2024 + 15 * Hour)
           threeCommits (Rand.const 0) (Rand.const 0) (rev threeCommits)
           threeEvenings).
  - intros sec. reflexivity.
  - discriminate.
  - simpl. lia.
  - simpl. lia.
  - simpl. lia.
  - simpl. lia.
  - vm_compute. reflexivity.
Defined.

(** Across the day on which the clocks go back in New York the plan goes
    back in time.  From Sunday 2024-11-03 to the Monday the steps of 24 hours
    fall on the Sunday twice and get the same work window; the commit of the
    second step, drawn thirty minutes before its end, is planned before the
    commit of the first, drawn five minutes before it. *)
Example plan_across_a_clock_change :
  workDayEnd testConfig newYork2024 (daysLater 1 eveOfFallBack2024)
  = workDayEnd testConfig newYork2024 (daysLater 2 eveOfFallBack2024)
  /\ option_map fst
       (planSpan testConfig noWeekday newYork2024
          (daysLater 1 eveOfFallBack2024 + 10 * Hour)
          (daysLater 2 eveOfFallBack2024 + 10 * Hour)
          [regularCommit "c2" "Ann" "ann@example.com";
           regularCommit "c1" "Ann" "ann@example.com"]
          (fun k => match k with O => 5 | _ => 30 end))
     = Some (Planned
               [regularCommit "c1" "Ann" "ann@example.com";
                regularCommit "c2" "Ann" "ann@example.com"]
               [workDayEnd testConfig newYork2024 (daysLater 1 eveOfFallBack2024)
                - 5 * Minute;
                workDayEnd testConfig newYork2024 (daysLater 1 eveOfFallBack2024)
                - 30 * Minute]).
Proof. split; vm_compute; reflexivity. Qed.

(** ** More on the Day Allocation Distributor *)

Lemma rem_two_even i : 0 <= i -> (GoInt.rem i 2 =? 0) = Z.even i.
Proof.
  intros Hi. unfold GoInt.rem. rewrite Z.rem_mod_nonneg by lia.
  rewrite Zmod_even. destruct (Z.even i); reflexivity.
Qed.

(** The loop over the middle commits on two days, in closed form. *)
Lemma alternateEnds_two fuel :
  forall i a b src,
    0 <= i ->
    alternateEnds 2 fuel i [a; b] src
    = Some ([a + (Z.of_nat fuel + (if Z.even i then 1 else 0)) / 2;
             b + (Z.of_nat fuel + (if Z.even i then 0 else 1)) / 2], src).
Proof.
  induction fuel as [|fuel IH]; intros i a b src Hi.
  - cbn [alternateEnds]. unfold ret. do 2 f_equal.
    destruct (Z.even i); simpl; change (1 / 2) with 0; change (0 / 2) with 0;
      now rewrite !Z.add_0_r.
  - cbn [alternateEnds]. unfold bind at 1, lift at 1.
    rewrite rem_two_even by exact Hi.
    assert (Hnext : Z.even (i + 1) = negb (Z.even i)).
    { rewrite Z.add_1_r, Z.even_succ, <- Z.negb_even. reflexivity. }
    destruct (Z.even i) eqn:Ei.
    + change (Slice.incr [a; b] 0) with (Some [a + 1; b]). cbn beta iota.
      rewrite IH by lia. rewrite Hnext. cbn [negb].
      do 3 f_equal; [|f_equal]; rewrite Nat2Z.inj_succ;
        Z.div_mod_to_equations; lia.
    + change (Slice.incr [a; b] (2 - 1)) with (Some [a; b + 1]). cbn beta iota.
      rewrite IH by lia. rewrite Hnext. cbn [negb].
      do 3 f_equal; [|f_equal]; rewrite Nat2Z.inj_succ;
        Z.div_mod_to_equations; lia.
Qed.

(** X17.  Over two days [allocateAcrossDays] splits any number [n >= 2] of
    commits in halves, the first day taking the extra one: it returns
    [ceil(n/2), floor(n/2)], in the jittered and in the deterministic mode
    alike and without drawing a random number. *)
Theorem two_days_share_the_commits (cfg : Config) (n : Z) (src : Rand.Source) :
  2 <= n ->
  allocateAcrossDays cfg n 2 src = Some ([(n + 1) / 2; n / 2], src).
Proof.
  intros Hn. unfold allocateAcrossDays.
  change (2 <=? 0) with false. change (2 =? 1) with false. cbn iota zeta.
  destruct (Z.leb_spec n 0); [lia|]. destruct (Z.eqb_spec n 1); [lia|].
  change (Slice.make 2) with [0; 0].
  unfold bind at 1, lift at 1. change (Slice.store [0; 0] 0 1) with (Some [1; 0]).
  unfold bind at 1, lift at 1.
  change (Slice.store [1; 0] (2 - 1) 1) with (Some [1; 1]).
  destruct (Z.ltb_spec 2 n) as [Hgt|Hle].
  - change (0 <? 2 - 2) with false. cbn iota.
    rewrite alternateEnds_two by lia. change (Z.even 0) with true. cbn iota.
    do 3 f_equal; [|f_equal]; rewrite Z2Nat.id by lia;
      Z.div_mod_to_equations; lia.
  - assert (n = 2) by lia. subst n. reflexivity.
Qed.

Lemma two_days_share_the_commits_witness :
  allocateAcrossDays defaultConfig 9 2 (Rand.const 3)
  = Some ([(9 + 1) / 2; 9 / 2], Rand.const 3).
Proof.
  apply (two_days_share_the_commits defaultConfig 9 (Rand.const 3)). lia.
Defined.

(** X18.  Over three days or more, [allocateAcrossDays] gives the first
    and the last day exactly one commit each, whatever the random draws: of
    [n >= 2] commits the other [n - 2] all go to the days in between.  (In
    the deterministic mode for [n] below [2^31], where the formula is
    exact.) *)
Theorem first_and_last_day_take_one (cfg : Config) (n m : Z)
    (src : Rand.Source) :
  2 <= n -> 2 < m -> (JitterDays cfg = false -> n < 2 ^ 31) ->
  exists out src',
    allocateAcrossDays cfg n m src = Some (out, src')
    /\ Z.of_nat (length out) = m
    /\ Slice.at0 out 0 = 1
    /\ Slice.at0 out (m - 1) = 1
    /\ Slice.sum out = n.
Proof.
  intros Hn Hm Hb. destruct (Z.eq_dec n 2) as [->|Hne].
  - destruct (bookends m ltac:(lia)) as (out1 & out2 & H1 & H2 & L2 & S2 & A2).
    exists out2, src. split.
    { unfold allocateAcrossDays.
      destruct (Z.leb_spec m 0); [lia|]. destruct (Z.eqb_spec m 1); [lia|].
      change (2 <=? 0) with false. change (2 =? 1) with false. cbn iota zeta.
      unfold bind at 1, lift at 1. rewrite H1.
      unfold bind at 1, lift at 1. rewrite H2. reflexivity. }
    split; [exact L2|]. rewrite !A2, S2.
    destruct (Z.eqb_spec 0 0); [|lia]. destruct (Z.eqb_spec 0 (m - 1)); [lia|].
    destruct (Z.eqb_spec (m - 1) 0); [lia|].
    destruct (Z.eqb_spec (m - 1) (m - 1)); [|lia]. repeat split; lia.
  - destruct (allocate_general cfg n m src) as (out & src' & Hrun & L & S & B0 & B1 & _);
      [lia | lia | exact Hb |].
    exists out, src'. auto.
Qed.

Lemma first_and_last_day_take_one_witness :
  exists out src',
    allocateAcrossDays defaultConfig 12 5 (Rand.const 7) = Some (out, src')
    /\ Z.of_nat (length out) = 5
    /\ Slice.at0 out 0 = 1
    /\ Slice.at0 out (5 - 1) = 1
    /\ Slice.sum out = 12.
Proof.
  apply (first_and_last_day_take_one defaultConfig 12 5 (Rand.const 7));
    [lia | lia | discriminate].
Defined.

(** ** More on the Time Allocation Planner *)

Lemma insertTime_first t l :
  Forall (fun u => t <= u) l -> insertTime t l = t :: l.
Proof.
  intros H. destruct H as [|u l Hu _]; simpl; [reflexivity|].
  unfold Before. destruct (Z.ltb_spec u t); [lia | reflexivity].
Qed.

(** X19.  With jitter off and a work window that lasts an hour or more, the
    only commit of a day is placed a whole number of minutes, from 1 to 59,
    before the end of the work day: as many as the number drawn below 60,
    and one minute when 0 is drawn, since the end itself is not allowed.
    The window is taken between its two instants, so that the property holds
    in every location, also on a day with a clock change. *)
Theorem single_commit_in_the_last_hour (cfg : Config) (loc : Location)
    (day : Time) (src : Rand.Source) :
  JitterMinutes cfg <= 0 ->
  workDayStart cfg loc day + Hour <= workDayEnd cfg loc day ->
  generateCommitTimesForDay cfg loc day 1 src
  = Some ([workDayEnd cfg loc day - Z.max 1 (src O mod 60) * Minute],
          Rand.advance src)
  /\ 1 <= Z.max 1 (src O mod 60) <= 59.
Proof.
  intros HJ Hwin.
  pose proof (Z.mod_pos_bound (src O) 60 ltac:(lia)) as Hr.
  split; [|lia].
  erewrite generate_from_placed; [|lia|apply placeTimes_single_no_jitter; exact HJ].
  set (start := workDayStart cfg loc day) in *.
  set (finish := workDayEnd cfg loc day) in *.
  set (r := src O mod 60) in *.
  assert (Hneg : GoInt.mul (GoInt.neg r) Minute = - r * Minute).
  { unfold GoInt.mul, GoInt.neg.
    rewrite (wrap_in_range (- r)) by (unfold GoInt.min_int, GoInt.max_int; lia).
    apply wrap_in_range.
    unfold GoInt.min_int, GoInt.max_int, Minute, Second. lia. }
  rewrite Hneg. cbn [map sortTimes fold_right insertTime].
  do 3 f_equal.
  unfold clampToWorkDay, Before, After, Equal, Add, Hour, Minute, Second in *.
  destruct (Z.ltb_spec (finish + - r * (60 * 1000000000) + 0) start); [lia|].
  destruct (Z.ltb_spec finish (finish + - r * (60 * 1000000000) + 0)); [lia|].
  cbn [orb].
  destruct (Z.eqb_spec (finish + - r * (60 * 1000000000) + 0) finish); lia.
Qed.

Lemma single_commit_in_the_last_hour_witness :
  generateCommitTimesForDay testConfig newYork2024 springForward2024 1
    (Rand.const 25)
  = Some ([workDayEnd testConfig newYork2024 springForward2024
           - Z.max 1 (Rand.const 25 O mod 60) * Minute],
          Rand.advance (Rand.const 25))
  /\ 1 <= Z.max 1 (Rand.const 25 O mod 60) <= 59.
Proof.
  apply (single_commit_in_the_last_hour testConfig newYork2024
           springForward2024 (Rand.const 25));
    [simpl; lia | vm_compute; discriminate].
Defined.

(** X20.  With jitter off and a work window that lasts a minute or more,
    the first of two or more commits of a day is placed exactly at the start
    of the work day, whatever their number.  The window is taken between its
    two instants, so that the property holds in every location, also on a day
    with a clock change. *)
Theorem first_commit_at_the_start (cfg : Config) (loc : Location)
    (day : Time) (n : Z) (src : Rand.Source) :
  JitterMinutes cfg <= 0 ->
  workDayStart cfg loc day + Minute <= workDayEnd cfg loc day ->
  2 <= n ->
  exists later,
    generateCommitTimesForDay cfg loc day n src
    = Some (workDayStart cfg loc day :: later, src)
    /\ Z.of_nat (length later) = n - 1.
Proof.
  intros HJ Hwin Hn.
  set (start := workDayStart cfg loc day) in *.
  set (finish := workDayEnd cfg loc day) in *.
  set (interval := GoInt.quo (Sub finish start) (n - 1)).
  assert (Hplaced : placeTimes cfg start finish n src
                    = Some (baseTimes start interval (Z.to_nat n) 0, src)).
  { unfold placeTimes. destruct (Z.eqb_spec n 1); [lia|]. cbn zeta.
    apply spreadTimes_no_jitter. exact HJ. }
  unfold start, finish in Hplaced.
  rewrite (generate_from_placed cfg loc day n src _ _ ltac:(lia) Hplaced).
  fold start finish.
  destruct (Z.to_nat n) as [|k] eqn:Ek; [lia|].
  cbn [baseTimes map sortTimes fold_right].
  set (later := fold_right insertTime []
                  (map (clampToWorkDay start finish)
                     (baseTimes start interval k (0 + 1)))).
  assert (Hfirst : clampToWorkDay start finish
                     (Add (Add start (GoInt.mul 0 interval)) 0) = start).
  { unfold GoInt.mul. rewrite Z.mul_0_l. change (GoInt.wrap 0) with 0.
    unfold clampToWorkDay, Before, After, Equal, Add, Hour, Minute, Second in *.
    destruct (Z.ltb_spec (start + 0 + 0) start); [lia|].
    destruct (Z.ltb_spec finish (start + 0 + 0)); [lia|]. cbn [orb].
    destruct (Z.eqb_spec (start + 0 + 0) finish); lia. }
  rewrite Hfirst. exists later. split.
  - rewrite insertTime_first; [reflexivity|].
    apply (sortTimes_Forall (fun u => start <= u)).
    apply Forall_map, Forall_forall. intros t _.
    apply clampToWorkDay_within. unfold Hour, Minute, Second in *. lia.
  - unfold later. fold (sortTimes (map (clampToWorkDay start finish)
                                     (baseTimes start interval k (0 + 1)))).
    rewrite sortTimes_length, length_map.
    assert (Hlen : forall fuel i, length (baseTimes start interval fuel i) = fuel).
    { induction fuel; intros i; simpl; auto. }
    rewrite Hlen. lia.
Qed.

Lemma first_commit_at_the_start_witness :
  exists later,
    generateCommitTimesForDay testConfig newYork2024 springForward2024 500
      (Rand.const 25)
    = Some (workDayStart testConfig newYork2024 springForward2024 :: later,
            Rand.const 25)
    /\ Z.of_nat (length later) = 500 - 1.
Proof.
  apply (first_commit_at_the_start testConfig newYork2024 springForward2024
           500 (Rand.const 25));
    [simpl; lia | vm_compute; discriminate | lia].
Defined.

(** ** The message of a merge *)

Section MergeMessage.

Local Open Scope string_scope.

(** Trimming keeps everything up to a byte that is not white space. *)
Lemma trimRight_keeps a c b :
  isSpace c = false ->
  exists b', trimRight (a ++ String c b) = a ++ String c b'.
Proof.
  intros Hc. induction a as [|x a [b' IH]]; simpl.
  - destruct (trimRight b); [rewrite Hc|]; eauto.
  - rewrite IH. exists b'. destruct a; reflexivity.
Qed.

(** The first piece of a string runs at least to its first separator. *)
Lemma splitAt_head sep a c b :
  free sep a = true -> sep c = false ->
  exists rest tail,
    splitAt sep (a ++ String c b) = (a ++ String c rest) :: tail.
Proof.
  intros Ha Hc. induction a as [|x a IH]; simpl.
  - rewrite Hc. destruct (splitAt sep b); eauto.
  - simpl in Ha. apply andb_true_iff in Ha. destruct Ha as [Hx Ha].
    apply negb_true_iff in Hx. rewrite Hx.
    destruct (IH Ha) as (rest & tail & ->). eauto.
Qed.

Lemma substring_all s : substring 0 (String.length s) s = s.
Proof. induction s as [|c s IH]; simpl; [reflexivity | now rewrite IH]. Qed.

Lemma substring_prefix a b : substring 0 (String.length a) (a ++ b) = a.
Proof.
  induction a as [|c a IH]; simpl; [destruct b; reflexivity | now rewrite IH].
Qed.

Lemma index_of_quote name rest :
  free (Ascii.eqb "'") name = true ->
  String.index 0 "'" (name ++ String "'" rest) = Some (String.length name).
Proof.
  induction name as [|x name IH]; intros Hfree.
  - cbn [String.append index prefix String.length].
    destruct (ascii_dec "'" "'"); [destruct rest; reflexivity | congruence].
  - cbn [free] in Hfree. apply andb_true_iff in Hfree. destruct Hfree as [Hx Hn].
    apply negb_true_iff in Hx. cbn [String.append index prefix].
    destruct (ascii_dec "'" x) as [E|_];
      [apply Ascii.eqb_neq in Hx; contradiction|].
    now rewrite (IH Hn).
Qed.

Lemma index_of_prefix p s :
  p <> "" -> String.index 0 p (p ++ s) = Some 0%nat.
Proof.
  intros Hne. destruct p as [|a p]; [contradiction|].
  assert (Hprefix : prefix (String a p) (String a p ++ s) = true)
    by apply prefix_correct, substring_prefix.
  cbn [String.append] in *. cbn [index]. now rewrite Hprefix.
Qed.

Lemma substring_skip p s n :
  substring (String.length p) n (p ++ s) = substring 0 n s.
Proof. induction p as [|c p IH]; simpl; [reflexivity | exact IH]. Qed.

Lemma length_append a b :
  String.length (a ++ b) = (String.length a + String.length b)%nat.
Proof. induction a as [|c a IH]; simpl; [reflexivity | now rewrite IH]. Qed.

End MergeMessage.

(** X21.  The branch name is read back from the message the executor gives
    a merge: for a name without a quote and without a new line, whatever the
    branch merged into, [extractBranchNameFromMergeMessage] of
    [Merge branch '<name>' into <branch>] is the name, so that rewriting a
    history that was already rewritten keeps the names of the merged
    branches. *)
Theorem branch_name_read_back_from_merge_message
    (originalBranchName branchName : string) :
  free isQuoteOrNewline originalBranchName = true ->
  extractBranchNameFromMergeMessage
    (customMergeMessage originalBranchName branchName)
  = originalBranchName.
Proof.
  intros Hfree.
  assert (Hquote : free (Ascii.eqb "'") originalBranchName = true).
  { revert Hfree. apply free_weaken. intros c E. unfold isQuoteOrNewline.
    now rewrite E. }
  assert (Hline : free (Ascii.eqb newline) originalBranchName = true).
  { revert Hfree. apply free_weaken. intros c E. unfold isQuoteOrNewline.
    rewrite E. apply orb_true_r. }
  set (P := "Merge branch '"%string).
  assert (Hmsg : customMergeMessage originalBranchName branchName
                 = String.append (String.append P originalBranchName)
                     (String "'" (String.append " into " branchName))).
  { unfold customMergeMessage. now rewrite append_assoc. }
  destruct (trimRight_keeps (String.append P originalBranchName) "'"
              (String.append " into " branchName) eq_refl) as (b' & Htrim).
  destruct (splitAt_head (Ascii.eqb newline)
              (String.append P originalBranchName) "'" b')
    as (rest & tail & Hsplit); [|reflexivity|].
  { rewrite free_app, Hline. reflexivity. }
  unfold extractBranchNameFromMergeMessage, TrimSpace.
  replace (trimLeft (customMergeMessage originalBranchName branchName))
    with (customMergeMessage originalBranchName branchName) by reflexivity.
  rewrite Hmsg, Htrim. unfold SplitLines. fold newline. rewrite Hsplit.
  rewrite append_assoc.
  set (z := String.append originalBranchName (String "'" rest)).
  assert (Hindex : Index (String.append P z) P = 0).
  { unfold Index. now rewrite index_of_prefix by discriminate. }
  assert (Hcontains : Contains (String.append P z) P = true).
  { unfold Contains. now rewrite Hindex. }
  fold P. rewrite Hcontains, Hindex.
  assert (Hfrom : sliceFrom (String.append P z) (0 + len P) = z).
  { unfold sliceFrom.
    replace (Z.to_nat (0 + len P)) with (String.length P) by (unfold len; lia).
    rewrite length_append.
    replace (String.length P + String.length z - String.length P)%nat
      with (String.length z) by lia.
    rewrite substring_skip. apply substring_all. }
  assert (Hfinish : Index z "'" = Z.of_nat (String.length originalBranchName)).
  { unfold Index, z. now rewrite (index_of_quote originalBranchName rest Hquote). }
  rewrite Hfrom, Hfinish.
  destruct (Z.eqb_spec (Z.of_nat (String.length originalBranchName)) (-1)); [lia|].
  unfold slice.
  replace (Z.to_nat (0 + len P + Z.of_nat (String.length originalBranchName)
                     - (0 + len P)))
    with (String.length originalBranchName) by lia.
  replace (Z.to_nat (0 + len P)) with (String.length P) by (unfold len; lia).
  rewrite substring_skip. unfold z. apply substring_prefix.
Qed.

Lemma branch_name_read_back_from_merge_message_witness :
  extractBranchNameFromMergeMessage
    (customMergeMessage "feature/login" "main")
  = "feature/login"%string.
Proof.
  apply (branch_name_read_back_from_merge_message "feature/login" "main").
  reflexivity.
Defined.

(** ** The plan of a rewrite day by day *)

(** *** The order of strings *)

Section StringOrder.

Local Open Scope string_scope.

Lemma ascii_compare_lt_trans a b c :
  Ascii.compare a b = Lt -> Ascii.compare b c = Lt -> Ascii.compare a c = Lt.
Proof.
  unfold Ascii.compare. rewrite !N.compare_lt_iff. lia.
Qed.

Lemma string_compare_trans s1 :
  forall s2 s3,
    String.compare s1 s2 <> Gt -> String.compare s2 s3 <> Gt ->
    String.compare s1 s3 <> Gt.
Proof.
  induction s1 as [|c1 s1 IH]; intros [|c2 s2] [|c3 s3]; simpl;
    try congruence.
  destruct (Ascii.compare c1 c2) eqn:E12; [| |congruence].
  - apply Ascii.compare_eq_iff in E12. subst c2.
    destruct (Ascii.compare c1 c3); [apply IH | congruence | congruence].
  - destruct (Ascii.compare c2 c3) eqn:E23; [| |congruence].
    + apply Ascii.compare_eq_iff in E23. subst c3. rewrite E12. congruence.
    + rewrite (ascii_compare_lt_trans _ _ _ E12 E23). congruence.
Qed.

Lemma leb_trans s1 s2 s3 :
  String.leb s1 s2 = true -> String.leb s2 s3 = true -> String.leb s1 s3 = true.
Proof.
  unfold String.leb. intros H12 H23.
  pose proof (string_compare_trans s1 s2 s3) as H.
  destruct (String.compare s1 s2), (String.compare s2 s3),
    (String.compare s1 s3); try reflexivity; try discriminate;
    exfalso; apply H; congruence.
Qed.

Lemma insertString_In s l x : In x (insertString s l) <-> x = s \/ In x l.
Proof.
  induction l as [|u l IH]; simpl; [intuition|].
  destruct (String.leb s u); simpl; [intuition|]. rewrite IH. intuition.
Qed.

Lemma insertString_sorted s l :
  StronglySorted (fun a b => String.leb a b = true) l ->
  StronglySorted (fun a b => String.leb a b = true) (insertString s l).
Proof.
  intros H. induction H as [|u l Hs IH Hu]; simpl; [repeat constructor|].
  destruct (String.leb s u) eqn:E.
  - constructor; [now constructor|]. constructor; [exact E|].
    eapply Forall_impl; [|exact Hu]. intros x Hx. now apply (leb_trans s u x).
  - constructor; [exact IH|]. apply Forall_forall. intros x Hx.
    apply insertString_In in Hx. destruct Hx as [->|Hx].
    + destruct (String.leb_total s u) as [H|H]; congruence.
    + rewrite Forall_forall in Hu. now apply Hu.
Qed.

Lemma insertString_NoDup s l : ~ In s l -> NoDup l -> NoDup (insertString s l).
Proof.
  intros Hs Hl. induction Hl as [|u l Hu Hl IH]; simpl; [repeat constructor; auto|].
  destruct (String.leb s u).
  - constructor; [exact Hs | now constructor].
  - constructor.
    + rewrite insertString_In. intros [->|H]; [apply Hs; now left | contradiction].
    + apply IH. intros H. apply Hs. now right.
Qed.

Lemma sortStrings_In l x : In x (sortStrings l) <-> In x l.
Proof.
  induction l as [|s l IH]; simpl; [reflexivity|].
  rewrite insertString_In, IH. intuition.
Qed.

Lemma sortStrings_sorted l :
  StronglySorted (fun a b => String.leb a b = true) (sortStrings l).
Proof.
  induction l as [|s l IH]; simpl; [constructor | now apply insertString_sorted].
Qed.

Lemma sortStrings_NoDup l : NoDup l -> NoDup (sortStrings l).
Proof.
  induction 1 as [|s l Hs Hl IH]; simpl; [constructor|].
  apply insertString_NoDup; [now rewrite sortStrings_In | exact IH].
Qed.

End StringOrder.

(** *** The map of the days *)

Section DayMapFacts.

Lemma lookup_store_same m d v : lookupDay (storeDay m d v) d = v.
Proof.
  induction m as [|[k old] m IH]; simpl; [now rewrite String.eqb_refl|].
  destruct (String.eqb d k) eqn:E; simpl; rewrite E; [reflexivity | exact IH].
Qed.

Lemma lookup_store_other m d d' v :
  d' <> d -> lookupDay (storeDay m d v) d' = lookupDay m d'.
Proof.
  intros Hne. induction m as [|[k old] m IH]; simpl.
  - apply String.eqb_neq in Hne. now rewrite Hne.
  - destruct (String.eqb d k) eqn:E; simpl; [|now rewrite IH].
    apply String.eqb_eq in E. subst k.
    apply String.eqb_neq in Hne. now rewrite Hne.
Qed.

Lemma store_keys m d v :
  NoDup (map fst m) -> NoDup (map fst (storeDay m d v)).
Proof.
  induction m as [|[k old] m IH]; simpl; [repeat constructor; auto|].
  intros Hnd. inversion Hnd as [|? ? Hk Hm]; subst.
  destruct (String.eqb d k) eqn:E; simpl; [exact Hnd|].
  constructor; [|now apply IH].
  intros Hin. apply Hk. clear - Hin E.
  induction m as [|[k' old'] m IH]; simpl in *.
  - destruct Hin as [->|[]]. now rewrite String.eqb_refl in E.
  - destruct (String.eqb d k'); simpl in Hin; [exact Hin|].
    destruct Hin as [->|Hin]; [now left | right; auto].
Qed.

Lemma store_perm m d c :
  Permutation (concat (map snd (storeDay m d (lookupDay m d ++ [c]))))
    (c :: concat (map snd m)).
Proof.
  induction m as [|[k old] m IH]; simpl; [reflexivity|].
  destruct (String.eqb d k); simpl.
  - rewrite <- app_assoc. simpl. symmetry. apply Permutation_middle.
  - rewrite IH. symmetry. apply Permutation_middle.
Qed.

(** A key that is stored has commits. *)
Lemma lookup_of_key m d :
  Forall (fun kv => snd kv <> []) m -> In d (map fst m) -> lookupDay m d <> [].
Proof.
  induction 1 as [|[k v] m Hv _ IH]; simpl; [contradiction|].
  destruct (String.eqb d k) eqn:E; [intros _; exact Hv|].
  intros [<-|Hin]; [now rewrite String.eqb_refl in E | auto].
Qed.

Lemma lookup_no_key m d : ~ In d (map fst m) -> lookupDay m d = [].
Proof.
  induction m as [|[k v] m IH]; simpl; [reflexivity|].
  intros Hno. destruct (String.eqb d k) eqn:E.
  - apply String.eqb_eq in E. subst k. exfalso. apply Hno. now left.
  - apply IH. intros H. apply Hno. now right.
Qed.

Lemma store_groups m d v :
  v <> [] -> Forall (fun kv => snd kv <> []) m ->
  Forall (fun kv : string * list Commit => snd kv <> []) (storeDay m d v).
Proof.
  intros Hv. induction 1 as [|[k old] m Hold Hm IH]; simpl;
    [repeat constructor; exact Hv|].
  destruct (String.eqb d k); constructor; auto.
Qed.

(** With keys that are all different, reading every key gives every
    group. *)
Lemma lookup_every_key m :
  NoDup (map fst m) -> map (lookupDay m) (map fst m) = map snd m.
Proof.
  induction m as [|[k v] m IH]; simpl; [reflexivity|].
  intros Hnd. inversion Hnd as [|? ? Hk Hm]; subst.
  rewrite String.eqb_refl. f_equal. rewrite <- (IH Hm).
  apply map_ext_in. intros d Hd.
  destruct (String.eqb d k) eqn:E; [|reflexivity].
  apply String.eqb_eq in E. subst d. contradiction.
Qed.

End DayMapFacts.

Section Grouping.

Variable Parse : string -> option (Time * Location).
Variable FormatDay : Time * Location -> string.
Variable Now : nat -> Time * Location.

Let onDay (d : string) (commit : Commit) : bool :=
  String.eqb (dayOf Parse FormatDay commit) d.

(** What the loop of [groupCommitsByDay] adds to the map. *)
Lemma groupFrom_facts commits :
  forall reads m,
    NoDup (map fst m) ->
    Forall (fun kv => snd kv <> []) m ->
    let m' := groupFrom Parse FormatDay Now commits reads m in
    NoDup (map fst m')
    /\ Forall (fun kv => snd kv <> []) m'
    /\ Permutation (concat (map snd m')) (concat (map snd m) ++ commits)
    /\ (Forall (dated Parse) commits ->
        forall d, lookupDay m' d = lookupDay m d ++ filter (onDay d) commits).
Proof.
  induction commits as [|commit commits IH]; intros reads m Hnd Hne; cbn zeta.
  - simpl. rewrite app_nil_r. repeat split; auto.
    intros _ d. now rewrite app_nil_r.
  - cbn [groupFrom].
    set (step := match Parse (DateTime commit) with
                 | Some commitTime => (commitTime, reads)
                 | None => (Now reads, S reads)
                 end).
    destruct step as [commitTime reads'] eqn:Estep.
    set (dayStr := FormatDay commitTime).
    set (m1 := storeDay m dayStr (lookupDay m dayStr ++ [commit])).
    destruct (IH reads' m1) as (Hnd' & Hne' & Hperm & Hlook).
    { now apply store_keys. }
    { apply store_groups; [destruct (lookupDay m dayStr); discriminate | exact Hne]. }
    split; [exact Hnd'|]. split; [exact Hne'|]. split.
    + rewrite Hperm. unfold m1. rewrite store_perm.
      rewrite <- Permutation_middle. reflexivity.
    + intros Hdated d. inversion Hdated as [|? ? Hc Hrest]; subst.
      rewrite (Hlook Hrest). unfold m1.
      assert (Hday : dayOf Parse FormatDay commit = dayStr).
      { unfold dayOf, dayStr. unfold step in Estep. unfold dated in Hc.
        destruct (Parse (DateTime commit)); [|contradiction].
        now inversion Estep. }
      cbn [filter]. unfold onDay at 2. rewrite Hday.
      destruct (String.eqb dayStr d) eqn:E.
      * apply String.eqb_eq in E. subst d. rewrite lookup_store_same.
        now rewrite <- app_assoc.
      * rewrite lookup_store_other; [reflexivity|].
        intros ->. now rewrite String.eqb_refl in E.
Qed.

End Grouping.

(** *** Commits in the order of their days *)

Section HistoryOrder.

Variable key : Commit -> string.

Let byDay (a b : Commit) : Prop := String.leb (key a) (key b) = true.
Let before (a b : string) : Prop := String.leb a b = true /\ a <> b.
Let on (d : string) (c : Commit) : bool := String.eqb (key c) d.

Lemma filter_none {A : Type} (f : A -> bool) (l : list A) :
  (forall x, In x l -> f x = false) -> filter f l = [].
Proof.
  induction l as [|x l IH]; simpl; [reflexivity|]. intros H.
  rewrite (H x (or_introl eq_refl)). apply IH. intros y Hy. apply H. now right.
Qed.

Lemma filter_within {A : Type} (f g : A -> bool) (l : list A) :
  (forall x, f x = true -> g x = true) ->
  filter f (filter g l) = filter f l.
Proof.
  intros Hfg. induction l as [|x l IH]; simpl; [reflexivity|].
  destruct (g x) eqn:Eg; simpl; [now rewrite IH|].
  destruct (f x) eqn:Ef; [|exact IH]. apply Hfg in Ef. congruence.
Qed.

Lemma StronglySorted_filter {A : Type} (R : A -> A -> Prop) (f : A -> bool) l :
  StronglySorted R l -> StronglySorted R (filter f l).
Proof.
  induction 1 as [|x l Hs IH Hx]; simpl; [constructor|].
  destruct (f x); [|exact IH]. constructor; [exact IH|].
  rewrite Forall_forall in *. intros y Hy. apply filter_In in Hy. apply Hx, Hy.
Qed.

(** In a list in the order of the days, the commits of the first day come
    first. *)
Lemma first_day_first d r :
  StronglySorted byDay r ->
  (forall c, In c r -> key c = d \/ before d (key c)) ->
  r = filter (on d) r ++ filter (fun c => negb (on d c)) r.
Proof.
  induction 1 as [|c r Hs IH Hc]; intros Hd; [reflexivity|].
  destruct (Hd c (or_introl eq_refl)) as [E|[Hle Hne]].
  - assert (Hon : on d c = true) by (unfold on; rewrite E; apply String.eqb_refl).
    cbn [filter]. rewrite Hon. cbn [negb app].
    f_equal. apply IH. intros x Hx. apply Hd. now right.
  - assert (Hoff : on d c = false).
    { unfold on. apply String.eqb_neq. congruence. }
    assert (Hnone : forall x, In x r -> on d x = false).
    { intros x Hx. unfold on. apply String.eqb_neq. intros E.
      rewrite Forall_forall in Hc. specialize (Hc x Hx). unfold byDay in Hc.
      rewrite E in Hc. apply Hne. now apply String.leb_antisym. }
    cbn [filter]. rewrite Hoff. cbn [negb].
    rewrite (filter_none (on d) r Hnone). cbn [app]. f_equal.
    symmetry. apply filter_all. apply Forall_forall. intros x Hx.
    now rewrite (Hnone x Hx).
Qed.

(** Taking the commits day by day, in the order of the days, gives back a
    list that is in the order of the days. *)
Lemma concat_by_day ds :
  forall r,
    StronglySorted before ds ->
    StronglySorted byDay r ->
    (forall c, In c r -> In (key c) ds) ->
    concat (map (fun d => filter (on d) r) ds) = r.
Proof.
  induction ds as [|d ds IH]; intros r Hds Hr Hin.
  - destruct r as [|c r]; [reflexivity|]. destruct (Hin c (or_introl eq_refl)).
  - inversion Hds as [|? ? Hds' Hd]; subst. cbn [map concat].
    rewrite Forall_forall in Hd.
    set (later := filter (fun c => negb (on d c)) r).
    assert (Hrest : concat (map (fun d' => filter (on d') r) ds) = later).
    { rewrite <- (IH later Hds').
      - f_equal. apply map_ext_in. intros d' Hd'. unfold later.
        symmetry. apply filter_within. intros x Hx. unfold on in *.
        apply String.eqb_eq in Hx. apply negb_true_iff, String.eqb_neq.
        rewrite Hx. intros ->. destruct (Hd d Hd') as [_ Hne]. now apply Hne.
      - now apply StronglySorted_filter.
      - intros c Hc. apply filter_In in Hc. destruct Hc as [Hc Hoff].
        destruct (Hin c Hc) as [E|Hlater]; [|exact Hlater].
        unfold on in Hoff. rewrite <- E, String.eqb_refl in Hoff. discriminate. }
    rewrite Hrest. symmetry. apply first_day_first; [exact Hr|].
    intros c Hc. destruct (Hin c Hc) as [E|Hlater]; [now left | right].
    now apply Hd.
Qed.

End HistoryOrder.

Lemma sorted_strictly ds :
  NoDup ds -> StronglySorted (fun a b => String.leb a b = true) ds ->
  StronglySorted (fun a b => String.leb a b = true /\ a <> b) ds.
Proof.
  intros Hnd Hs. induction Hs as [|d ds Hs IH Hd]; [constructor|].
  inversion Hnd as [|? ? Hno Hnd']; subst. constructor; [now apply IH|].
  rewrite Forall_forall in *. intros x Hx. split; [now apply Hd|].
  intros ->. contradiction.
Qed.

Lemma concat_rev_perm {A B : Type} (f : A -> list B) (l : list A) :
  Permutation (concat (map (fun d => rev (f d)) l)) (concat (map f l)).
Proof.
  induction l as [|d l IH]; simpl; [reflexivity|].
  apply Permutation_app; [symmetry; apply Permutation_rev | exact IH].
Qed.

Lemma concat_perm {A B : Type} (f : A -> list B) (l l' : list A) :
  Permutation l l' -> Permutation (concat (map f l)) (concat (map f l')).
Proof.
  intros H. rewrite <- !flat_map_concat_map. now apply Permutation_flat_map.
Qed.

(** *** The plan *)

Section PlanCadence.

Variable Parse : string -> option (Time * Location).
Variable FormatDay : Time * Location -> string.
Variable Now : nat -> Time * Location.
Variable cfg : Config.

Hypothesis jitter_in_range : JitterMinutes cfg < 2 ^ 62.

(** Over days that have commits, all dated, the loop returns: it takes the
    commits of each day, oldest first, and as many timestamps. *)
Lemma planSortedDays_facts (m : DayMap) (sortedDays : list string) :
  forall allCommits allNewTimes src,
    (forall d, In d sortedDays ->
       lookupDay m d <> [] /\ Forall (dated Parse) (lookupDay m d)) ->
    exists newTimes src',
      planSortedDays Parse cfg m sortedDays allCommits allNewTimes src
      = Some ((allCommits
               ++ concat (map (fun d => rev (lookupDay m d)) sortedDays),
               allNewTimes ++ newTimes), src')
      /\ length newTimes
         = length (concat (map (fun d => rev (lookupDay m d)) sortedDays)).
Proof.
  induction sortedDays as [|dayStr sortedDays IH];
    intros allCommits allNewTimes src Hdays.
  - exists [], src. simpl. rewrite !app_nil_r. auto.
  - destruct (Hdays dayStr (or_introl eq_refl)) as [Hne Hdated].
    cbn [planSortedDays]. cbv zeta.
    destruct (lookupDay m dayStr) as [|firstCommit others] eqn:Elook;
      [contradiction|].
    unfold bind at 1, lift at 1. cbn [hd_error].
    inversion Hdated as [|? ? Hfirst _]; subst. unfold dated in Hfirst.
    destruct (Parse (DateTime firstCommit)) as [[firstCommitTime loc]|];
      [|contradiction].
    destruct (generate_total cfg loc (Date loc firstCommitTime 0)
                (Z.of_nat (length (rev (firstCommit :: others)))) src
                jitter_in_range) as (times & src1 & Hgen & Hl).
    { rewrite length_rev. simpl. lia. }
    unfold bind at 1. rewrite Hgen. unfold bind at 1, lift at 1.
    destruct (Z.leb_spec (Z.of_nat (length (rev (firstCommit :: others))))
                (Z.of_nat (length times))); [|lia].
    destruct (IH (allCommits ++ rev (firstCommit :: others))
                (allNewTimes ++ times) src1)
      as (newTimes & src' & Hrun & Hlen).
    { intros d Hd. apply Hdays. now right. }
    exists (times ++ newTimes), src'. rewrite Hrun. cbn [map concat].
    rewrite Elook, <- !app_assoc. split; [reflexivity|].
    rewrite !length_app, Hlen. lia.
Qed.

End PlanCadence.

(** X22.  [groupCommitsByDay] loses no commit and invents none: the groups
    together are a rearrangement of the commits, no day has two groups or an
    empty one, and when the dates of all the commits are parsed the group of
    a day is the commits of that day in the order they were given. *)
Theorem grouping_by_day_keeps_every_commit
    (Parse : string -> option (Time * Location))
    (FormatDay : Time * Location -> string) (Now : nat -> Time * Location)
    (commits : list Commit) :
  Permutation
    (concat (map snd (groupCommitsByDay Parse FormatDay Now commits))) commits
  /\ NoDup (map fst (groupCommitsByDay Parse FormatDay Now commits))
  /\ Forall (fun group => snd group <> [])
       (groupCommitsByDay Parse FormatDay Now commits)
  /\ (Forall (dated Parse) commits ->
      forall d,
        lookupDay (groupCommitsByDay Parse FormatDay Now commits) d
        = filter (fun commit => String.eqb (dayOf Parse FormatDay commit) d)
            commits).
Proof.
  destruct (groupFrom_facts Parse FormatDay Now commits O [])
    as (Hnd & Hne & Hperm & Hlook); [constructor | constructor |].
  fold (groupCommitsByDay Parse FormatDay Now commits) in *.
  repeat split; auto.
Qed.

(** X23.  The plan of [commitCadence] for a repository whose commit dates
    are all parsed holds every unpushed commit once, with one timestamp each;
    and when the days of the commits do not go back along the history, the
    commits are passed to [git.UpdateCommitTimes] in the order of the
    history, oldest first.  (The commits are taken day by day in the order of
    the dates, so a history whose dates go back is replayed in another
    order.) *)
Theorem same_day_plan_follows_the_days
    (Parse : string -> option (Time * Location))
    (FormatDay : Time * Location -> string) (Now : nat -> Time * Location)
    (cfg : Config) (unpushedCommits : list Commit) (src : Rand.Source) :
  Forall (dated Parse) unpushedCommits ->
  JitterMinutes cfg < 2 ^ 62 ->
  exists allCommits allNewTimes src',
    planCadence Parse FormatDay Now cfg unpushedCommits src
    = Some ((allCommits, allNewTimes), src')
    /\ length allNewTimes = length allCommits
    /\ Permutation allCommits unpushedCommits
    /\ (daysAscend Parse FormatDay (rev unpushedCommits) ->
        allCommits = rev unpushedCommits).
Proof.
  intros Hdated HJ.
  destruct (groupFrom_facts Parse FormatDay Now unpushedCommits O [])
    as (Hnd & Hne & Hperm & Hlook); [constructor | constructor |].
  specialize (Hlook Hdated). simpl in Hperm, Hlook.
  fold (groupCommitsByDay Parse FormatDay Now unpushedCommits) in *.
  set (m := groupCommitsByDay Parse FormatDay Now unpushedCommits) in *.
  set (sortedDays := sortStrings (map fst m)).
  destruct (planSortedDays_facts Parse cfg HJ m sortedDays [] [] src)
    as (newTimes & src' & Hrun & Hlen).
  { intros d Hd. unfold sortedDays in Hd.
    apply (proj1 (sortStrings_In _ _)) in Hd. split.
    - now apply lookup_of_key.
    - rewrite Hlook. apply Forall_forall. intros c Hc.
      apply filter_In in Hc. rewrite Forall_forall in Hdated.
      apply Hdated, Hc. }
  simpl in Hrun.
  exists (concat (map (fun d => rev (lookupDay m d)) sortedDays)), newTimes, src'.
  split; [exact Hrun|]. split; [exact Hlen|]. split.
  - rewrite concat_rev_perm.
    rewrite (concat_perm (lookupDay m) sortedDays (map fst m)).
    + rewrite lookup_every_key by exact Hnd. exact Hperm.
    + apply NoDup_Permutation; [now apply sortStrings_NoDup | exact Hnd|].
      intros d. apply sortStrings_In.
  - intros Hasc.
    rewrite <- (concat_by_day (dayOf Parse FormatDay) sortedDays
                  (rev unpushedCommits)).
    + f_equal. apply map_ext. intros d. now rewrite Hlook, filter_rev.
    + apply sorted_strictly; [now apply sortStrings_NoDup|].
      apply sortStrings_sorted.
    + exact Hasc.
    + intros c Hc. apply sortStrings_In. apply in_rev in Hc.
      destruct (in_dec string_dec (dayOf Parse FormatDay c) (map fst m))
        as [Hin|Hno]; [exact Hin|].
      apply lookup_no_key in Hno. rewrite Hlook in Hno.
      assert (Hc' : In c (filter (fun commit =>
                                    String.eqb (dayOf Parse FormatDay commit)
                                      (dayOf Parse FormatDay c))
                            unpushedCommits)).
      { apply filter_In. split; [exact Hc | apply String.eqb_refl]. }
      rewrite Hno in Hc'. contradiction.
Qed.

Lemma same_day_plan_follows_the_days_witness :
  exists allCommits allNewTimes src',
    planCadence twoDayParse twoDayFormat noClock testConfig datesInOrder
      (Rand.const 0)
    = Some ((allCommits, allNewTimes), src')
    /\ length allNewTimes = length allCommits
    /\ Permutation allCommits datesInOrder
    /\ (daysAscend twoDayParse twoDayFormat (rev datesInOrder) ->
        allCommits = rev datesInOrder).
Proof.
  apply (same_day_plan_follows_the_days twoDayParse twoDayFormat noClock
           testConfig datesInOrder (Rand.const 0)).
  - repeat constructor; discriminate.
  - simpl. lia.
Defined.

(** The history of two commits whose dates go back is replayed newest
    first. *)
Example dates_out_of_order_are_replayed_out_of_order :
  exists allNewTimes src',
    planCadence twoDayParse twoDayFormat noClock testConfig datesOutOfOrder
      (Rand.const 0)
    = Some ((datesOutOfOrder, allNewTimes), src')
    /\ datesOutOfOrder <> rev datesOutOfOrder.
Proof.
  do 2 eexists. split; [vm_compute; reflexivity | discriminate].
Qed.

(** ** The order of a replay *)

(** Settles that the events added replay a commit. *)
Ltac replay_ok Hm :=
  unfold replaysCommit; rewrite Hm;
  first [ left; reflexivity
        | right; eexists; reflexivity
        | simpl; intuition reflexivity ].

Ltac replays_ok Hm :=
  simpl app; repeat (apply Forall_cons; [replay_ok Hm|]); apply Forall_nil.

Section ReplayOrder.

Variable git : Repository.
Variable Time : Type.
Variable Format : Time -> string.
Variables repoPath branchName : string.
Variables newCommitAuthorName newCommitAuthorEmail : string.

Lemma applyCherryPick_replays commit :
  IsMerge commit = false ->
  yields (applyCherryPick git repoPath commit)
    (fun _ evs => Forall (replaysCommit repoPath branchName commit) evs).
Proof.
  intros Hm. unfold applyCherryPick.
  run_command; [apply yields_ret; replays_ok Hm|].
  run_command.
  - destruct (GoStrings.Contains _ _).
    + run_command; [apply yields_ret; replays_ok Hm|].
      run_command; [apply yields_ret; replays_ok Hm|].
      eapply yields_bind; [apply yields_run|]. intros ? ? (r & -> & ->).
      run_command; apply yields_ret; replays_ok Hm.
    + run_command; apply yields_ret; replays_ok Hm.
  - run_command; apply yields_ret; replays_ok Hm.
Qed.

Lemma applyMerge_replays commit :
  IsMerge commit = true ->
  yields (applyMerge git repoPath branchName commit)
    (fun _ evs => Forall (replaysCommit repoPath branchName commit) evs).
Proof.
  intros Hm. unfold applyMerge, GetCommitMessage.
  destruct (GoStrings.isEmpty (MergeFrom commit)); [apply yields_ret; constructor|].
  run_command; [|apply yields_ret; replays_ok Hm].
  destruct (GoStrings.isEmpty (extractBranchNameFromMergeMessage _)).
  - destruct (GoStrings.len (MergeFrom commit) <? 8);
      [apply yields_ret; replays_ok Hm|].
    run_command; apply yields_ret; replays_ok Hm.
  - run_command; apply yields_ret; replays_ok Hm.
Qed.

Lemma apply_replays commit :
  yields (if IsMerge commit then applyMerge git repoPath branchName commit
          else applyCherryPick git repoPath commit)
    (fun _ evs => Forall (replaysCommit repoPath branchName commit) evs).
Proof.
  destruct (IsMerge commit) eqn:Hm;
    [now apply applyMerge_replays | now apply applyCherryPick_replays].
Qed.

Lemma replay_in_order commits :
  forall newTimes n,
    yields (replay git Time Format repoPath branchName newCommitAuthorName
              newCommitAuthorEmail commits newTimes n)
      (fun _ evs => replayedInOrder repoPath branchName commits evs).
Proof.
  induction commits as [|commit commits IH]; intros newTimes n; cbn [replay].
  { apply yields_ret. exists O, []. repeat split; [lia | constructor]. }
  assert (Hnone : replayedInOrder repoPath branchName (commit :: commits) []).
  { exists O, []. repeat split; [simpl; lia | constructor]. }
  destruct newTimes as [|newTime newTimes]; [now apply yields_ret|].
  eapply yields_bind; [apply apply_replays|]. intros r evs1 Hevs1.
  assert (Hone : forall amends,
             Forall (fun e => isAmend e = true) amends ->
             (length amends <= 1)%nat ->
             replayedInOrder repoPath branchName (commit :: commits)
               (evs1 ++ amends)).
  { intros amends Ha Hl. exists 1%nat, [evs1 ++ amends]. split; [simpl; lia|].
    split; [simpl; now rewrite app_nil_r|]. repeat constructor.
    exists evs1, amends. auto. }
  destruct r as [|err|].
  - eapply yields_bind; [apply yields_exec|]. intros amended evs2 ->.
    destruct amended as [out|].
    + eapply yields_weaken; [apply IH|].
      intros o evs3 (k & blocks & Hk & -> & Hblocks).
      exists (S k), ((evs1 ++ [mkEvent (amendCommand Time Format repoPath
                                          newCommitAuthorName
                                          newCommitAuthorEmail newTime)
                                 (Success out)]) :: blocks).
      split; [simpl; lia|]. split; [simpl; now rewrite <- app_assoc|].
      cbn [firstn]. constructor; [|exact Hblocks].
      eexists evs1, [_]. repeat split; [exact Hevs1 | | simpl; lia].
      repeat constructor.
    + apply yields_ret. rewrite app_nil_r. apply Hone; [|simpl; lia].
      repeat constructor.
  - apply yields_ret. apply (Hone []); [constructor | simpl; lia].
  - apply yields_ret. apply (Hone []); [constructor | simpl; lia].
Qed.

End ReplayOrder.

(** X24.  [UpdateCommitTimes] replays the commits one after the other in
    the order they are given, as far as it gets: between the checkout of the
    parent commit and the creation of the rewrite branch on one side and the
    swap of the branches on the other, the commands of a run are, commit by
    commit, those that replay the commit followed by its amend.  A merge
    commit is replayed by reading its message and merging its recorded source
    again under a message [Merge branch '...' into <branch>]; a regular commit
    by its cherry-pick and the recovery of that cherry-pick; neither is ever
    replayed the other way. *)
Theorem commits_are_replayed_in_order (git : Repository) (Time : Type)
    (Format : Time -> string) (repoPath : string) (commits : list Commit)
    (newTimes : list Time) (parentCommitHash branchName rewriteBranchName
    newCommitAuthorName newCommitAuthorEmail : string) :
  exists before replayed after,
    snd (UpdateCommitTimes git Time Format repoPath commits newTimes
           parentCommitHash branchName rewriteBranchName
           newCommitAuthorName newCommitAuthorEmail [])
    = before ++ replayed ++ after
    /\ Forall beforeReplay before
    /\ replayedInOrder repoPath branchName commits replayed
    /\ Forall afterReplay after.
Proof.
  assert (Hfrom : yields (onRewriteBranch git Time Format repoPath commits
                            newTimes branchName rewriteBranchName
                            newCommitAuthorName newCommitAuthorEmail)
                    (fun _ evs =>
                       exists before replayed after,
                         evs = before ++ replayed ++ after
                         /\ Forall beforeReplay before
                         /\ replayedInOrder repoPath branchName commits replayed
                         /\ Forall afterReplay after)).
  { unfold onRewriteBranch. run_command.
    2:{ apply yields_ret. eexists [_], [], []. split; [reflexivity|].
        split; [repeat constructor|]. split; [|constructor].
        exists O, []. repeat split; [lia | constructor]. }
    eapply yields_bind; [apply replay_in_order|]. intros o evs1 Hevs1.
    assert (Hend : forall after, Forall afterReplay after ->
               exists before replayed after',
                 [mkEvent (gitIn repoPath ["checkout"; "-b"; rewriteBranchName]%string)
                    (Success out)] ++ evs1 ++ after
                 = before ++ replayed ++ after'
                 /\ Forall beforeReplay before
                 /\ replayedInOrder repoPath branchName commits replayed
                 /\ Forall afterReplay after').
    { intros after Hafter. eexists [_], evs1, after.
      split; [reflexivity|]. split; [repeat constructor|]. auto. }
    destruct o as [n|n err|].
    - unfold swapBranches. run_command.
      + run_command; apply yields_ret; apply Hend; simpl app;
          repeat (apply Forall_cons;
                  [first [left; reflexivity | right; reflexivity]|]);
          apply Forall_nil.
      + apply yields_ret. apply Hend. repeat constructor.
    - apply yields_ret. apply Hend. constructor.
    - apply yields_ret. apply Hend. constructor. }
  assert (Hrun : yields (UpdateCommitTimes git Time Format repoPath commits
                           newTimes parentCommitHash branchName
                           rewriteBranchName newCommitAuthorName
                           newCommitAuthorEmail)
                   (fun _ evs =>
                      exists before replayed after,
                        evs = before ++ replayed ++ after
                        /\ Forall beforeReplay before
                        /\ replayedInOrder repoPath branchName commits replayed
                        /\ Forall afterReplay after)).
  { unfold UpdateCommitTimes.
    destruct (String.eqb parentCommitHash emptyTreeHash).
    - apply (yields_bind _ _ (fun a evs => a = Some EmptyString /\ evs = []));
        [apply yields_ret; auto|].
      intros a evs1 [-> ->]. exact Hfrom.
    - run_command.
      + eapply yields_weaken; [exact Hfrom|].
        intros o evs (before & replayed & after & -> & Hb & Hr & Ha).
        eexists (_ :: before), replayed, after. split; [reflexivity|].
        split; [constructor; [reflexivity | exact Hb]|]. auto.
      + apply yields_ret. eexists [_], [], []. split; [reflexivity|].
        split; [repeat constructor|]. split; [|constructor].
        exists O, []. repeat split; [lia | constructor]. }
  destruct (Hrun []) as (o & evs & E & H). rewrite E. exact H.
Qed.

(** ** From the plan to the replay *)

(** X25.  What [commitCadenceSpan] plans is replayed without a run-time
    panic: given the commits and the timestamps of its plan,
    [UpdateCommitTimes] never reads a timestamp that is missing, and it does
    not panic at all when the merge sources of the unpushed commits have
    eight bytes or more, as the hashes of the log have. *)
Theorem span_plan_is_replayed_without_panic (cfg : Config)
    (skip : WeekdaySet) (loc : Location) (oldestTime now : Time)
    (unpushedCommits : list Commit) (src src' : Rand.Source)
    (allCommits : list Commit) (allNewTimes : list Time)
    (git : Repository) (Format : Time -> string)
    (repoPath parentCommitHash branchName rewriteBranchName
     newCommitAuthorName newCommitAuthorEmail : string) (tr : Trace) :
  unpushedCommits <> [] ->
  JitterMinutes cfg < 2 ^ 62 ->
  Z.of_nat (length unpushedCommits)
  < (if JitterDays cfg then 2 ^ 63 else 2 ^ 31) ->
  Forall abbreviable unpushedCommits ->
  planSpan cfg skip loc oldestTime now unpushedCommits src
  = Some (Planned allCommits allNewTimes, src') ->
  fst (UpdateCommitTimes git Time Format repoPath allCommits allNewTimes
         parentCommitHash branchName rewriteBranchName
         newCommitAuthorName newCommitAuthorEmail tr) <> Panicked.
Proof.
  intros Hsome HJ Hn Hmerge Hplan.
  destruct (planSpan_facts cfg skip loc oldestTime now unpushedCommits
              Hsome HJ Hn src) as (plan & src1 & Hrun1 & Hfacts).
  rewrite Hplan in Hrun1. inversion Hrun1; subst plan src1; clear Hrun1.
  destruct Hfacts as [[Hno _] | (parts & Heq & Hl & _)]; [discriminate|].
  inversion Heq; subst allCommits allNewTimes; clear Heq.
  destruct (UpdateCommitTimes_facts git Time Format repoPath branchName
              rewriteBranchName newCommitAuthorName newCommitAuthorEmail
              parentCommitHash (rev unpushedCommits) (concat parts) tr)
    as (o & evs & Hrun & _ & Hpanic & _).
  rewrite Hrun. simpl fst. intros E.
  destruct (Hpanic E) as [Hshort|Hex]; [rewrite length_rev in Hshort; lia|].
  apply Exists_exists in Hex. destruct Hex as (commit & Hin & Hm & Hlen).
  apply in_rev in Hin. rewrite Forall_forall in Hmerge.
  specialize (Hmerge commit Hin Hm). lia.
Qed.

Lemma span_plan_is_replayed_without_panic_witness :
  fst (UpdateCommitTimes agreeableGit Time (fun _ => "2024-01-01T16:59:00"%string)
         "repo" (rev threeCommits) threeEvenings
         "p0" "main" "rewrite-history" EmptyString EmptyString []) <> Panicked.
Proof.
  apply (span_plan_is_replayed_without_panic testConfig
           (parseWeekdays "Sat,Sun") UTC
           (monday2024 + 10 * Hour) (daysLater 2 monday2024 + 15 * Hour)
           threeCommits (Rand.const 0) (Rand.const 0) (rev threeCommits)
           threeEvenings agreeableGit (fun _ => "2024-01-01T16:59:00"%string)
           "repo" "p0" "main" "rewrite-history" EmptyString EmptyString []).
  - discriminate.
  - simpl. lia.
  - simpl. lia.
  - repeat constructor; discriminate.
  - vm_compute. reflexivity.
Defined.
